(** * Batch-size rewriting and tensor extraction of [utils.py]

    A shallow embedding of [extract_data], [find_initializer],
    [find_tensor_value_info] and [change_batch_size], together with the
    protobuf records they read and mutate, and the properties of the
    specification proved (or refuted) on that embedding.

    Conventions.
    - A Python exception is a value of [exn]; a call that may raise returns
      [result A].
    - The graph is mutated in place by the source, so [change_batch_size]
      returns the outcome together with the graph as it is left, also when an
      exception escapes.
    - A FLOAT element is kept as its IEEE binary32 bit pattern (a [Z] below
      2^32): both the protobuf field and [struct] widen the same 32 bits to a
      Python float, so equal patterns are equal numbers read. *)

From Stdlib Require Import ZArith List Lia.
From Stdlib Require Import Strings.Byte.
From coqutil Require Import Word.LittleEndianList.
From stdpp Require Import base list strings gmap.

Local Open Scope Z_scope.

(** ** Exceptions and results *)

Inductive exn : Type :=
| KeyError            (* lookup in the format table of extract_data *)
| StructError         (* struct.error: buffer not a multiple of the item size *)
| AssertionError      (* assert len(ret) == 1 *)
| ReshapeError        (* ValueError of np.reshape: sizes do not agree *)
| NoValueInfo (n : string)   (* ValueError(f'No value_info found for {name}') *)
| TypeError           (* item assignment on a bare number *)
| IndexError          (* index 0 of an empty sequence *)
| RangeError          (* protobuf: integer outside the int64 range *)
| InferenceError (diagnostic : string).  (* raised by onnx.shape_inference *)

Inductive result (A : Type) : Type :=
| Ok (a : A)
| Raise (e : exn).
Arguments Ok {A} a.
Arguments Raise {A} e.

Definition bind {A B} (r : result A) (k : A -> result B) : result B :=
  match r with
  | Ok a => k a
  | Raise e => Raise e
  end.

Notation "'let*' x ':=' r 'in' k" := (bind r (fun x => k))
  (at level 10, x name, r at level 100, k at level 200).

(** ** Protobuf records *)

(** onnx.TensorProto.DataType: the two tags the code knows. *)
Definition FLOAT : Z := 1.
Definition INT64 : Z := 7.

Record TensorProto : Type := mkTensor {
  name : string;
  data_type : Z;
  dims : list Z;
  float_data : list Z;        (* binary32 bit patterns *)
  int64_data : list Z;
  raw_data : list byte;
}.

(** TensorShapeProto.Dimension: the oneof [value] and the denotation. *)
Inductive dim_oneof : Type :=
| dim_unset
| dim_value (v : Z)
| dim_param (p : string).

Record Dimension : Type := mkDim {
  value : dim_oneof;
  denotation : string;
}.

(** ValueInfoProto, with [type.tensor_type] flattened: the element type and
    [shape.dim] (empty when no shape is recorded). *)
Record ValueInfoProto : Type := mkValueInfo {
  vi_name : string;
  elem_type : Z;
  shape_dim : list Dimension;
}.

Record NodeProto : Type := mkNode {
  op_type : string;
  input : list string;
  output : list string;
}.

Record GraphProto : Type := mkGraph {
  node : list NodeProto;
  initializer : list TensorProto;
  value_info : list ValueInfoProto;
  g_input : list ValueInfoProto;
  g_output : list ValueInfoProto;
}.

Record ModelProto : Type := mkModel {
  graph : GraphProto;
}.

(** ** Values, numpy arrays *)

(** An element read from a tensor: a Python float (by its binary32 pattern)
    or a Python int. *)
Inductive pyval : Type :=
| VFloat (bits : Z)
| VInt (z : Z).

Inductive np_dtype : Type := float32 | float64 | int64.

(** A numpy array: element type, shape and the elements in row-major order. *)
Record ndarray : Type := mkArray {
  arr_dtype : np_dtype;
  arr_shape : list Z;
  arr_data : list pyval;
}.

(** What [extract_data] returns: a bare element or an array. *)
Inductive decoded : Type :=
| Scalar (v : pyval)
| Array (a : ndarray).

(** ** struct.iter_unpack

    Library code, as documented: the buffer is cut into items of the native
    size of the format, read in the byte order of the machine (little-endian
    here); a buffer whose length is not a multiple of that size is refused
    before any item is read. *)

Inductive format : Type := fmt_f | fmt_q.

(** struct.calcsize, native sizes. *)
Definition calcsize (f : format) : nat :=
  match f with
  | fmt_f => 4%nat
  | fmt_q => 8%nat
  end.

(** Two's complement reading of a 64-bit pattern. *)
Definition to_signed64 (u : Z) : Z :=
  if u <? 2 ^ 63 then u else u - 2 ^ 64.

(** One item of the buffer, little-endian. *)
Definition unpack (f : format) (chunk : list byte) : pyval :=
  match f with
  | fmt_f => VFloat (le_combine chunk)
  | fmt_q => VInt (to_signed64 (le_combine chunk))
  end.

Fixpoint chunks (fuel : nat) (n : nat) (buf : list byte) : list (list byte) :=
  match fuel with
  | O => []
  | S fuel' =>
      match buf with
      | [] => []
      | _ :: _ => take n buf :: chunks fuel' n (drop n buf)
      end
  end.

Definition iter_unpack (f : format) (buf : list byte) : result (list pyval) :=
  if (length buf mod calcsize f =? 0)%nat
  then Ok (map (unpack f) (chunks (length buf) (calcsize f) buf))
  else Raise StructError.

(** ** numpy: asarray, reshape, shape, item assignment

    Library code, as documented. A list of Python ints becomes an int64
    array, a list of floats and the empty list a float64 array; a repeated
    field of a protobuf message is read with the element type of the field
    (float32 for float_data, int64 for int64_data). *)

(** What the variable [ret] of [extract_data] is bound to: the repeated field
    itself (lines 174 and 176), or a Python list (line 183). *)
Inductive sequence : Type :=
| container (t : np_dtype) (vals : list pyval)
| pylist (vals : list pyval).

Definition seq_vals (s : sequence) : list pyval :=
  match s with
  | container _ vals => vals
  | pylist vals => vals
  end.

Definition dtype_of (s : sequence) : np_dtype :=
  match s with
  | container t _ => t
  | pylist (VInt _ :: _) => int64
  | pylist _ => float64
  end.

(** The largest number of dimensions of an array (32 before numpy 2.0), and
    the largest size. *)
Definition NPY_MAXDIMS : nat := 64.
Definition NPY_MAX_INTP : Z := 2 ^ 63 - 1.

(** The product of the dimensions that are not negative, taken from left to
    right; None when a product on the way exceeds the largest size. *)
Fixpoint checked_size (acc : Z) (newshape : list Z) : option Z :=
  match newshape with
  | [] => Some acc
  | d :: rest =>
      if d <? 0 then checked_size acc rest
      else if NPY_MAX_INTP <? acc * d then None
      else checked_size (acc * d) rest
  end.

Fixpoint known_size (newshape : list Z) : Z :=
  match newshape with
  | [] => 1
  | d :: rest => if d <? 0 then known_size rest else d * known_size rest
  end.

Fixpoint unknown_dims (newshape : list Z) : nat :=
  match newshape with
  | [] => O
  | d :: rest => if d <? 0 then S (unknown_dims rest) else unknown_dims rest
  end.

(** np.reshape(ret, newshape): a negative entry is the one dimension left to
    be inferred from the number of elements. Too many dimensions, a product
    of dimensions that overflows, a second negative entry and a size that
    does not fit are all refused with a ValueError; so is a sequence longer
    than the largest size, of which no array can be made. *)
Definition np_reshape (ret : sequence) (newshape : list Z) : result ndarray :=
  let size := Z.of_nat (length (seq_vals ret)) in
  if (NPY_MAXDIMS <? length newshape)%nat || (NPY_MAX_INTP <? size)
  then Raise ReshapeError
  else
    match checked_size 1 newshape with
    | None => Raise ReshapeError
    | Some known =>
        match unknown_dims newshape with
        | O =>
            if size =? known
            then Ok (mkArray (dtype_of ret) newshape (seq_vals ret))
            else Raise ReshapeError
        | S O =>
            if (known =? 0) || negb (size mod known =? 0)
            then Raise ReshapeError
            else Ok (mkArray (dtype_of ret)
                       (map (fun d => if d <? 0 then size / known else d)
                          newshape)
                       (seq_vals ret))
        | _ => Raise ReshapeError
        end
    end.

Definition zero_of (t : np_dtype) : pyval :=
  match t with
  | float32 => VFloat 0
  | float64 => VFloat 0
  | int64 => VInt 0
  end.

Definition prod_dims (s : list Z) : Z := fold_right Z.mul 1 s.

(** [v[0] = 0]: on a bare Python number a TypeError; on an array the
    sub-array at index 0 of the first axis is filled with zero. *)
Definition setitem0 (v : decoded) : result ndarray :=
  match v with
  | Scalar _ => Raise TypeError
  | Array a =>
      match arr_shape a with
      | [] => Raise IndexError
      | d0 :: rest =>
          if d0 <=? 0 then Raise IndexError
          else
            let slab := Z.to_nat (prod_dims rest) in
            Ok (mkArray (arr_dtype a) (arr_shape a)
                  (replicate slab (zero_of (arr_dtype a)) ++ drop slab (arr_data a)))
      end
  end.

(** ** onnx.helper.make_tensor at data_type=INT64

    The values are flattened, their number must be the product of [dims],
    and they are converted to int64 and stored in the [int64_data] field. *)

(** The conversion of a float, given by its binary32 pattern, to int64: the
    value truncated toward zero; NaN, the infinities and the values outside
    int64 give the least int64, as the conversion does on x86-64. *)
Definition float_to_int64 (bits : Z) : Z :=
  let e := Z.land (Z.shiftr bits 23) 255 in
  let frac := Z.land bits (2 ^ 23 - 1) in
  if e =? 255 then - 2 ^ 63
  else
    let m := if e =? 0 then frac else frac + 2 ^ 23 in
    let ex := (if e =? 0 then 1 else e) - 150 in
    let mag := if 0 <=? ex then m * 2 ^ ex else m / 2 ^ (- ex) in
    if 2 ^ 63 <=? mag then - 2 ^ 63
    else if Z.testbit bits 31 then - mag else mag.

Definition to_int64 (v : pyval) : Z :=
  match v with
  | VInt z => z
  | VFloat bits => float_to_int64 bits
  end.

Definition as_int64_field (vals : list pyval) : list Z := map to_int64 vals.

Definition make_tensor_INT64 (nm : string) (dms : list Z) (vals : ndarray)
  : result TensorProto :=
  if Z.of_nat (length (arr_data vals)) =? prod_dims dms
  then Ok (mkTensor nm INT64 dms [] (as_int64_field (arr_data vals)) [])
  else Raise ReshapeError.

(** ** extract_data *)

Definition nonempty {A} (l : list A) : bool :=
  match l with
  | [] => false
  | _ :: _ => true
  end.

Definition format_char (dt : Z) : result format :=
  if dt =? FLOAT then Ok fmt_f
  else if dt =? INT64 then Ok fmt_q
  else Raise KeyError.

(** The variable [ret] of [extract_data] (lines 173-183): one of the two
    repeated fields, or the list unpacked from the raw buffer. *)
Definition extract_seq (params : TensorProto) : result sequence :=
  if (data_type params =? FLOAT) && nonempty (float_data params)
  then Ok (container float32 (map VFloat (float_data params)))
  else if (data_type params =? INT64) && nonempty (int64_data params)
  then Ok (container int64 (map VInt (int64_data params)))
  else
    let* fc := format_char (data_type params) in
    let* l := iter_unpack fc (raw_data params) in
    Ok (pylist l).

(** The elements of [ret]. *)
Definition extract_ret (params : TensorProto) : result (list pyval) :=
  let* ret := extract_seq params in Ok (seq_vals ret).

Definition extract_data (params : TensorProto) : result decoded :=
  let* ret := extract_seq params in
  if (length (dims params) =? 0)%nat
  then match seq_vals ret with
       | [x] => Ok (Scalar x)
       | _ => Raise AssertionError
       end
  else let* a := np_reshape ret (dims params) in Ok (Array a).

(** ** find_initializer *)

(** The loop of [find_initializer]: the first record of that name, or None. *)
Fixpoint first_tensor (l : list TensorProto) (nm : string) : option TensorProto :=
  match l with
  | [] => None
  | t :: rest => if String.eqb (name t) nm then Some t else first_tensor rest nm
  end.

Definition find_initializer (onnx_model : ModelProto) (nm : string)
  : option TensorProto :=
  first_tensor (initializer (graph onnx_model)) nm.

(** ** find_tensor_value_info *)

Definition before_merge : string := "_before_merge".

(** str.endswith *)
Definition endswith (s suffix : string) : bool :=
  (String.length suffix <=? String.length s)%nat
  && String.eqb
       (String.substring (String.length s - String.length suffix)
                  (String.length suffix) s)
       suffix.

(** [s[:-n]] for [n] positive and at most [len(s)]. *)
Definition drop_last (n : nat) (s : string) : string :=
  String.substring 0 (String.length s - n) s.

Fixpoint first_value_info (l : list ValueInfoProto) (nm : string)
  : option ValueInfoProto :=
  match l with
  | [] => None
  | v :: rest =>
      if String.eqb (vi_name v) nm then Some v else first_value_info rest nm
  end.

(** itertools.chain(g.value_info, g.input, g.output) *)
Definition chain (g : GraphProto) : list ValueInfoProto :=
  value_info g ++ g_input g ++ g_output g.

Definition find_tensor_value_info (onnx_model : ModelProto) (nm : string)
  : result ValueInfoProto :=
  let nm := if endswith nm before_merge
            then drop_last (String.length before_merge) nm
            else nm in
  let g := graph onnx_model in
  match first_value_info (chain g) nm with
  | Some v => Ok v
  | None => Raise (NoValueInfo nm)
  end.

(** ** change_batch_size *)

(** The argument [batch_size : Union[str, int]]. *)
Inductive batch_size : Type :=
| batch_str (s : string)
| batch_int (n : Z).

Definition fits_int64 (n : Z) : bool := (- 2 ^ 63 <=? n) && (n <? 2 ^ 63).

(** [shape.dim[0].dim_param = batch_size] or [.dim_value = batch_size]:
    either assignment sets the oneof and clears its other member; protobuf
    refuses an integer that does not fit the int64 field. *)
Definition set_dim (bs : batch_size) (d : Dimension) : result Dimension :=
  match bs with
  | batch_str s => Ok (mkDim (dim_param s) (denotation d))
  | batch_int n =>
      if fits_int64 n then Ok (mkDim (dim_value n) (denotation d))
      else Raise RangeError
  end.

(** [[node.output[0] for node in g.node if node.op_type == 'Constant']] *)
Fixpoint constant_outputs (nodes : list NodeProto) : result (list string) :=
  match nodes with
  | [] => Ok []
  | n :: rest =>
      if String.eqb (op_type n) "Constant"
      then match output n !! 0%nat with
           | None => Raise IndexError
           | Some o => let* os := constant_outputs rest in Ok (o :: os)
           end
      else constant_outputs rest
  end.

(** Body of the first loop, on one record. *)
Definition rewrite_value_info (initializer_names constant_names : gset string)
    (bs : batch_size) (v : ValueInfoProto) : result ValueInfoProto :=
  if bool_decide (vi_name v ∈ initializer_names)
     || bool_decide (vi_name v ∈ constant_names)
  then Ok v
  else match shape_dim v with
       | [] => Ok v
       | d :: rest =>
           let* d' := set_dim bs d in
           Ok (mkValueInfo (vi_name v) (elem_type v) (d' :: rest))
       end.

(** A loop that rewrites the records of a repeated field in place and stops
    at the first exception, leaving the records not yet visited as they
    were. *)
Fixpoint for_each {A} (body : A -> result A) (l : list A)
  : option exn * list A :=
  match l with
  | [] => (None, [])
  | x :: rest =>
      match body x with
      | Raise e => (Some e, x :: rest)
      | Ok x' => let (o, rest') := for_each body rest in (o, x' :: rest')
      end
  end.

Definition with_value_infos (m : ModelProto)
    (vis ins outs : list ValueInfoProto) : ModelProto :=
  let g := graph m in
  mkModel (mkGraph (node g) (initializer g) vis ins outs).

Definition with_initializer (m : ModelProto) (inits : list TensorProto)
  : ModelProto :=
  let g := graph m in
  mkModel (mkGraph (node g) inits (value_info g) (g_input g) (g_output g)).

(** The first loop over the chain of the three fields. *)
Definition rewrite_shapes (bs : batch_size) (m : ModelProto)
  : option exn * ModelProto :=
  let g := graph m in
  let initializer_names : gset string :=
    list_to_set (map name (initializer g)) in
  match constant_outputs (node g) with
  | Raise e => (Some e, m)
  | Ok cs =>
      let constant_names : gset string := list_to_set cs in
      let body := rewrite_value_info initializer_names constant_names bs in
      let (o1, vis) := for_each body (value_info g) in
      match o1 with
      | Some e => (Some e, with_value_infos m vis (g_input g) (g_output g))
      | None =>
          let (o2, ins) := for_each body (g_input g) in
          match o2 with
          | Some e => (Some e, with_value_infos m vis ins (g_output g))
          | None =>
              let (o3, outs) := for_each body (g_output g) in
              (o3, with_value_infos m vis ins outs)
          end
      end
  end.

(** Lines 230-237: decode the target shape, zero its item 0, build the fresh
    record. *)
Definition patched (new_shape : TensorProto) : result TensorProto :=
  let* new_shape_value := extract_data new_shape in
  let* new_shape_value := setitem0 new_shape_value in
  make_tensor_INT64 (name new_shape) (arr_shape new_shape_value) new_shape_value.

(** [new_shape.CopyFrom(t)] where [new_shape] is the record that
    [find_initializer] returned for [nm]: the first of that name. *)
Fixpoint copy_from (l : list TensorProto) (nm : string) (t : TensorProto)
  : list TensorProto :=
  match l with
  | [] => []
  | x :: rest =>
      if String.eqb (name x) nm then t :: rest else x :: copy_from rest nm t
  end.

(** Body of the second loop, on one node. *)
Definition reshape_step (onnx_model : ModelProto) (n : NodeProto)
  : result ModelProto :=
  if negb (String.eqb (op_type n) "Reshape") then Ok onnx_model
  else
    match input n !! 0%nat with
    | None => Raise IndexError
    | Some data =>
        match find_initializer onnx_model data with
        | Some _ => Ok onnx_model
        | None =>
            match input n !! 1%nat with
            | None => Raise IndexError
            | Some target =>
                match find_initializer onnx_model target with
                | None => Ok onnx_model
                | Some new_shape =>
                    let* t := patched new_shape in
                    Ok (with_initializer onnx_model
                          (copy_from (initializer (graph onnx_model)) target t))
                end
            end
        end
    end.

Fixpoint reshape_loop (nodes : list NodeProto) (m : ModelProto)
  : option exn * ModelProto :=
  match nodes with
  | [] => (None, m)
  | n :: rest =>
      match reshape_step m n with
      | Raise e => (Some e, m)
      | Ok m' => reshape_loop rest m'
      end
  end.

Definition patch_reshapes (bs : batch_size) (m : ModelProto)
  : option exn * ModelProto :=
  match bs with
  | batch_str _ => reshape_loop (node (graph m)) m
  | batch_int _ => (None, m)
  end.

(** The graph mutations of [change_batch_size], before the final check. *)
Definition mutate (bs : batch_size) (m : ModelProto) : option exn * ModelProto :=
  match rewrite_shapes bs m with
  | (Some e, m1) => (Some e, m1)
  | (None, m1) => patch_reshapes bs m1
  end.

Section ChangeBatchSize.

(** onnx.shape_inference.infer_shapes, as far as the caller sees it: it
    returns (the value is dropped) or raises with a diagnostic. *)
Variable infer_shapes : ModelProto -> option string.

Definition change_batch_size (onnx_model : ModelProto) (bs : batch_size)
  : option exn * ModelProto :=
  match mutate bs onnx_model with
  | (Some e, m) => (Some e, m)
  | (None, m) =>
      match infer_shapes m with
      | Some diagnostic => (Some (InferenceError diagnostic), m)
      | None => (None, m)
      end
  end.

End ChangeBatchSize.

(** ** The storage encodings of a logical tensor

    A logical tensor is a data type, a shape and a flat sequence of elements.
    It is stored either in the repeated field of its data type or in the raw
    buffer, item after item, little-endian. *)

Definition in_field (nm : string) (dt : Z) (dms : list Z) (vs : list Z)
  : TensorProto :=
  if dt =? FLOAT then mkTensor nm dt dms vs [] []
  else mkTensor nm dt dms [] vs [].

Definition item_size (dt : Z) : nat := if dt =? FLOAT then 4%nat else 8%nat.

Definition in_raw (nm : string) (dt : Z) (dms : list Z) (vs : list Z)
  : TensorProto :=
  mkTensor nm dt dms [] [] (concat (map (le_split (item_size dt)) vs)).

(** The elements a data type can hold: binary32 patterns, or int64 values. *)
Definition storable (dt : Z) (v : Z) : Prop :=
  if dt =? FLOAT then 0 <= v < 2 ^ 32 else - 2 ^ 63 <= v < 2 ^ 63.

(** ** Vocabulary of the statements *)

Definition is_initializer_name (m : ModelProto) (nm : string) : Prop :=
  exists t, t ∈ initializer (graph m) /\ name t = nm.

(** The names collected in [constant_names]: the first output of a node
    whose op-type is Constant. *)
Definition is_constant_name (m : ModelProto) (nm : string) : Prop :=
  exists n, n ∈ node (graph m) /\ op_type n = "Constant"
            /\ output n !! 0%nat = Some nm.

Definition is_constant (m : ModelProto) (v : ValueInfoProto) : Prop :=
  is_initializer_name m (vi_name v) \/ is_constant_name m (vi_name v).

(** The three repeated fields that hold ValueInfo records. *)
Definition fields : list (GraphProto -> list ValueInfoProto) :=
  [value_info; g_input; g_output].

(** The requested batch-size token as a dimension value. *)
Definition token (bs : batch_size) : dim_oneof :=
  match bs with
  | batch_str s => dim_param s
  | batch_int n => dim_value n
  end.

(** [n] is a Reshape node that the second loop does not skip on account of
    its data input, and [target] is its second input. *)
Definition reshapes_into (m : ModelProto) (n : NodeProto) (target : string)
  : Prop :=
  op_type n = "Reshape" /\
  exists data, input n !! 0%nat = Some data /\
               find_initializer m data = None /\
               input n !! 1%nat = Some target.

(** The record that the first loop leaves for [v] when it is not skipped. *)
Definition with_token (bs : batch_size) (v : ValueInfoProto) : ValueInfoProto :=
  match shape_dim v with
  | [] => v
  | d :: rest =>
      mkValueInfo (vi_name v) (elem_type v)
        (mkDim (token bs) (denotation d) :: rest)
  end.

(** What the first loop does to one record when it runs to its end. *)
Definition rewritten (m : ModelProto) (bs : batch_size)
    (v v' : ValueInfoProto) : Prop :=
  (is_constant m v -> v' = v) /\ (~ is_constant m v -> v' = with_token bs v).

(** What it may have done to one record when it stopped anywhere. *)
Definition visited (m : ModelProto) (bs : batch_size)
    (v v' : ValueInfoProto) : Prop :=
  v' = v \/ (~ is_constant m v /\ v' = with_token bs v).

(** The second loop only replaces initializer records, by records of the
    same name. *)
Definition same_but_initializer (m m' : ModelProto) : Prop :=
  node (graph m') = node (graph m) /\
  value_info (graph m') = value_info (graph m) /\
  g_input (graph m') = g_input (graph m) /\
  g_output (graph m') = g_output (graph m) /\
  map name (initializer (graph m')) = map name (initializer (graph m)).

(** The node is passed over without a change. *)
Definition skips (m : ModelProto) (n : NodeProto) : Prop :=
  op_type n <> "Reshape" \/
  (exists data, input n !! 0%nat = Some data /\ find_initializer m data <> None) \/
  (exists target, reshapes_into m n target /\ find_initializer m target = None).

(** Between two states of the loop, the record found under [nm] is the same,
    or it is the patch of the earlier one and one of [ns] asked for it. *)
Definition patch_rel (ns : list NodeProto) (m m' : ModelProto) (nm : string)
  : Prop :=
  find_initializer m' nm = find_initializer m nm \/
  exists t0 t', find_initializer m nm = Some t0 /\ patched t0 = Ok t' /\
                find_initializer m' nm = Some t' /\
                exists n, n ∈ ns /\ reshapes_into m n nm.

(** The exception is the one of the final check. *)
Definition from_checker (e : exn) : bool :=
  match e with
  | InferenceError _ => true
  | _ => false
  end.

(** ** Example graphs *)

Definition fixed_dims (l : list Z) : list Dimension :=
  map (fun d => mkDim (dim_value d) "") l.

(** One Reshape node fed by the graph input "x" of shape [10,1,28,28], with
    the target shape [10, 784] in the initializer "shape0". *)
Definition scenario : ModelProto :=
  mkModel (mkGraph
    [mkNode "Reshape" ["x"; "shape0"] ["y"]]
    [mkTensor "shape0" INT64 [2] [] [10; 784] []]
    []
    [mkValueInfo "x" FLOAT (fixed_dims [10; 1; 28; 28])]
    [mkValueInfo "y" FLOAT (fixed_dims [10; 784])]).

(** Two Reshape nodes with the same target shape "s": the first reshapes the
    initializer "W" (20 elements, to 10 x 2), the second the graph input
    "x". *)
Definition shared_target : ModelProto :=
  mkModel (mkGraph
    [mkNode "Reshape" ["W"; "s"] ["w2"]; mkNode "Reshape" ["x"; "s"] ["y"]]
    [mkTensor "W" FLOAT [20] (replicate 20 0) [] [];
     mkTensor "s" INT64 [2] [] [10; -1] []]
    []
    [mkValueInfo "x" FLOAT (fixed_dims [10; 3; 224; 224])]
    []).

(** A graph whose every ValueInfo is named after an initializer or after the
    output of a Constant node. *)
Definition all_constant : ModelProto :=
  mkModel (mkGraph
    [mkNode "Constant" [] ["c"]]
    [mkTensor "W" INT64 [1] [] [5] []]
    [mkValueInfo "c" FLOAT (fixed_dims [10; 2])]
    [mkValueInfo "W" INT64 (fixed_dims [1])]
    []).

Definition passes : ModelProto -> option string := fun _ => None.
Definition rejects : ModelProto -> option string := fun _ => Some "inconsistent"%string.

(** Only the first node reads "s", and it reshapes the initializer "W". *)
Definition constant_data : ModelProto :=
  mkModel (mkGraph
    [mkNode "Reshape" ["W"; "s"] ["w2"]; mkNode "Relu" ["x"] ["y"]]
    [mkTensor "W" FLOAT [20] (replicate 20 0) [] [];
     mkTensor "s" INT64 [2] [] [10; -1] []]
    []
    [mkValueInfo "x" FLOAT (fixed_dims [10; 3; 224; 224])]
    []).

(** A Reshape node whose target shape is a scalar: the call raises. *)
Definition scalar_target : ModelProto :=
  mkModel (mkGraph
    [mkNode "Reshape" ["x"; "c"] ["y"]]
    [mkTensor "c" INT64 [] [] [7] []]
    []
    [mkValueInfo "x" FLOAT (fixed_dims [10; 784])]
    []).

(** The graph of [scenario] with its target shape stored as a FLOAT tensor:
    the floats 10.0 and 784.5, by their binary32 patterns. *)
Definition float_target : ModelProto :=
  mkModel (mkGraph
    [mkNode "Reshape" ["x"; "shape0"] ["y"]]
    [mkTensor "shape0" FLOAT [2] [1092616192; 1145315328] [] []]
    []
    [mkValueInfo "x" FLOAT (fixed_dims [10; 1; 28; 28])]
    [mkValueInfo "y" FLOAT (fixed_dims [10; 784])]).

(** ** original_model_run.py: the graph surgery of prepare_model_and_data

    Lines 81-92. The dict [input_mapping] is kept as the list of its items in
    insertion order; its keys are distinct. *)

(** ModelData of utils.py. *)
Record ModelData (array : Type) : Type := mkModelData {
  labels : list Z;
  images : list array;
  input_mapping : list (string * string);
}.
Arguments mkModelData {array} labels images input_mapping.
Arguments labels {array} m.
Arguments images {array} m.
Arguments input_mapping {array} m.

(** dict.get(key, default) *)
Fixpoint dict_get (d : list (string * string)) (key default : string) : string :=
  match d with
  | [] => default
  | (k, v) :: rest =>
      if String.eqb k key then v else dict_get rest key default
  end.

(** [s in l] for a list or a keys view. *)
Definition in_strings (s : string) (l : list string) : bool :=
  bool_decide (s ∈ l).

(** [model.graph.input.append(v)]: a copy of [v] becomes the last input. *)
Definition append_input (m : ModelProto) (v : ValueInfoProto) : ModelProto :=
  with_value_infos m (value_info (graph m)) (g_input (graph m) ++ [v])
    (g_output (graph m)).

(** Lines 82-83. *)
Fixpoint append_new_inputs (new_inputs : list string) (m : ModelProto)
  : result ModelProto :=
  match new_inputs with
  | [] => Ok m
  | new_input :: rest =>
      let* v := find_tensor_value_info m new_input in
      append_new_inputs rest (append_input m v)
  end.

(** Lines 85-89, on one node. *)
Definition rewire (mapping : list (string * string)) (new_inputs : list string)
    (n : NodeProto) : NodeProto :=
  mkNode (op_type n)
    (map (fun inp => dict_get mapping inp inp) (input n))
    (map (fun o => if in_strings o new_inputs then o +:+ "_unused" else o)
       (output n)).

(** Lines 90-92: the records of the field are visited by index, and
    [del model.graph.input[idx]] shifts the later records one place down
    while the index moves on. *)
Fixpoint delete_loop (fuel idx : nat) (keys : list string)
    (l : list ValueInfoProto) : list ValueInfoProto :=
  match fuel with
  | O => l
  | S fuel' =>
      match l !! idx with
      | None => l
      | Some inp =>
          delete_loop fuel' (S idx) keys
            (if in_strings (vi_name inp) keys then delete idx l else l)
      end
  end.

Definition delete_mapped (keys : list string) (l : list ValueInfoProto)
  : list ValueInfoProto :=
  delete_loop (length l) 0 keys l.

Definition with_nodes (m : ModelProto) (ns : list NodeProto) : ModelProto :=
  let g := graph m in
  mkModel (mkGraph ns (initializer g) (value_info g) (g_input g) (g_output g)).

Definition remap_inputs (mapping : list (string * string)) (model : ModelProto)
  : result ModelProto :=
  let new_inputs := map snd mapping in
  let* m := append_new_inputs new_inputs model in
  let m := with_nodes m (map (rewire mapping new_inputs) (node (graph m))) in
  Ok (with_value_infos m (value_info (graph m))
        (delete_mapped (map fst mapping) (g_input (graph m)))
        (g_output (graph m))).

(** What escapes prepare_model_and_data. *)
Inductive prepare_exn : Type :=
| FromUtils (e : exn)
| OptimizerError (diagnostic : string)
| CheckerError (diagnostic : string).

Section Prepare.

(** The collaborators: onnxoptimizer.optimize with the pass
    'eliminate_deadend' (a new model, or an error), the shape inference of
    change_batch_size and onnx.checker.check_model. *)
Variable optimize : ModelProto -> string + ModelProto.
Variable infer_shapes : ModelProto -> option string.
Variable check_model : ModelProto -> option string.

(** prepare_model_and_data, from the loaded model and the loaded data on
    (lines 81-99). *)
Definition prepare_model_and_data {array : Type} (model : ModelProto)
    (model_data : ModelData array)
  : prepare_exn + (ModelProto * ModelData array) :=
  match remap_inputs (input_mapping model_data) model with
  | Raise e => inl (FromUtils e)
  | Ok m =>
      match optimize m with
      | inl d => inl (OptimizerError d)
      | inr m =>
          match change_batch_size infer_shapes m (batch_str "N") with
          | (Some e, _) => inl (FromUtils e)
          | (None, m) =>
              match check_model m with
              | Some d => inl (CheckerError d)
              | None => inr (m, model_data)
              end
          end
      end
  end.

End Prepare.

(** The deletion loop in closed form: the record that follows a deleted one
    is passed over. *)
Fixpoint scan_mapped (keys : list string) (l : list ValueInfoProto)
  : list ValueInfoProto :=
  match l with
  | [] => []
  | x :: rest =>
      if in_strings (vi_name x) keys
      then match rest with
           | [] => []
           | y :: rest' => y :: scan_mapped keys rest'
           end
      else x :: scan_mapped keys rest
  end.

(** No two neighbours of the list are both named by a key. *)
Definition no_mapped_neighbours (keys : list string) (l : list ValueInfoProto)
  : Prop :=
  forall i x y, l !! i = Some x -> l !! S i = Some y ->
    in_strings (vi_name x) keys = true -> in_strings (vi_name y) keys = false.

(** A graph with the inputs "wav_data:0" and "Mfcc:0", and the mapping that
    load_data_google_speech returns. *)
Definition speech_graph : ModelProto :=
  mkModel (mkGraph
    [mkNode "MatMul" ["wav_data:0"; "W"] ["h"]]
    [mkTensor "W" FLOAT [2] [0; 0] [] []]
    [mkValueInfo "Mfcc:0" FLOAT (fixed_dims [1; 490])]
    [mkValueInfo "wav_data:0" FLOAT (fixed_dims [1; 490])]
    [mkValueInfo "h" FLOAT (fixed_dims [1; 2])]).

Definition speech_mapping : list (string * string) :=
  [("wav_data:0", "Mfcc:0")].

Definition speech_data : ModelData unit := mkModelData [] [] speech_mapping.

(** An optimizer that finds nothing to remove. *)
Definition keeps : ModelProto -> string + ModelProto := inr.

(** [speech_graph] after the surgery and the rewrite. *)
Definition prepared_speech : ModelProto :=
  mkModel (mkGraph
    [mkNode "MatMul" ["Mfcc:0"; "W"] ["h"]]
    [mkTensor "W" FLOAT [2] [0; 0] [] []]
    [mkValueInfo "Mfcc:0" FLOAT (mkDim (dim_param "N") "" :: fixed_dims [490])]
    [mkValueInfo "Mfcc:0" FLOAT (mkDim (dim_param "N") "" :: fixed_dims [490])]
    [mkValueInfo "h" FLOAT (mkDim (dim_param "N") "" :: fixed_dims [2])]).

(** ** utils.py: the data loaders

    The files and datasets are read by library code; a loader is modelled
    from the sequence it iterates over. *)

Inductive loader_exn : Type :=
| ValueError          (* a malformed line, an unknown label, a bad row *)
| AssertFailed.       (* assert sample_rate == GOOGLE_SPEECH_SAMPLE_RATE *)

(** The body of a loop run over a sequence, up to the first exception. *)
Fixpoint collect {A B} (body : A -> loader_exn + B) (l : list A)
  : loader_exn + list B :=
  match l with
  | [] => inr []
  | x :: rest =>
      match body x with
      | inl e => inl e
      | inr y =>
          match collect body rest with
          | inl e => inl e
          | inr ys => inr (y :: ys)
          end
      end
  end.

(** [l[lo:hi]] of Python, for a list or the first axis of an array. *)
Definition py_slice {A} (l : list A) (lo hi : Z) : list A :=
  let n := Z.of_nat (length l) in
  let clamp i := if i <? 0 then Z.max (i + n) 0 else Z.min i n in
  take (Z.to_nat (clamp hi - clamp lo)) (drop (Z.to_nat (clamp lo)) l).

Definition GOOGLE_SPEECH_SAMPLE_RATE : Z := 16000.

Definition new_labels : list string :=
  ["_silence_"; "_unknown_"; "yes"; "no"; "up"; "down"; "left"; "right";
   "on"; "off"; "stop"; "go"].

(** list.index *)
Fixpoint index_of (x : string) (l : list string) : option nat :=
  match l with
  | [] => None
  | y :: rest =>
      if String.eqb y x then Some O else option_map S (index_of x rest)
  end.

(** An item of the SPEECHCOMMANDS dataset, as far as it is read. *)
Record sample (wave : Type) : Type := mkSample {
  waveform : wave;
  sample_rate : Z;
  label : string;
}.
Arguments mkSample {wave} waveform sample_rate label.
Arguments waveform {wave} s.
Arguments sample_rate {wave} s.
Arguments label {wave} s.

Section Loaders.

Context {array : Type}.

(** Lines 36-47 of load_data_mnist on one line of the file: the regular
    expression, the numbers, numpy's argmax, reshape and scaling. Each of its
    failures is a ValueError (None here). *)
Variable parse_line : string -> option (Z * array).

Fixpoint mnist_loop (lines : list string) (start : Z) (limit : option Z)
    (counter : Z) : loader_exn + list (Z * array) :=
  match lines with
  | [] => inr []
  | line :: rest =>
      if 0 <? start then mnist_loop rest (start - 1) limit counter
      else
        match parse_line line with
        | None => inl ValueError
        | Some item =>
            let counter := counter + 1 in
            if match limit with
               | Some l => l <=? counter
               | None => false
               end
            then inr [item]
            else match mnist_loop rest start limit counter with
                 | inl e => inl e
                 | inr items => inr (item :: items)
                 end
        end
  end.

Definition load_data_mnist (lines : list string) (start : Z) (limit : option Z)
  : loader_exn + ModelData array :=
  match mnist_loop lines start limit 0 with
  | inl e => inl e
  | inr items => inr (mkModelData (map fst items) (map snd items) [])
  end.

(** Lines 76-80 of load_data_cifar10 on one row of the data: numpy's
    reshape to (3, 32, 32) (a ValueError when the row has another size),
    scaling and reordering of the axes. *)
Context {row : Type}.
Variable row_image : row -> option array.

Definition load_data_cifar10 (test_labels : list Z) (test_data : list row)
    (start : Z) (limit : option Z) : loader_exn + ModelData array :=
  let limit := match limit with
               | None => Z.of_nat (length test_labels)
               | Some l => l
               end in
  let labels := py_slice test_labels start (start + limit) in
  match collect (fun r => match row_image r with
                          | Some im => inr im
                          | None => inl ValueError
                          end)
          (py_slice test_data start (start + limit)) with
  | inl e => inl e
  | inr images => inr (mkModelData labels images [])
  end.

(** np.expand_dims(np.squeeze(waveform), axis=-1), and the MFCC of the
    TensorFlow session with np.expand_dims(mfcc, 0). *)
Context {wave : Type}.
Variable decode_wav : wave -> array.
Variable mfcc : array -> array.

(** Lines 105-108 on one item. *)
Definition speech_item (data : sample wave) : loader_exn + (Z * array) :=
  if negb (sample_rate data =? GOOGLE_SPEECH_SAMPLE_RATE) then inl AssertFailed
  else match index_of (label data) new_labels with
       | None => inl ValueError
       | Some i => inr (Z.of_nat i, decode_wav (waveform data))
       end.

(** Lines 102-110: the loop over [enumerate(reversed(dataset))]. *)
Fixpoint speech_loop (start : Z) (limit : option Z) (idx : Z)
    (items : list (sample wave)) : loader_exn + list (Z * array) :=
  match items with
  | [] => inr []
  | data :: rest =>
      if idx <? start then speech_loop start limit (idx + 1) rest
      else
        match speech_item data with
        | inl e => inl e
        | inr item =>
            if match limit with
               | Some l => negb (l =? 0) && (idx =? l - 1)
               | None => false
               end
            then inr [item]
            else match speech_loop start limit (idx + 1) rest with
                 | inl e => inl e
                 | inr items => inr (item :: items)
                 end
        end
  end.

Definition load_data_google_speech (dataset : list (sample wave)) (start : Z)
    (limit : option Z) (for_onnx : bool) : loader_exn + ModelData array :=
  match speech_loop start limit 0 (rev dataset) with
  | inl e => inl e
  | inr items =>
      if for_onnx
      then inr (mkModelData (map fst items) (map mfcc (map snd items))
                  [("wav_data:0", "Mfcc:0")])
      else inr (mkModelData (map fst items) (map snd items) [])
  end.

End Loaders.

(** The samples that the speech loop reads, out of the reversed dataset. *)
Definition speech_window {A} (start : Z) (limit : option Z) (l : list A)
  : list A :=
  let rest := drop (Z.to_nat start) l in
  match limit with
  | Some lim =>
      if Z.max start 0 <? lim
      then take (Z.to_nat (lim - Z.max start 0)) rest
      else rest
  | None => rest
  end.

(** The lines that the MNIST loop parses. *)
Definition mnist_window {A} (start : Z) (limit : option Z) (l : list A)
  : list A :=
  let rest := drop (Z.to_nat start) l in
  match limit with
  | Some lim => take (Z.to_nat (Z.max lim 1)) rest
  | None => rest
  end.

(** Two results of [extract_data] show the same numbers: the same
    exception, the same scalar, or arrays of the same shape with the same
    elements, whatever the element type of the arrays. *)
Definition same_numbers (r1 r2 : result decoded) : Prop :=
  match r1, r2 with
  | Ok (Scalar x), Ok (Scalar y) => x = y
  | Ok (Array a), Ok (Array b) =>
      arr_shape a = arr_shape b /\ arr_data a = arr_data b
  | Raise e1, Raise e2 => e1 = e2
  | _, _ => False
  end.

(** * Properties of [extract_data] *)

Lemma bind_ok {A B} (r : result A) (k : A -> result B) (y : B) :
  bind r k = Ok y -> exists x, r = Ok x /\ k x = Ok y.
Proof. destruct r as [x|e]; simpl; [eauto | discriminate]. Qed.

Lemma bind_raise {A B} (r : result A) (k : A -> result B) (e : exn) :
  bind r k = Raise e -> r = Raise e \/ exists x, r = Ok x /\ k x = Raise e.
Proof. destruct r as [x|e']; simpl; [eauto | intros [= ->]; auto]. Qed.

Lemma iter_unpack_raise f buf e : iter_unpack f buf = Raise e -> e = StructError.
Proof. unfold iter_unpack. case_match; congruence. Qed.

Lemma np_reshape_raise ret ds e : np_reshape ret ds = Raise e -> e = ReshapeError.
Proof.
  unfold np_reshape. destruct (unknown_dims ds) as [|[|k]]; repeat case_match; congruence.
Qed.

Lemma extract_ret_Ok (params : TensorProto) (ret : list pyval) :
  extract_ret params = Ok ret <->
  exists s, extract_seq params = Ok s /\ seq_vals s = ret.
Proof.
  unfold extract_ret. destruct (extract_seq params) as [s|e]; simpl.
  - split; [intros [= <-]; eauto | intros (s' & [= <-] & <-); reflexivity].
  - split; [discriminate | intros (s' & ? & _); discriminate].
Qed.

Lemma extract_ret_Raise (params : TensorProto) (e : exn) :
  extract_ret params = Raise e <-> extract_seq params = Raise e.
Proof.
  unfold extract_ret. destruct (extract_seq params) as [s|e']; simpl;
    split; congruence.
Qed.

Lemma format_char_ok dt :
  dt = FLOAT \/ dt = INT64 -> exists f, format_char dt = Ok f.
Proof. intros [-> | ->]; eexists; reflexivity. Qed.

Lemma format_char_raise dt e :
  format_char dt = Raise e -> e = KeyError /\ dt <> FLOAT /\ dt <> INT64.
Proof.
  unfold format_char.
  destruct (Z.eqb_spec dt FLOAT); [discriminate |].
  destruct (Z.eqb_spec dt INT64); [discriminate |].
  intros [= <-]; auto.
Qed.

Lemma extract_ret_KeyError params :
  extract_ret params = Raise KeyError <->
  data_type params <> FLOAT /\ data_type params <> INT64.
Proof.
  rewrite extract_ret_Raise. unfold extract_seq. split.
  - intros H. repeat case_match; try discriminate.
    apply bind_raise in H as [H | (f & _ & H)].
    + apply format_char_raise in H. tauto.
    + apply bind_raise in H as [H | (l & _ & H)]; [| discriminate].
      apply iter_unpack_raise in H. discriminate.
  - intros [HF HI].
    apply Z.eqb_neq in HF, HI. rewrite HF, HI. simpl.
    unfold format_char. rewrite HF, HI. reflexivity.
Qed.

(** C8. [extract_data] raises the error of an unsupported data type (the
    KeyError of its format table) exactly when the data-type tag is neither
    FLOAT nor INT64; with a FLOAT or INT64 tag that error is never raised. *)
Theorem extract_data_unsupported_iff (params : TensorProto) :
  extract_data params = Raise KeyError <->
  data_type params <> FLOAT /\ data_type params <> INT64.
Proof.
  rewrite <- extract_ret_KeyError, extract_ret_Raise. unfold extract_data.
  split.
  - intros H. apply bind_raise in H as [H | (ret & _ & H)]; [exact H |].
    exfalso. case_match.
    + destruct (seq_vals ret) as [|x [|y l]]; discriminate.
    + apply bind_raise in H as [H | (a & _ & H)]; [| discriminate].
      apply np_reshape_raise in H. discriminate.
  - intros ->. reflexivity.
Qed.

(** C7. For an initializer whose [dims] is empty, once the flat sequence is
    decoded: a single stored element is returned as a bare scalar, and any
    other number of stored elements fails the assertion (ShapeMismatch). *)
Theorem extract_data_scalar (params : TensorProto) (ret : list pyval) :
  dims params = [] ->
  extract_ret params = Ok ret ->
  (forall x, ret = [x] -> extract_data params = Ok (Scalar x)) /\
  (length ret <> 1%nat -> extract_data params = Raise AssertionError).
Proof.
  intros Hd Hr. apply extract_ret_Ok in Hr as (s & Hs & <-).
  unfold extract_data. rewrite Hs, Hd. simpl. split.
  - intros x ->. reflexivity.
  - intros Hn. destruct (seq_vals s) as [|x [|y l]]; simpl in *; congruence.
Qed.

Lemma extract_data_scalar_witness :
  extract_data (mkTensor "c" INT64 [] [] [7] []) = Ok (Scalar (VInt 7)) /\
  extract_data (mkTensor "c" INT64 [] [] [7; 8] []) = Raise AssertionError.
Proof.
  split.
  - apply (extract_data_scalar (mkTensor "c" INT64 [] [] [7] []) [VInt 7]);
      reflexivity.
  - apply (extract_data_scalar (mkTensor "c" INT64 [] [] [7; 8] [])
             [VInt 7; VInt 8]); [reflexivity | reflexivity | simpl; lia].
Defined.

(** *** Raw buffers *)

Lemma chunks_concat (n : nat) (pieces : list (list byte)) :
  (0 < n)%nat ->
  Forall (fun p => length p = n) pieces ->
  forall fuel, (length (concat pieces) <= fuel)%nat ->
  chunks fuel n (concat pieces) = pieces.
Proof.
  intros Hn Hall. induction Hall as [|p ps Hp Hps IH]; intros fuel Hfuel.
  - destruct fuel; reflexivity.
  - simpl in *. rewrite length_app in Hfuel.
    destruct fuel as [|fuel]; [lia |]. simpl.
    destruct (p ++ concat ps) as [|c l] eqn:E.
    + apply (f_equal length) in E. rewrite length_app in E. simpl in E. lia.
    + rewrite <- E. rewrite take_app_length' by (symmetry; exact Hp).
      rewrite drop_app_length' by (symmetry; exact Hp).
      rewrite IH by lia. reflexivity.
Qed.

Lemma length_concat_pieces (n : nat) (pieces : list (list byte)) :
  Forall (fun p => length p = n) pieces ->
  length (concat pieces) = (length pieces * n)%nat.
Proof.
  induction 1 as [|p ps Hp _ IH]; simpl; [reflexivity |].
  rewrite length_app, IH, Hp. lia.
Qed.

Lemma to_signed64_mod (z : Z) :
  - 2 ^ 63 <= z < 2 ^ 63 -> to_signed64 (z mod 2 ^ 64) = z.
Proof.
  intros Hz. unfold to_signed64.
  destruct (Z_lt_le_dec z 0) as [Hneg | Hpos].
  - replace (z mod 2 ^ 64) with (z + 2 ^ 64).
    + destruct (Z.ltb_spec (z + 2 ^ 64) (2 ^ 63)); lia.
    + apply Z.mod_unique with (q := -1); lia.
  - rewrite Z.mod_small by lia.
    destruct (Z.ltb_spec z (2 ^ 63)); lia.
Qed.

Lemma unpack_split_f (v : Z) :
  0 <= v < 2 ^ 32 -> unpack fmt_f (le_split 4 v) = VFloat v.
Proof.
  intros Hv. unfold unpack. rewrite le_combine_split.
  change (Z.of_nat 4 * 8) with 32. rewrite Z.mod_small by exact Hv. reflexivity.
Qed.

Lemma unpack_split_q (v : Z) :
  - 2 ^ 63 <= v < 2 ^ 63 -> unpack fmt_q (le_split 8 v) = VInt v.
Proof.
  intros Hv. unfold unpack. rewrite le_combine_split.
  change (Z.of_nat 8 * 8) with 64. rewrite to_signed64_mod by exact Hv.
  reflexivity.
Qed.

Lemma iter_unpack_packed (f : format) (vs : list Z) (V : Z -> pyval) :
  (forall v, v ∈ vs -> unpack f (le_split (calcsize f) v) = V v) ->
  iter_unpack f (concat (map (le_split (calcsize f)) vs)) = Ok (map V vs).
Proof.
  intros HV.
  assert (Hall : Forall (fun p => length p = calcsize f)
                   (map (le_split (calcsize f)) vs)).
  { apply Forall_forall. intros p Hp. apply list_elem_of_In in Hp.
    apply in_map_iff in Hp as (v & <- & _). apply length_le_split. }
  unfold iter_unpack.
  rewrite (length_concat_pieces _ _ Hall).
  rewrite Nat.Div0.mod_mul. simpl (0 =? 0)%nat. cbv iota.
  rewrite (chunks_concat (calcsize f)); [| destruct f; simpl; lia | exact Hall | ].
  - f_equal. rewrite map_map. apply map_ext_in. intros v Hv.
    apply HV. apply list_elem_of_In. exact Hv.
  - rewrite (length_concat_pieces _ _ Hall). lia.
Qed.

Lemma extract_seq_in_field nm dt dms vs :
  dt = FLOAT \/ dt = INT64 ->
  exists s, extract_seq (in_field nm dt dms vs) = Ok s /\
            seq_vals s = map (if dt =? FLOAT then VFloat else VInt) vs /\
            (dt = INT64 -> dtype_of s = dtype_of (pylist (seq_vals s))).
Proof.
  intros [-> | ->]; unfold in_field, extract_seq; simpl;
    destruct vs; eexists; (split; [reflexivity |]); split;
    try reflexivity; discriminate.
Qed.

Lemma extract_seq_in_raw nm dt dms vs :
  dt = FLOAT \/ dt = INT64 ->
  Forall (storable dt) vs ->
  extract_seq (in_raw nm dt dms vs)
  = Ok (pylist (map (if dt =? FLOAT then VFloat else VInt) vs)).
Proof.
  intros Hdt Hvs. rewrite Forall_forall in Hvs.
  destruct Hdt as [-> | ->].
  - change (extract_seq (in_raw nm FLOAT dms vs))
      with (let* l := iter_unpack fmt_f
                        (concat (map (le_split (calcsize fmt_f)) vs)) in
            Ok (pylist l)).
    rewrite (iter_unpack_packed fmt_f vs VFloat); [reflexivity |].
    intros v Hv. apply unpack_split_f. apply (Hvs v Hv).
  - change (extract_seq (in_raw nm INT64 dms vs))
      with (let* l := iter_unpack fmt_q
                        (concat (map (le_split (calcsize fmt_q)) vs)) in
            Ok (pylist l)).
    rewrite (iter_unpack_packed fmt_q vs VInt); [reflexivity |].
    intros v Hv. apply unpack_split_q. apply (Hvs v Hv).
Qed.

Lemma np_reshape_same_vals (s1 s2 : sequence) (ds : list Z) :
  seq_vals s1 = seq_vals s2 ->
  match np_reshape s1 ds, np_reshape s2 ds with
  | Ok a, Ok b =>
      arr_shape a = arr_shape b /\ arr_data a = arr_data b /\
      (dtype_of s1 = dtype_of s2 -> a = b)
  | Raise e1, Raise e2 => e1 = e2
  | _, _ => False
  end.
Proof.
  intros Hv. unfold np_reshape. rewrite Hv.
  destruct ((NPY_MAXDIMS <? length ds)%nat || _); [reflexivity |].
  destruct (checked_size 1 ds) as [known|]; [| reflexivity].
  destruct (unknown_dims ds) as [|[|k]]; [| | reflexivity].
  - destruct (_ =? known); [| reflexivity]. simpl.
    repeat split. by intros ->.
  - destruct ((known =? 0) || _); [reflexivity |]. simpl.
    repeat split. by intros ->.
Qed.

(** C5. A logical tensor of data type FLOAT or INT64 decodes to the same
    numbers whether its elements are stored in the repeated field of its data
    type (the float sequence for FLOAT, the int64 sequence for INT64) or in
    the raw buffer, unpacked item after item (4 bytes per FLOAT, 8 per
    INT64): the same exception, the same scalar, or arrays of the same shape
    with the same elements. For INT64 the two results are equal altogether;
    for FLOAT only the element type of the array differs (float32 from the
    field, float64 from the buffer). *)
Theorem extract_data_encodings (nm : string) (dt : Z) (dms vs : list Z) :
  dt = FLOAT \/ dt = INT64 ->
  Forall (storable dt) vs ->
  same_numbers (extract_data (in_raw nm dt dms vs))
               (extract_data (in_field nm dt dms vs)) /\
  (dt = INT64 ->
   extract_data (in_raw nm dt dms vs) = extract_data (in_field nm dt dms vs)).
Proof.
  intros Hdt Hvs. unfold extract_data.
  rewrite (extract_seq_in_raw nm dt dms vs Hdt Hvs).
  destruct (extract_seq_in_field nm dt dms vs Hdt) as (s & -> & Hs & Ht).
  cbn [bind seq_vals]. rewrite Hs.
  replace (dims (in_raw nm dt dms vs)) with dms by reflexivity.
  replace (dims (in_field nm dt dms vs)) with dms
    by (unfold in_field; destruct (dt =? FLOAT); reflexivity).
  set (vals := map (if dt =? FLOAT then VFloat else VInt) vs) in *.
  destruct (length dms =? 0)%nat.
  - destruct vals as [|x [|y l]]; simpl; auto.
  - pose proof (np_reshape_same_vals (pylist vals) s dms (eq_sym Hs)) as H.
    destruct (np_reshape (pylist vals) dms) as [a|e1],
             (np_reshape s dms) as [b|e2]; simpl; try contradiction.
    + destruct H as (H1 & H2 & H3). split; [auto |].
      intros Hi. rewrite H3; [reflexivity |].
      rewrite (Ht Hi), Hs. reflexivity.
    + subst e2. auto.
Qed.

Lemma extract_data_encodings_witness :
  same_numbers
    (extract_data (in_raw "w" FLOAT [2] [1092616192; 1145315328]))
    (extract_data (in_field "w" FLOAT [2] [1092616192; 1145315328])) /\
  extract_data (in_raw "shape0" INT64 [2] [10; -1])
  = extract_data (in_field "shape0" INT64 [2] [10; -1]).
Proof.
  split.
  - apply (extract_data_encodings "w" FLOAT [2] [1092616192; 1145315328]).
    + left. reflexivity.
    + repeat constructor; unfold storable; simpl; lia.
  - apply (extract_data_encodings "shape0" INT64 [2] [10; -1]).
    + right. reflexivity.
    + repeat constructor; unfold storable; simpl; lia.
    + reflexivity.
Defined.

Example float_field_and_buffer :
  extract_data (in_field "w" FLOAT [2] [1092616192; 1145315328])
  = Ok (Array (mkArray float32 [2] [VFloat 1092616192; VFloat 1145315328])) /\
  extract_data (in_raw "w" FLOAT [2] [1092616192; 1145315328])
  = Ok (Array (mkArray float64 [2] [VFloat 1092616192; VFloat 1145315328])).
Proof. split; reflexivity. Qed.

(** * Properties of [find_tensor_value_info] *)

Lemma substring_whole (s : string) : String.substring 0 (String.length s) s = s.
Proof. induction s as [|c s IH]; simpl; [reflexivity | by rewrite IH]. Qed.

Lemma substring_prefix_app (p s : string) :
  String.substring 0 (String.length p) (p +:+ s) = p.
Proof.
  induction p as [|c p IH]; simpl.
  - destruct s; reflexivity.
  - by rewrite IH.
Qed.

Lemma substring_suffix_app (p s : string) :
  String.substring (String.length p) (String.length s) (p +:+ s) = s.
Proof. induction p as [|c p IH]; simpl; [apply substring_whole | exact IH]. Qed.

Lemma string_length_app (p s : string) :
  String.length (p +:+ s) = (String.length p + String.length s)%nat.
Proof. induction p as [|c p IH]; simpl; [reflexivity | by rewrite IH]. Qed.

Lemma substring_split (s : string) (k : nat) :
  (k <= String.length s)%nat ->
  s = String.substring 0 k s
      +:+ String.substring k (String.length s - k) s.
Proof.
  revert k. induction s as [|c s IH]; intros k Hk; simpl in *.
  - destruct k; [reflexivity | lia].
  - destruct k as [|k]; simpl.
    + by rewrite substring_whole.
    + change (String c s = String c (String.substring 0 k s
                 +:+ String.substring k (String.length s - k) s)).
      f_equal. apply IH. lia.
Qed.

Lemma endswith_iff (s suffix : string) :
  endswith s suffix = true <-> exists p, s = p +:+ suffix.
Proof.
  unfold endswith. rewrite andb_true_iff, Nat.leb_le, String.eqb_eq. split.
  - intros [Hle Hsub].
    exists (String.substring 0 (String.length s - String.length suffix) s).
    pose proof (substring_split s (String.length s - String.length suffix))
      as E.
    replace (String.length s - (String.length s - String.length suffix))%nat
      with (String.length suffix) in E by lia.
    rewrite Hsub in E. apply E. lia.
  - intros [p ->]. rewrite string_length_app. split; [lia |].
    replace (String.length p + String.length suffix - String.length suffix)%nat
      with (String.length p) by lia.
    apply substring_suffix_app.
Qed.

Lemma drop_last_app (p suffix : string) :
  drop_last (String.length suffix) (p +:+ suffix) = p.
Proof.
  unfold drop_last. rewrite string_length_app.
  replace (String.length p + String.length suffix - String.length suffix)%nat
    with (String.length p) by lia.
  apply substring_prefix_app.
Qed.

Lemma first_value_info_Some (l : list ValueInfoProto) (nm : string) v :
  first_value_info l nm = Some v <->
  exists before after,
    l = before ++ v :: after /\ vi_name v = nm /\
    Forall (fun u => vi_name u <> nm) before.
Proof.
  induction l as [|u l IH]; simpl.
  - split; [discriminate |]. intros (before & after & H & _).
    destruct before; discriminate.
  - destruct (String.eqb_spec (vi_name u) nm) as [Heq | Hne].
    + split.
      * intros [= ->]. exists [], l. auto.
      * intros ([|w before] & after & H & Hv & Hall).
        -- simpl in H. congruence.
        -- simpl in H. injection H as <- _. inversion Hall. contradiction.
    + rewrite IH. split.
      * intros (before & after & -> & Hv & Hall).
        exists (u :: before), after. auto.
      * intros ([|w before] & after & H & Hv & Hall); simpl in H.
        -- congruence.
        -- injection H as <- ->. inversion Hall. eauto.
Qed.

Lemma first_value_info_None (l : list ValueInfoProto) (nm : string) :
  first_value_info l nm = None <-> Forall (fun u => vi_name u <> nm) l.
Proof.
  induction l as [|u l IH]; simpl.
  - split; auto.
  - destruct (String.eqb_spec (vi_name u) nm) as [Heq | Hne].
    + split; [discriminate |]. inversion 1. contradiction.
    + rewrite IH. split; [auto |]. by inversion 1.
Qed.

(** C9. [find_tensor_value_info] searches for a target name: the queried
    name without its "_before_merge" suffix when it ends with it, the queried
    name otherwise. It returns the first record of that name in value_info,
    then the graph inputs, then the graph outputs, and raises the not-found
    error exactly when none of the three collections has such a record. *)
Theorem find_tensor_value_info_spec (onnx_model : ModelProto) (nm : string) :
  let g := graph onnx_model in
  exists target,
    (forall p, nm = p +:+ "_before_merge" -> target = p) /\
    ((forall p, nm <> p +:+ "_before_merge") -> target = nm) /\
    (forall v, find_tensor_value_info onnx_model nm = Ok v <->
       exists before after,
         value_info g ++ g_input g ++ g_output g = before ++ v :: after /\
         vi_name v = target /\
         Forall (fun u => vi_name u <> target) before) /\
    (forall e, find_tensor_value_info onnx_model nm = Raise e <->
       e = NoValueInfo target /\
       Forall (fun u => vi_name u <> target) (value_info g) /\
       Forall (fun u => vi_name u <> target) (g_input g) /\
       Forall (fun u => vi_name u <> target) (g_output g)).
Proof.
  intros g. unfold find_tensor_value_info. fold g.
  set (target := if endswith nm before_merge
                 then drop_last (String.length before_merge) nm else nm).
  exists target. split; [| split; [| split]].
  - intros p ->. subst target.
    replace (endswith (p +:+ "_before_merge") before_merge) with true
      by (symmetry; apply endswith_iff; eauto).
    apply (drop_last_app p before_merge).
  - intros Hno. subst target.
    destruct (endswith nm before_merge) eqn:E; [| reflexivity].
    apply endswith_iff in E as [p Hp]. destruct (Hno p Hp).
  - intros v. fold (chain g). rewrite <- first_value_info_Some.
    destruct (first_value_info (chain g) target); split; congruence.
  - intros e. destruct (first_value_info (chain g) target) eqn:E.
    + split; [discriminate |]. intros (_ & H1 & H2 & H3). exfalso.
      assert (E' : first_value_info (chain g) target = None).
      { apply first_value_info_None. unfold chain. rewrite !Forall_app. auto. }
      congruence.
    + apply first_value_info_None in E. unfold chain in E.
      rewrite !Forall_app in E.
      split; [intros [= <-]; tauto | intros [-> _]; reflexivity].
Qed.

(** * The first loop of [change_batch_size] *)

Lemma elem_of_initializer_names (m : ModelProto) (nm : string) :
  nm ∈ (list_to_set (map name (initializer (graph m))) : gset string)
  <-> is_initializer_name m nm.
Proof.
  rewrite elem_of_list_to_set, list_elem_of_In, in_map_iff.
  unfold is_initializer_name.
  split; intros (t & H1 & H2); exists t; rewrite list_elem_of_In in *; auto.
Qed.

Lemma constant_outputs_elem (nodes : list NodeProto) (cs : list string) :
  constant_outputs nodes = Ok cs ->
  forall nm, nm ∈ cs <->
    exists n, n ∈ nodes /\ op_type n = "Constant"
              /\ output n !! 0%nat = Some nm.
Proof.
  revert cs. induction nodes as [|n nodes IH]; intros cs H nm; simpl in H.
  - injection H as <-. split.
    + intros Hin. inversion Hin.
    + intros (n & Hin & _). inversion Hin.
  - destruct (String.eqb_spec (op_type n) "Constant") as [Hop | Hop].
    + destruct (output n !! 0%nat) as [o|] eqn:Ho; [| discriminate].
      apply bind_ok in H as (os & Hos & [= <-]).
      rewrite elem_of_cons, (IH os Hos nm). split.
      * intros [-> | (n' & Hin & H1 & H2)].
        -- exists n. split; [left | auto].
        -- exists n'. split; [by right | auto].
      * intros (n' & Hin & H1 & H2). apply elem_of_cons in Hin as [-> | Hin].
        -- left. congruence.
        -- right. eauto.
    + rewrite (IH cs H nm). split.
      * intros (n' & Hin & H1 & H2). exists n'. split; [by right | auto].
      * intros (n' & Hin & H1 & H2). apply elem_of_cons in Hin as [-> | Hin].
        -- contradiction.
        -- eauto.
Qed.

Lemma rewrite_value_info_ok (m : ModelProto) (cs : list string)
    (bs : batch_size) (v v' : ValueInfoProto) :
  constant_outputs (node (graph m)) = Ok cs ->
  rewrite_value_info (list_to_set (map name (initializer (graph m))))
    (list_to_set cs) bs v = Ok v' ->
  rewritten m bs v v'.
Proof.
  intros Hcs. unfold rewrite_value_info, rewritten, is_constant.
  rewrite <- elem_of_initializer_names.
  assert (Hc : vi_name v ∈ (list_to_set cs : gset string)
               <-> is_constant_name m (vi_name v)).
  { rewrite elem_of_list_to_set. apply (constant_outputs_elem _ _ Hcs). }
  rewrite <- Hc.
  destruct (bool_decide _) eqn:E1; simpl.
  { apply bool_decide_eq_true in E1. intros [= <-]. tauto. }
  apply bool_decide_eq_false in E1.
  destruct (bool_decide _) eqn:E2; simpl.
  { apply bool_decide_eq_true in E2. intros [= <-]. tauto. }
  apply bool_decide_eq_false in E2.
  intros H. split; [tauto | intros _].
  unfold with_token. destruct (shape_dim v) as [|d rest]; [congruence |].
  apply bind_ok in H as (d' & Hd & [= <-]).
  destruct bs as [s | n]; simpl in *.
  - by injection Hd as <-.
  - destruct (fits_int64 n); [by injection Hd as <- | discriminate].
Qed.

Lemma for_each_rel {A} (body : A -> result A) (l l' : list A) (o : option exn) :
  for_each body l = (o, l') ->
  Forall2 (fun x x' => x' = x \/ body x = Ok x') l l' /\
  (o = None -> Forall2 (fun x x' => body x = Ok x') l l').
Proof.
  revert l' o. induction l as [|x l IH]; intros l' o H; simpl in H.
  - injection H as <- <-. split; constructor.
  - destruct (body x) as [x'|e] eqn:E.
    + destruct (for_each body l) as [o1 rest'] eqn:E1.
      injection H as <- <-. destruct (IH _ _ eq_refl) as [IH1 IH2].
      split; [| intros Ho]; constructor; auto.
    + injection H as <- <-. split; [| discriminate].
      apply Forall2_same_length_lookup_2; [reflexivity |].
      intros i a a' Ha Ha'. left. congruence.
Qed.

Lemma is_constant_dec (m : ModelProto) (cs : list string) (v : ValueInfoProto) :
  constant_outputs (node (graph m)) = Ok cs ->
  is_constant m v \/ ~ is_constant m v.
Proof.
  intros Hcs. unfold is_constant.
  rewrite <- elem_of_initializer_names.
  assert (Hc : vi_name v ∈ (list_to_set cs : gset string)
               <-> is_constant_name m (vi_name v)).
  { rewrite elem_of_list_to_set. apply (constant_outputs_elem _ _ Hcs). }
  rewrite <- Hc.
  destruct (decide (vi_name v
      ∈ (list_to_set (map name (initializer (graph m))) : gset string)));
    [tauto |].
  destruct (decide (vi_name v ∈ (list_to_set cs : gset string))); tauto.
Qed.

Lemma visited_refl (m : ModelProto) (bs : batch_size) (l : list ValueInfoProto) :
  Forall2 (visited m bs) l l.
Proof. induction l; constructor; [by left | assumption]. Qed.

Lemma for_each_value_infos (m : ModelProto) (cs : list string)
    (bs : batch_size) (l l' : list ValueInfoProto) (o : option exn) :
  constant_outputs (node (graph m)) = Ok cs ->
  for_each (rewrite_value_info (list_to_set (map name (initializer (graph m))))
              (list_to_set cs) bs) l = (o, l') ->
  Forall2 (visited m bs) l l' /\
  (o = None -> Forall2 (rewritten m bs) l l').
Proof.
  intros Hcs H. apply for_each_rel in H as [H1 H2]. split.
  - eapply Forall2_impl; [exact H1 |]. intros v v' [-> | Hv]; [by left |].
    apply (rewrite_value_info_ok m cs bs v v' Hcs) in Hv as [Hc Hn].
    destruct (is_constant_dec m cs v Hcs) as [Hd | Hd].
    + left. auto.
    + right. auto.
  - intros Ho. eapply Forall2_impl; [exact (H2 Ho) |]. intros v v' Hv.
    exact (rewrite_value_info_ok m cs bs v v' Hcs Hv).
Qed.

Lemma rewrite_shapes_rel (bs : batch_size) (m m1 : ModelProto) (o : option exn) :
  rewrite_shapes bs m = (o, m1) ->
  node (graph m1) = node (graph m) /\
  initializer (graph m1) = initializer (graph m) /\
  (forall field, In field fields ->
     Forall2 (visited m bs) (field (graph m)) (field (graph m1))) /\
  (o = None -> forall field, In field fields ->
     Forall2 (rewritten m bs) (field (graph m)) (field (graph m1))).
Proof.
  unfold rewrite_shapes.
  destruct (constant_outputs (node (graph m))) as [cs|e] eqn:Hcs.
  2:{ intros [= <- <-]. repeat split; [| discriminate].
      intros field _. apply visited_refl. }
  destruct (for_each _ (value_info (graph m))) as [o1 vis] eqn:E1.
  apply (for_each_value_infos m cs bs _ _ _ Hcs) in E1 as [V1 R1].
  destruct o1 as [e1|].
  { intros [= <- <-]. repeat split; [| discriminate].
    intros field [<- | [<- | [<- | []]]]; simpl; auto using visited_refl. }
  destruct (for_each _ (g_input (graph m))) as [o2 ins] eqn:E2.
  apply (for_each_value_infos m cs bs _ _ _ Hcs) in E2 as [V2 R2].
  destruct o2 as [e2|].
  { intros [= <- <-]. repeat split; [| discriminate].
    intros field [<- | [<- | [<- | []]]]; simpl; auto using visited_refl. }
  destruct (for_each _ (g_output (graph m))) as [o3 outs] eqn:E3.
  apply (for_each_value_infos m cs bs _ _ _ Hcs) in E3 as [V3 R3].
  intros [= <- <-]. repeat split.
  - intros field [<- | [<- | [<- | []]]]; simpl; auto.
  - intros Ho field [<- | [<- | [<- | []]]]; simpl; auto.
Qed.

(** * Decoding, zeroing and re-encoding a target shape *)

Lemma known_size_nonneg (ds : list Z) : 0 <= known_size ds.
Proof.
  induction ds as [|d ds IH]; simpl; [lia |].
  destruct (Z.ltb_spec d 0); [exact IH | nia].
Qed.

Lemma infer_none (q : Z) (ds : list Z) :
  unknown_dims ds = O -> map (fun d => if d <? 0 then q else d) ds = ds.
Proof.
  induction ds as [|d ds IH]; simpl; [reflexivity |].
  destruct (d <? 0); [discriminate |]. intros H. by rewrite IH.
Qed.

Lemma infer_one (q : Z) (ds : list Z) :
  0 <= q -> unknown_dims ds = 1%nat ->
  let ds' := map (fun d => if d <? 0 then q else d) ds in
  unknown_dims ds' = O /\ known_size ds' = q * known_size ds.
Proof.
  intros Hq. induction ds as [|d ds IH]; simpl; [discriminate |].
  destruct (Z.ltb_spec d 0) as [Hd | Hd]; intros H.
  - injection H as H. rewrite (infer_none q ds H). simpl.
    destruct (Z.ltb_spec q 0); [lia |]. auto.
  - destruct (IH H) as [IH1 IH2]. simpl.
    destruct (Z.ltb_spec d 0); [lia |]. rewrite IH2. split; [assumption | lia].
Qed.

Lemma checked_size_known (ds : list Z) (acc p : Z) :
  checked_size acc ds = Some p -> p = acc * known_size ds.
Proof.
  revert acc. induction ds as [|d ds IH]; intros acc H; simpl in *.
  - injection H as <-. lia.
  - destruct (d <? 0); [by apply IH |].
    destruct (NPY_MAX_INTP <? acc * d); [discriminate |].
    apply IH in H. lia.
Qed.

Lemma checked_size_le (ds : list Z) (acc p : Z) :
  acc <= NPY_MAX_INTP -> checked_size acc ds = Some p -> p <= NPY_MAX_INTP.
Proof.
  revert acc. induction ds as [|d ds IH]; intros acc Hacc H; simpl in *.
  - injection H as <-. exact Hacc.
  - destruct (d <? 0); [by eapply IH |].
    destruct (Z.ltb_spec NPY_MAX_INTP (acc * d)); [discriminate |].
    by eapply IH.
Qed.

(** A shape that passes the overflow check still passes it with its first
    dimension scaled, as long as the whole product fits. *)
Lemma checked_size_scale (q : Z) (ds : list Z) (acc p : Z) :
  0 <= acc -> 0 <= q -> unknown_dims ds = O -> p <> 0 ->
  q * p <= NPY_MAX_INTP ->
  checked_size acc ds = Some p -> checked_size (acc * q) ds = Some (q * p).
Proof.
  revert acc. induction ds as [|d ds IH]; intros acc Hacc Hq Hu Hp Hfit H;
    simpl in *.
  - injection H as <-. f_equal. lia.
  - destruct (Z.ltb_spec d 0) as [|Hd]; [discriminate |].
    destruct (Z.ltb_spec NPY_MAX_INTP (acc * d)) as [|Hle]; [discriminate |].
    pose proof (checked_size_known _ _ _ H) as Hk.
    pose proof (known_size_nonneg ds) as Hnn.
    assert (H1 : 1 <= known_size ds) by nia.
    assert (H2 : 0 <= acc * d) by nia.
    assert (H3 : acc * d <= p) by nia.
    assert (H4 : q * (acc * d) <= q * p)
      by (apply Z.mul_le_mono_nonneg_l; assumption).
    replace (acc * q * d) with (acc * d * q) by lia.
    destruct (Z.ltb_spec NPY_MAX_INTP (acc * d * q)) as [Hgt|_]; [lia |].
    apply IH; assumption.
Qed.

Lemma checked_size_infer (q : Z) (ds : list Z) (acc p : Z) :
  0 <= acc -> 0 <= q -> unknown_dims ds = 1%nat -> p <> 0 ->
  q * p <= NPY_MAX_INTP ->
  checked_size acc ds = Some p ->
  checked_size acc (map (fun d => if d <? 0 then q else d) ds) = Some (q * p).
Proof.
  revert acc. induction ds as [|d ds IH]; intros acc Hacc Hq Hu Hp Hfit H;
    simpl in *; [discriminate |].
  destruct (Z.ltb_spec d 0) as [Hd | Hd].
  - injection Hu as Hu. rewrite (infer_none q ds Hu). simpl.
    destruct (Z.ltb_spec q 0); [lia |].
    pose proof (checked_size_known _ _ _ H) as Hk.
    pose proof (known_size_nonneg ds) as Hnn.
    assert (H1 : 1 <= known_size ds) by nia.
    assert (H3 : acc <= p) by nia.
    assert (H4 : q * acc <= q * p)
      by (apply Z.mul_le_mono_nonneg_l; assumption).
    destruct (Z.ltb_spec NPY_MAX_INTP (acc * q)) as [Hgt|_]; [lia |].
    apply checked_size_scale; assumption.
  - simpl. destruct (Z.ltb_spec d 0) as [|_]; [lia |].
    destruct (Z.ltb_spec NPY_MAX_INTP (acc * d)) as [|Hle]; [discriminate |].
    apply IH; try assumption. nia.
Qed.

Lemma np_reshape_ok (ret : sequence) (ds : list Z) (a : ndarray) :
  np_reshape ret ds = Ok a ->
  arr_data a = seq_vals ret /\ arr_dtype a = dtype_of ret /\
  unknown_dims (arr_shape a) = O /\
  known_size (arr_shape a) = Z.of_nat (length (seq_vals ret)) /\
  length (arr_shape a) = length ds /\
  (length ds <= NPY_MAXDIMS)%nat /\
  checked_size 1 (arr_shape a) = Some (Z.of_nat (length (seq_vals ret))).
Proof.
  unfold np_reshape.
  destruct (Nat.ltb_spec NPY_MAXDIMS (length ds)) as [|Hnd]; [discriminate |].
  destruct (Z.ltb_spec NPY_MAX_INTP (Z.of_nat (length (seq_vals ret))))
    as [|Hsz]; [discriminate |].
  cbn [orb].
  destruct (checked_size 1 ds) as [known|] eqn:Hc; [| discriminate].
  pose proof (checked_size_known _ _ _ Hc) as Hk. rewrite Z.mul_1_l in Hk.
  destruct (unknown_dims ds) as [|[|k]] eqn:U.
  - destruct (Z.eqb_spec (Z.of_nat (length (seq_vals ret))) known) as [E|];
      [| discriminate].
    intros [= <-]; simpl. rewrite E. repeat split; auto; lia.
  - destruct (Z.eqb_spec known 0) as [|Hk0]; [discriminate |]. simpl.
    destruct (Z.eqb_spec (Z.of_nat (length (seq_vals ret)) mod known) 0)
      as [Hm|]; [| discriminate].
    intros [= <-]; simpl.
    pose proof (known_size_nonneg ds) as Hnn.
    assert (Hq : 0 <= Z.of_nat (length (seq_vals ret)) / known)
      by (apply Z.div_pos; lia).
    assert (Hex : Z.of_nat (length (seq_vals ret))
                  = Z.of_nat (length (seq_vals ret)) / known * known).
    { rewrite Z.mul_comm. apply Z.div_exact; [lia | exact Hm]. }
    destruct (infer_one _ ds Hq U) as [H1 H2].
    rewrite length_map. repeat split; [exact H1 | | exact Hnd |].
    + rewrite H2, <- Hk. symmetry. exact Hex.
    + rewrite (checked_size_infer _ ds 1 known); try assumption; try lia.
      f_equal. lia.
  - discriminate.
Qed.

Lemma prod_dims_known (s : list Z) :
  unknown_dims s = O -> prod_dims s = known_size s.
Proof.
  induction s as [|d s IH]; simpl; [reflexivity |].
  destruct (d <? 0); [discriminate |]. intros H.
  unfold prod_dims in *. simpl. by rewrite IH.
Qed.

Lemma checked_size_prod (s : list Z) (p : Z) :
  unknown_dims s = O -> checked_size 1 s = Some p -> prod_dims s = p.
Proof.
  intros Hu H. apply checked_size_known in H.
  rewrite (prod_dims_known _ Hu). lia.
Qed.

Lemma to_int64_zero (t : np_dtype) : to_int64 (zero_of t) = 0.
Proof. destruct t; reflexivity. Qed.

Lemma as_int64_field_ints (zs : list Z) : as_int64_field (map VInt zs) = zs.
Proof.
  unfold as_int64_field. rewrite map_map. simpl. apply map_id.
Qed.

Lemma as_int64_field_zeroed (t : np_dtype) (k : nat) (tl : list pyval) :
  as_int64_field (replicate k (zero_of t) ++ tl)
  = replicate k 0 ++ map to_int64 tl.
Proof.
  unfold as_int64_field. rewrite map_app. f_equal.
  induction k as [|k IH]; simpl; [reflexivity |].
  by rewrite to_int64_zero, IH.
Qed.

Lemma extract_data_array (t : TensorProto) (a : ndarray) :
  extract_data t = Ok (Array a) ->
  exists ret, extract_seq t = Ok ret /\ dims t <> [] /\
              np_reshape ret (dims t) = Ok a.
Proof.
  unfold extract_data. intros H. apply bind_ok in H as (ret & Hret & H).
  exists ret. split; [exact Hret |].
  destruct (dims t) as [|d ds]; simpl in H.
  - destruct (seq_vals ret) as [|x [|y l]]; discriminate.
  - apply bind_ok in H as (a' & Ha & [= <-]). auto.
Qed.

Lemma make_tensor_ok (nm : string) (dms : list Z) (vals : ndarray)
    (t : TensorProto) :
  make_tensor_INT64 nm dms vals = Ok t ->
  Z.of_nat (length (arr_data vals)) = prod_dims dms /\
  t = mkTensor nm INT64 dms [] (as_int64_field (arr_data vals)) [].
Proof.
  unfold make_tensor_INT64.
  destruct (Z.eqb_spec (Z.of_nat (length (arr_data vals))) (prod_dims dms))
    as [Hlen|]; [| discriminate].
  intros [= <-]. auto.
Qed.

(** What a successful patch of a target shape amounts to: the first slab of
    the decoded array is zero, the other elements are those of the array
    converted to int64. *)
Lemma patched_inv (t t' : TensorProto) :
  patched t = Ok t' ->
  exists a zs d0 rest,
    extract_data t = Ok (Array a) /\
    arr_shape a = d0 :: rest /\ 0 < d0 /\
    unknown_dims (arr_shape a) = O /\
    (length (arr_shape a) <= NPY_MAXDIMS)%nat /\
    checked_size 1 (arr_shape a) = Some (Z.of_nat (length zs)) /\
    Z.of_nat (length zs) = prod_dims (arr_shape a) /\
    length (arr_data a) = length zs /\
    zs = replicate (Z.to_nat (prod_dims rest)) 0
         ++ map to_int64 (drop (Z.to_nat (prod_dims rest)) (arr_data a)) /\
    t' = mkTensor (name t) INT64 (arr_shape a) [] zs [].
Proof.
  unfold patched. intros H.
  apply bind_ok in H as (v & Hv & H). apply bind_ok in H as (a' & Ha' & H).
  destruct v as [x | a]; [discriminate |]. simpl in Ha'.
  destruct (arr_shape a) as [|d0 rest] eqn:Hs; [discriminate |].
  destruct (Z.leb_spec d0 0) as [|Hd0]; [discriminate |].
  injection Ha' as <-.
  apply make_tensor_ok in H as (Hlen & ->).
  cbn [arr_data arr_shape arr_dtype] in Hlen |- *.
  destruct (extract_data_array t a Hv) as (ret & _ & _ & Hr).
  apply np_reshape_ok in Hr as (Hdata & _ & Hu & Hk & Hl & Hnd & Hc).
  rewrite Hs in Hu, Hk, Hl, Hc.
  rewrite as_int64_field_zeroed.
  set (zs := replicate (Z.to_nat (prod_dims rest)) 0
             ++ map to_int64 (drop (Z.to_nat (prod_dims rest)) (arr_data a))).
  assert (Hzlen : Z.of_nat (length zs) = prod_dims (d0 :: rest)).
  { rewrite <- Hlen. subst zs.
    rewrite !length_app, !length_replicate, length_map. reflexivity. }
  assert (Hsame : Z.of_nat (length zs) = Z.of_nat (length (arr_data a))).
  { rewrite Hzlen, (prod_dims_known _ Hu), Hk, Hdata. reflexivity. }
  exists a, zs, d0, rest. rewrite Hs.
  repeat split; try assumption.
  - lia.
  - rewrite Hsame, Hdata. exact Hc.
  - lia.
Qed.

Lemma np_reshape_exact (ret : sequence) (s : list Z) :
  (length s <= NPY_MAXDIMS)%nat -> unknown_dims s = O ->
  checked_size 1 s = Some (Z.of_nat (length (seq_vals ret))) ->
  np_reshape ret s = Ok (mkArray (dtype_of ret) s (seq_vals ret)).
Proof.
  intros Hnd Hu Hc. unfold np_reshape.
  destruct (Nat.ltb_spec NPY_MAXDIMS (length s)) as [|_]; [lia |].
  assert (Hle : Z.of_nat (length (seq_vals ret)) <= NPY_MAX_INTP).
  { apply (checked_size_le s 1); [vm_compute; discriminate | exact Hc]. }
  destruct (Z.ltb_spec NPY_MAX_INTP (Z.of_nat (length (seq_vals ret))))
    as [|_]; [lia |].
  cbn [orb]. rewrite Hc, Hu, Z.eqb_refl. reflexivity.
Qed.

(** How a record built by a patch is read back: from the int64 field, or, when
    it holds no element, from the empty buffer. *)
Lemma extract_seq_fresh (nm : string) (s zs : list Z) :
  exists ret,
    extract_seq (mkTensor nm INT64 s [] zs []) = Ok ret /\
    seq_vals ret = map VInt zs /\
    (zs <> [] -> dtype_of ret = int64).
Proof.
  destruct zs as [|z zs].
  - exists (pylist []). repeat split. intros H. by destruct H.
  - exists (container int64 (map VInt (z :: zs))). repeat split.
Qed.

Lemma map_replicate {A B} (f : A -> B) (k : nat) (x : A) :
  map f (replicate k x) = replicate k (f x).
Proof. induction k as [|k IH]; simpl; [reflexivity | by rewrite IH]. Qed.

(** A record built by a patch is a fixed point of the patch. *)
Lemma patched_fresh (nm : string) (zs : list Z) (d0 : Z) (rest : list Z)
    (tl : list Z) :
  0 < d0 -> unknown_dims (d0 :: rest) = O ->
  (length (d0 :: rest) <= NPY_MAXDIMS)%nat ->
  checked_size 1 (d0 :: rest) = Some (Z.of_nat (length zs)) ->
  zs = replicate (Z.to_nat (prod_dims rest)) 0 ++ tl ->
  patched (mkTensor nm INT64 (d0 :: rest) [] zs [])
  = Ok (mkTensor nm INT64 (d0 :: rest) [] zs []).
Proof.
  intros Hd0 Hu Hnd Hc Hzs.
  destruct (extract_seq_fresh nm (d0 :: rest) zs) as (ret & Hret & Hvals & Hdt).
  unfold patched, extract_data. rewrite Hret. cbn [bind dims length Nat.eqb].
  rewrite np_reshape_exact;
    [| exact Hnd | exact Hu | by rewrite Hvals, length_map].
  cbn [bind setitem0 arr_shape arr_dtype arr_data].
  destruct (Z.leb_spec d0 0) as [|_]; [lia |]. cbn [bind arr_shape].
  assert (E : replicate (Z.to_nat (prod_dims rest)) (zero_of (dtype_of ret))
              ++ drop (Z.to_nat (prod_dims rest)) (seq_vals ret)
              = map VInt zs).
  { rewrite Hvals.
    destruct (Z.to_nat (prod_dims rest)) as [|k] eqn:Ek; [reflexivity |].
    rewrite Hdt by (rewrite Hzs; discriminate).
    rewrite Hzs at 1 2. rewrite map_app, map_replicate.
    rewrite drop_app_length' by (by rewrite length_replicate).
    reflexivity. }
  rewrite E. unfold make_tensor_INT64. cbn [arr_data].
  rewrite length_map, (checked_size_prod _ _ Hu Hc), Z.eqb_refl.
  rewrite as_int64_field_ints. reflexivity.
Qed.

Lemma patched_name (t t' : TensorProto) : patched t = Ok t' -> name t' = name t.
Proof.
  intros H. apply patched_inv in H as (a & zs & d0 & rest & H).
  destruct H as (_ & _ & _ & _ & _ & _ & _ & _ & _ & ->). reflexivity.
Qed.

Lemma patched_idem (t t' : TensorProto) : patched t = Ok t' -> patched t' = Ok t'.
Proof.
  intros H. apply patched_inv in H as (a & zs & d0 & rest & H).
  destruct H as (_ & Hs & Hd0 & Hu & Hnd & Hc & _ & _ & Hzs & ->).
  rewrite Hs in *. by eapply patched_fresh.
Qed.

(** The patch never fails on a well-formed target shape: an INT64 vector of
    at least one element held in the int64 field (and of a length that an
    array can have). *)
Lemma patched_vector (nm : string) (z : Z) (zs : list Z) (n : Z) :
  n = Z.of_nat (S (length zs)) -> n <= NPY_MAX_INTP ->
  patched (mkTensor nm INT64 [n] [] (z :: zs) [])
  = Ok (mkTensor nm INT64 [n] [] (0 :: zs) []).
Proof.
  intros Hn Hfit. unfold patched, extract_data.
  change (extract_seq (mkTensor nm INT64 [n] [] (z :: zs) []))
    with (Ok (container int64 (map VInt (z :: zs)))).
  cbn [bind dims length Nat.eqb].
  assert (Hu : unknown_dims [n] = O).
  { cbn [unknown_dims]. destruct (Z.ltb_spec n 0); [lia | reflexivity]. }
  assert (Hc : checked_size 1 [n] = Some n).
  { cbn [checked_size]. destruct (Z.ltb_spec n 0); [lia |].
    rewrite Z.mul_1_l. destruct (Z.ltb_spec NPY_MAX_INTP n); [lia |].
    reflexivity. }
  rewrite np_reshape_exact;
    [| unfold NPY_MAXDIMS; cbn [length]; lia | exact Hu
     | rewrite Hc; cbn [seq_vals]; rewrite length_map; cbn [length];
       f_equal; lia].
  cbn [bind setitem0 arr_shape arr_dtype arr_data].
  destruct (Z.leb_spec n 0) as [|_]; [lia |].
  change (Z.to_nat (prod_dims [])) with 1%nat.
  cbn [bind arr_shape seq_vals map dtype_of zero_of replicate drop app].
  unfold make_tensor_INT64. cbn [arr_data length].
  rewrite drop_0.
  replace (Z.of_nat (S (length (map VInt zs)))) with (prod_dims [n])
    by (unfold prod_dims; cbn [fold_right]; rewrite length_map; lia).
  rewrite Z.eqb_refl.
  change (VInt 0 :: map VInt zs) with (map VInt (0 :: zs)).
  rewrite as_int64_field_ints. reflexivity.
Qed.

(** * The initializer list under [CopyFrom] *)

Lemma first_tensor_name (l : list TensorProto) (nm : string) (t : TensorProto) :
  first_tensor l nm = Some t -> name t = nm.
Proof.
  induction l as [|x l IH]; simpl; [discriminate |].
  destruct (String.eqb_spec (name x) nm); [intros [= <-]; assumption | exact IH].
Qed.

Lemma first_tensor_elem (l : list TensorProto) (nm : string) (t : TensorProto) :
  first_tensor l nm = Some t -> t ∈ l.
Proof.
  induction l as [|x l IH]; simpl; [discriminate |].
  destruct (String.eqb (name x) nm).
  - intros [= <-]. left.
  - intros H. right. auto.
Qed.

Lemma first_tensor_None (l : list TensorProto) (nm : string) :
  first_tensor l nm = None <-> ~ exists t, t ∈ l /\ name t = nm.
Proof.
  induction l as [|x l IH]; simpl.
  - split; [| reflexivity]. intros _ (t & Hin & _). inversion Hin.
  - destruct (String.eqb_spec (name x) nm) as [Heq | Hne].
    + split; [discriminate |]. intros H. destruct H. exists x. split; [left | assumption].
    + rewrite IH. split.
      * intros H (t & Hin & Ht). apply elem_of_cons in Hin as [-> | Hin]; eauto.
      * intros H (t & Hin & Ht). apply H. exists t. split; [by right | assumption].
Qed.

Lemma copy_from_names (l : list TensorProto) (nm : string) (t : TensorProto) :
  name t = nm -> map name (copy_from l nm t) = map name l.
Proof.
  intros Ht. induction l as [|x l IH]; simpl; [reflexivity |].
  destruct (String.eqb_spec (name x) nm); simpl; congruence.
Qed.

Lemma first_tensor_copy_same (l : list TensorProto) (nm : string)
    (t0 t : TensorProto) :
  first_tensor l nm = Some t0 -> name t = nm ->
  first_tensor (copy_from l nm t) nm = Some t.
Proof.
  intros H Ht. induction l as [|x l IH]; simpl in *; [discriminate |].
  destruct (String.eqb_spec (name x) nm) as [Heq | Hne]; simpl.
  - rewrite Ht, String.eqb_refl. reflexivity.
  - destruct (String.eqb_spec (name x) nm); [contradiction | auto].
Qed.

Lemma first_tensor_copy_other (l : list TensorProto) (nm nm' : string)
    (t : TensorProto) :
  name t = nm -> nm' <> nm ->
  first_tensor (copy_from l nm t) nm' = first_tensor l nm'.
Proof.
  intros Ht Hne. induction l as [|x l IH]; simpl; [reflexivity |].
  destruct (String.eqb_spec (name x) nm) as [Heq | Hne']; simpl.
  - rewrite Ht.
    destruct (String.eqb_spec nm nm'); [congruence |].
    destruct (String.eqb_spec (name x) nm'); [congruence | reflexivity].
  - rewrite IH. reflexivity.
Qed.

Lemma copy_from_id (l : list TensorProto) (nm : string) (t : TensorProto) :
  first_tensor l nm = Some t -> copy_from l nm t = l.
Proof.
  induction l as [|x l IH]; simpl; [reflexivity |].
  destruct (String.eqb (name x) nm).
  - by intros [= ->].
  - intros H. by rewrite IH.
Qed.

Lemma first_tensor_same_names (l l' : list TensorProto) (nm : string) :
  map name l = map name l' ->
  first_tensor l nm = None -> first_tensor l' nm = None.
Proof.
  revert l'. induction l as [|x l IH]; intros [|x' l'] H; simpl in *;
    try discriminate; [reflexivity |].
  injection H as Hx Hl. rewrite <- Hx.
  destruct (String.eqb (name x) nm); [discriminate | by apply IH].
Qed.

(** * The second loop of [change_batch_size] *)

Lemma same_but_initializer_refl (m : ModelProto) : same_but_initializer m m.
Proof. repeat split. Qed.

Lemma same_but_initializer_trans (m1 m2 m3 : ModelProto) :
  same_but_initializer m1 m2 -> same_but_initializer m2 m3 ->
  same_but_initializer m1 m3.
Proof. unfold same_but_initializer. intuition congruence. Qed.

Lemma find_initializer_None_same (m m' : ModelProto) (nm : string) :
  same_but_initializer m m' ->
  find_initializer m nm = None <-> find_initializer m' nm = None.
Proof.
  intros (_ & _ & _ & _ & Hn). unfold find_initializer.
  split; apply first_tensor_same_names; congruence.
Qed.

Lemma reshapes_into_same (m m' : ModelProto) (n : NodeProto) (target : string) :
  same_but_initializer m m' ->
  reshapes_into m n target <-> reshapes_into m' n target.
Proof.
  intros Hs. unfold reshapes_into.
  split; intros (Hop & data & H0 & Hd & H1); (split; [exact Hop |]);
    exists data; repeat split; try assumption;
    by apply (find_initializer_None_same m m' data Hs).
Qed.

Lemma skips_same (m m' : ModelProto) (n : NodeProto) :
  same_but_initializer m m' -> skips m n -> skips m' n.
Proof.
  intros Hs [H | [(data & H0 & Hd) | (target & Hr & Ht)]].
  - by left.
  - right; left. exists data. split; [exact H0 |].
    by rewrite <- (find_initializer_None_same m m' data Hs).
  - right; right. exists target.
    split; [by apply (reshapes_into_same m m' n target Hs) |].
    by apply (find_initializer_None_same m m' target Hs).
Qed.

Lemma reshape_step_skip (m : ModelProto) (n : NodeProto) :
  skips m n -> reshape_step m n = Ok m.
Proof.
  unfold reshape_step.
  intros [H | [(data & H0 & Hd) | (target & (Hop & data & H0 & Hd & H1) & Ht)]].
  - destruct (String.eqb_spec (op_type n) "Reshape"); [contradiction | reflexivity].
  - destruct (negb _); [reflexivity |]. rewrite H0.
    destruct (find_initializer m data); [reflexivity | contradiction].
  - destruct (negb _); [reflexivity |]. rewrite H0, Hd, H1, Ht. reflexivity.
Qed.

Lemma reshape_step_patch (m : ModelProto) (n : NodeProto) (target : string)
    (t0 : TensorProto) :
  reshapes_into m n target -> find_initializer m target = Some t0 ->
  reshape_step m n
  = let* t := patched t0 in
    Ok (with_initializer m (copy_from (initializer (graph m)) target t)).
Proof.
  intros (Hop & data & H0 & Hd & H1) Ht. unfold reshape_step.
  rewrite Hop, H0, Hd, H1, Ht. reflexivity.
Qed.

(** Every step that returns either skipped the node or patched its target. *)
Lemma reshape_step_cases (m m' : ModelProto) (n : NodeProto) :
  reshape_step m n = Ok m' ->
  (skips m n /\ m' = m) \/
  exists target t0 t1,
    reshapes_into m n target /\ find_initializer m target = Some t0 /\
    patched t0 = Ok t1 /\
    m' = with_initializer m (copy_from (initializer (graph m)) target t1).
Proof.
  unfold reshape_step.
  destruct (String.eqb_spec (op_type n) "Reshape") as [Hop | Hop]; simpl.
  2:{ intros [= <-]. left. split; [by left | reflexivity]. }
  destruct (input n !! 0%nat) as [data|] eqn:H0; [| discriminate].
  destruct (find_initializer m data) as [d|] eqn:Hd.
  { intros [= <-]. left. split; [| reflexivity]. right; left.
    exists data. split; [exact H0 | congruence]. }
  destruct (input n !! 1%nat) as [target|] eqn:H1; [| discriminate].
  assert (Hr : reshapes_into m n target).
  { split; [exact Hop |]. exists data. auto. }
  destruct (find_initializer m target) as [t0|] eqn:Ht.
  2:{ intros [= <-]. left. split; [| reflexivity]. right; right. eauto. }
  intros H. apply bind_ok in H as (t1 & Hp & [= <-]).
  right. exists target, t0, t1. auto.
Qed.

Lemma with_initializer_same (m : ModelProto) (target : string) (t : TensorProto) :
  name t = target ->
  same_but_initializer m
    (with_initializer m (copy_from (initializer (graph m)) target t)).
Proof.
  intros Ht. repeat split. simpl. by apply copy_from_names.
Qed.

Lemma with_initializer_id (m : ModelProto) :
  with_initializer m (initializer (graph m)) = m.
Proof. destruct m as [[]]. reflexivity. Qed.

Lemma reshape_step_rel (m m' : ModelProto) (n : NodeProto) :
  reshape_step m n = Ok m' ->
  same_but_initializer m m' /\ forall nm, patch_rel [n] m m' nm.
Proof.
  intros H. apply reshape_step_cases in H
    as [[_ ->] | (target & t0 & t1 & Hr & Ht & Hp & ->)].
  - split; [apply same_but_initializer_refl | by left].
  - pose proof (first_tensor_name _ _ _ Ht) as Hn0.
    pose proof (patched_name _ _ Hp) as Hn1.
    assert (Hn : name t1 = target) by congruence.
    split; [by apply with_initializer_same |].
    intros nm. destruct (decide (nm = target)) as [-> | Hne].
    + right. exists t0, t1. repeat split; try assumption.
      * unfold find_initializer. simpl. by eapply first_tensor_copy_same.
      * exists n. split; [left | assumption].
    + left. unfold find_initializer. simpl. by apply first_tensor_copy_other.
Qed.

Lemma patch_rel_trans (n : NodeProto) (ns : list NodeProto)
    (m m1 m' : ModelProto) (nm : string) :
  same_but_initializer m m1 ->
  patch_rel [n] m m1 nm -> patch_rel ns m1 m' nm ->
  patch_rel (n :: ns) m m' nm.
Proof.
  intros Hs [E1 | (t0 & t1 & H0 & Hp & H1 & n1 & Hin1 & Hr1)]
            [E2 | (t1' & t' & H1' & Hp' & H' & n2 & Hin2 & Hr2)].
  - left. congruence.
  - right. exists t1', t'. rewrite <- E1. repeat split; try assumption.
    exists n2. split; [by right |].
    by apply (reshapes_into_same m m1 n2 nm Hs).
  - right. exists t0, t1. rewrite E2. repeat split; try assumption.
    exists n1. split; [| assumption]. apply elem_of_cons.
    apply list_elem_of_singleton in Hin1. by left.
  - right. exists t0, t1.
    assert (t1' = t1) by congruence. subst t1'.
    assert (t' = t1).
    { apply patched_idem in Hp. congruence. }
    subst t'. repeat split; try assumption.
    exists n1. split; [| assumption]. apply elem_of_cons.
    apply list_elem_of_singleton in Hin1. by left.
Qed.

Lemma reshape_loop_rel (ns : list NodeProto) (m m' : ModelProto)
    (o : option exn) :
  reshape_loop ns m = (o, m') ->
  same_but_initializer m m' /\ forall nm, patch_rel ns m m' nm.
Proof.
  revert m. induction ns as [|n ns IH]; intros m H; simpl in H.
  - injection H as <- <-. split; [apply same_but_initializer_refl | by left].
  - destruct (reshape_step m n) as [m1|e] eqn:E.
    + apply reshape_step_rel in E as [Hs1 Hp1].
      apply IH in H as [Hs2 Hp2]. split.
      * by eapply same_but_initializer_trans.
      * intros nm. by eapply patch_rel_trans.
    + injection H as <- <-.
      split; [apply same_but_initializer_refl | by left].
Qed.

(** When the loop runs to its end, the target of every node it did not skip
    is left patched. *)
Lemma reshape_loop_forced (ns : list NodeProto) (m m' : ModelProto) :
  reshape_loop ns m = (None, m') ->
  forall n target t0,
    n ∈ ns -> reshapes_into m n target ->
    find_initializer m target = Some t0 ->
    exists t', patched t0 = Ok t' /\ find_initializer m' target = Some t'.
Proof.
  revert m. induction ns as [|n0 ns IH]; intros m H n target t0 Hin Hr Ht.
  - inversion Hin.
  - simpl in H. destruct (reshape_step m n0) as [m1|e] eqn:E; [| discriminate].
    pose proof (reshape_step_rel _ _ _ E) as [Hs1 Hp1].
    pose proof (reshape_loop_rel _ _ _ _ H) as [Hs2 Hp2].
    apply elem_of_cons in Hin as [-> | Hin].
    + rewrite (reshape_step_patch m n0 target t0 Hr Ht) in E.
      apply bind_ok in E as (t1 & Hp & [= <-]). exists t1. split; [exact Hp |].
      assert (H1 : find_initializer
                     (with_initializer m
                        (copy_from (initializer (graph m)) target t1)) target
                   = Some t1).
      { unfold find_initializer. simpl.
        eapply first_tensor_copy_same; [exact Ht |].
        rewrite (patched_name _ _ Hp). by eapply first_tensor_name. }
      destruct (Hp2 target) as [E2 | (t1' & t' & H1' & Hp' & H' & _)].
      * congruence.
      * assert (t1' = t1) by congruence. subst t1'.
        apply patched_idem in Hp. congruence.
    + apply (reshapes_into_same m m1 n target Hs1) in Hr.
      destruct (Hp1 target) as [E1 | (t0' & t1 & H0' & Hp & H1 & _)].
      * rewrite <- E1 in Ht. exact (IH m1 H n target t0 Hin Hr Ht).
      * assert (t0' = t0) by congruence. subst t0'.
        destruct (IH m1 H n target t1 Hin Hr H1) as (t' & Hp' & H').
        exists t1. split; [exact Hp |].
        apply patched_idem in Hp. congruence.
Qed.

(** When the loop runs to its end, every one of its steps leaves the final
    graph as it is. *)
Lemma reshape_loop_fixed (ns : list NodeProto) (m m' : ModelProto) :
  reshape_loop ns m = (None, m') ->
  forall n, n ∈ ns -> reshape_step m' n = Ok m'.
Proof.
  revert m. induction ns as [|n0 ns IH]; intros m H n Hin.
  - inversion Hin.
  - simpl in H. destruct (reshape_step m n0) as [m1|e] eqn:E; [| discriminate].
    apply elem_of_cons in Hin as [-> | Hin]; [| by eapply IH].
    pose proof (reshape_loop_rel _ _ _ _ H) as [Hs2 Hp2].
    pose proof (reshape_step_rel _ _ _ E) as [Hs1 _].
    apply reshape_step_cases in E
      as [[Hskip ->] | (target & t0 & t1 & Hr & Ht & Hp & ->)].
    + apply reshape_step_skip. by apply (skips_same m m' n0 Hs2).
    + set (m1 := with_initializer m
                   (copy_from (initializer (graph m)) target t1)) in *.
      assert (H1 : find_initializer m1 target = Some t1).
      { unfold find_initializer. simpl.
        eapply first_tensor_copy_same; [exact Ht |].
        rewrite (patched_name _ _ Hp). by eapply first_tensor_name. }
      assert (H' : find_initializer m' target = Some t1).
      { destruct (Hp2 target) as [E2 | (t1' & t' & H1' & Hp' & H' & _)].
        - congruence.
        - assert (t1' = t1) by congruence. subst t1'.
          apply patched_idem in Hp. congruence. }
      assert (Hr' : reshapes_into m' n0 target).
      { apply (reshapes_into_same m1 m' n0 target Hs2).
        by apply (reshapes_into_same m m1 n0 target Hs1). }
      rewrite (reshape_step_patch m' n0 target t1 Hr' H').
      rewrite (patched_idem _ _ Hp). cbn [bind].
      unfold find_initializer in H'. rewrite (copy_from_id _ _ _ H').
      by rewrite with_initializer_id.
Qed.

Lemma reshape_loop_again (ns : list NodeProto) (m : ModelProto) :
  (forall n, n ∈ ns -> reshape_step m n = Ok m) ->
  reshape_loop ns m = (None, m).
Proof.
  induction ns as [|n ns IH]; intros H; simpl; [reflexivity |].
  rewrite (H n) by left. apply IH. intros n' Hn'. apply H. by right.
Qed.

(** * The two loops together *)

Lemma mutate_inv (bs : batch_size) (m m' : ModelProto) (o : option exn) :
  mutate bs m = (o, m') ->
  exists o1 m1,
    rewrite_shapes bs m = (o1, m1) /\
    ((o1 <> None /\ o = o1 /\ m' = m1) \/
     (o1 = None /\ patch_reshapes bs m1 = (o, m'))).
Proof.
  unfold mutate. destruct (rewrite_shapes bs m) as [[e|] m1].
  - intros [= <- <-]. exists (Some e), m1. split; [reflexivity |]. left. auto.
  - intros H. exists None, m1. split; [reflexivity |]. right. auto.
Qed.

Lemma patch_reshapes_rel (bs : batch_size) (m m' : ModelProto) (o : option exn) :
  patch_reshapes bs m = (o, m') ->
  same_but_initializer m m' /\ forall nm, patch_rel (node (graph m)) m m' nm.
Proof.
  destruct bs as [tok | k]; simpl.
  - apply reshape_loop_rel.
  - intros [= <- <-]. split; [apply same_but_initializer_refl | by left].
Qed.

Lemma find_initializer_ext (m m1 : ModelProto) (nm : string) :
  initializer (graph m1) = initializer (graph m) ->
  find_initializer m1 nm = find_initializer m nm.
Proof. unfold find_initializer. by intros ->. Qed.

Lemma reshapes_into_ext (m m1 : ModelProto) (n : NodeProto) (target : string) :
  initializer (graph m1) = initializer (graph m) ->
  reshapes_into m1 n target <-> reshapes_into m n target.
Proof.
  intros Hi. unfold reshapes_into.
  split; intros (Hop & data & H0 & Hd & H1); (split; [exact Hop |]);
    exists data; repeat split; try assumption.
  - by rewrite <- (find_initializer_ext m m1 data Hi).
  - by rewrite (find_initializer_ext m m1 data Hi).
Qed.

Lemma mutate_spec (bs : batch_size) (m m' : ModelProto) (o : option exn) :
  mutate bs m = (o, m') ->
  node (graph m') = node (graph m) /\
  map name (initializer (graph m')) = map name (initializer (graph m)) /\
  (forall field, In field fields ->
     Forall2 (visited m bs) (field (graph m)) (field (graph m'))) /\
  (o = None -> forall field, In field fields ->
     Forall2 (rewritten m bs) (field (graph m)) (field (graph m'))) /\
  (forall nm, patch_rel (node (graph m)) m m' nm) /\
  (o = None -> forall tok, bs = batch_str tok ->
     forall n target t0,
       n ∈ node (graph m) -> reshapes_into m n target ->
       find_initializer m target = Some t0 ->
       exists t', patched t0 = Ok t' /\ find_initializer m' target = Some t').
Proof.
  intros H. apply mutate_inv in H as (o1 & m1 & H1 & H).
  apply rewrite_shapes_rel in H1 as (Hn & Hi & Hv & Hr).
  destruct H as [(Ho1 & -> & ->) | (-> & H2)].
  - repeat split; try assumption; try congruence.
    left. by apply find_initializer_ext.
  - pose proof (patch_reshapes_rel _ _ _ _ H2)
      as [(Hn' & Hvi & Hin & Hout & Hnames) Hp].
    assert (Hf : forall field, In field fields ->
                   field (graph m') = field (graph m1)).
    { intros field [<- | [<- | [<- | []]]]; assumption. }
    repeat split.
    + congruence.
    + congruence.
    + intros field Hfield. rewrite (Hf field Hfield). auto.
    + intros _ field Hfield. rewrite (Hf field Hfield). auto.
    + intros nm. destruct (Hp nm) as [E | (t0 & t' & H0 & Hpt & H' & n & Hin' & Hrn)].
      * left. by rewrite E, (find_initializer_ext m m1 nm Hi).
      * right. exists t0, t'.
        rewrite <- (find_initializer_ext m m1 nm Hi).
        repeat split; try assumption.
        exists n. rewrite <- Hn. split; [assumption |].
        by apply (reshapes_into_ext m m1 n nm Hi).
    + intros -> tok -> n target t0 Hin' Hrn Ht. simpl in H2.
      apply (reshape_loop_forced _ _ _ H2 n target t0).
      * by rewrite Hn.
      * by apply (reshapes_into_ext m m1 n target Hi).
      * by rewrite (find_initializer_ext m m1 target Hi).
Qed.

(** * Exceptions of the two loops *)

Lemma extract_seq_raise (t : TensorProto) (e : exn) :
  extract_seq t = Raise e ->
  (e = KeyError /\ data_type t <> FLOAT /\ data_type t <> INT64) \/
  e = StructError.
Proof.
  unfold extract_seq. intros H. repeat case_match; try discriminate.
  apply bind_raise in H as [H | (f & _ & H)].
  - left. by apply format_char_raise.
  - right. apply bind_raise in H as [H | (l & _ & H)]; [| discriminate].
    by apply iter_unpack_raise in H.
Qed.

Lemma extract_data_raise (t : TensorProto) (e : exn) :
  extract_data t = Raise e -> from_checker e = false.
Proof.
  unfold extract_data. intros H.
  apply bind_raise in H as [H | (ret & _ & H)].
  - apply extract_seq_raise in H as [[-> _] | ->]; reflexivity.
  - case_match.
    + destruct (seq_vals ret) as [|x [|y l]]; try discriminate;
        by injection H as <-.
    + apply bind_raise in H as [H | (a & _ & H)]; [| discriminate].
      apply np_reshape_raise in H as ->. reflexivity.
Qed.

Lemma patched_raise (t : TensorProto) (e : exn) :
  patched t = Raise e -> from_checker e = false.
Proof.
  unfold patched. intros H.
  apply bind_raise in H as [H | (v & _ & H)]; [by eapply extract_data_raise |].
  apply bind_raise in H as [H | (a & _ & H)].
  - destruct v as [x | a]; simpl in H; [by injection H as <- |].
    repeat case_match; try discriminate; by injection H as <-.
  - unfold make_tensor_INT64 in H. case_match; [discriminate |].
    by injection H as <-.
Qed.

Lemma reshape_step_raise (m : ModelProto) (n : NodeProto) (e : exn) :
  reshape_step m n = Raise e -> from_checker e = false.
Proof.
  unfold reshape_step. intros H.
  repeat case_match; try discriminate; try (by injection H as <-).
  apply bind_raise in H as [H | (? & _ & H)]; [| discriminate].
  by eapply patched_raise.
Qed.

Lemma reshape_loop_raise (ns : list NodeProto) (m m' : ModelProto) (e : exn) :
  reshape_loop ns m = (Some e, m') -> from_checker e = false.
Proof.
  revert m. induction ns as [|n ns IH]; intros m H; simpl in H; [discriminate |].
  destruct (reshape_step m n) as [m1|e1] eqn:E; [by eapply IH |].
  injection H as <- <-. by eapply reshape_step_raise.
Qed.

Lemma for_each_raise {A} (body : A -> result A) (l l' : list A) (e : exn) :
  for_each body l = (Some e, l') -> exists x, body x = Raise e.
Proof.
  revert l'. induction l as [|x l IH]; intros l' H; simpl in H; [discriminate |].
  destruct (body x) as [x'|e1] eqn:E.
  - destruct (for_each body l) as [o rest] eqn:E1. injection H as -> <-.
    by eapply IH.
  - injection H as <- <-. eauto.
Qed.

Lemma rewrite_value_info_raise I C bs v e :
  rewrite_value_info I C bs v = Raise e -> e = RangeError.
Proof.
  unfold rewrite_value_info. intros H.
  repeat case_match; try discriminate.
  apply bind_raise in H as [H | (d' & _ & H)]; [| discriminate].
  unfold set_dim in H. repeat case_match; congruence.
Qed.

Lemma constant_outputs_raise (nodes : list NodeProto) (e : exn) :
  constant_outputs nodes = Raise e -> e = IndexError.
Proof.
  induction nodes as [|n nodes IH]; simpl; [discriminate |].
  destruct (String.eqb (op_type n) "Constant"); [| exact IH].
  destruct (output n !! 0%nat); [| congruence].
  intros H. apply bind_raise in H as [H | (os & _ & H)]; [auto | discriminate].
Qed.

Lemma rewrite_shapes_raise (bs : batch_size) (m m' : ModelProto) (e : exn) :
  rewrite_shapes bs m = (Some e, m') -> from_checker e = false.
Proof.
  unfold rewrite_shapes.
  destruct (constant_outputs (node (graph m))) as [cs|e0] eqn:Hcs.
  2:{ intros [= <- <-]. apply constant_outputs_raise in Hcs as ->. reflexivity. }
  destruct (for_each _ (value_info (graph m))) as [[e1|] vis] eqn:E1.
  { intros [= <- <-]. apply for_each_raise in E1 as [x Hx].
    apply rewrite_value_info_raise in Hx as ->. reflexivity. }
  destruct (for_each _ (g_input (graph m))) as [[e2|] ins] eqn:E2.
  { intros [= <- <-]. apply for_each_raise in E2 as [x Hx].
    apply rewrite_value_info_raise in Hx as ->. reflexivity. }
  destruct (for_each _ (g_output (graph m))) as [o3 outs] eqn:E3.
  intros [= -> <-]. apply for_each_raise in E3 as [x Hx].
  apply rewrite_value_info_raise in Hx as ->. reflexivity.
Qed.

Lemma mutate_raise (bs : batch_size) (m m' : ModelProto) (e : exn) :
  mutate bs m = (Some e, m') -> from_checker e = false.
Proof.
  intros H. apply mutate_inv in H as (o1 & m1 & H1 & H).
  destruct H as [(_ & <- & ->) | (-> & H2)].
  - by eapply rewrite_shapes_raise.
  - destruct bs; simpl in H2; [by eapply reshape_loop_raise | discriminate].
Qed.

(** * Properties of [change_batch_size] *)

Lemma change_batch_size_inv (infer_shapes : ModelProto -> option string)
    (m m' : ModelProto) (bs : batch_size) (o : option exn) :
  change_batch_size infer_shapes m bs = (o, m') ->
  exists o1, mutate bs m = (o1, m') /\
    ((o1 <> None /\ o = o1) \/
     (o1 = None /\ o = option_map InferenceError (infer_shapes m'))).
Proof.
  unfold change_batch_size. destruct (mutate bs m) as [[e|] m1].
  - intros [= <- <-]. exists (Some e). split; [reflexivity |]. left. auto.
  - destruct (infer_shapes m1) eqn:E; intros [= <- <-]; exists None;
      (split; [reflexivity |]); right; rewrite E; auto.
Qed.

Lemma change_batch_size_ok (infer_shapes : ModelProto -> option string)
    (m m' : ModelProto) (bs : batch_size) :
  change_batch_size infer_shapes m bs = (None, m') ->
  mutate bs m = (None, m') /\ infer_shapes m' = None.
Proof.
  intros H. apply change_batch_size_inv in H as (o1 & H & [[Hn <-] | [-> Ho]]).
  - contradiction.
  - split; [exact H |]. destruct (infer_shapes m'); [discriminate | reflexivity].
Qed.

Lemma change_batch_size_state (infer_shapes : ModelProto -> option string)
    (m : ModelProto) (bs : batch_size) :
  exists o, mutate bs m = (o, (change_batch_size infer_shapes m bs).2).
Proof.
  unfold change_batch_size. destruct (mutate bs m) as [[e|] m1]; [by eexists |].
  destruct (infer_shapes m1); by eexists.
Qed.

(** C2. After a call that returns, every ValueInfo record of value_info, of
    the graph inputs and of the graph outputs whose name is neither the name
    of an initializer nor the output of a Constant node, and whose shape has
    at least one dimension, has its dimension 0 set to the requested token (a
    symbolic name for a string, a literal integer otherwise); its other
    dimensions, and the rest of the record, are as before. *)
Theorem change_batch_size_dim0 (infer_shapes : ModelProto -> option string)
    (m m' : ModelProto) (bs : batch_size)
    (field : GraphProto -> list ValueInfoProto) (i : nat)
    (v : ValueInfoProto) (d : Dimension) (rest : list Dimension) :
  change_batch_size infer_shapes m bs = (None, m') ->
  In field fields ->
  field (graph m) !! i = Some v ->
  ~ is_initializer_name m (vi_name v) ->
  ~ is_constant_name m (vi_name v) ->
  shape_dim v = d :: rest ->
  field (graph m') !! i
  = Some (mkValueInfo (vi_name v) (elem_type v)
            (mkDim (token bs) (denotation d) :: rest)).
Proof.
  intros H Hfield Hv Hi Hc Hs.
  apply change_batch_size_ok in H as [H _].
  apply mutate_spec in H as (_ & _ & _ & Hr & _).
  specialize (Hr eq_refl field Hfield).
  destruct (Forall2_lookup_l _ _ _ _ _ Hr Hv) as (v' & Hv' & _ & Hrew).
  rewrite Hv', Hrew.
  - unfold with_token. by rewrite Hs.
  - unfold is_constant. tauto.
Qed.

Lemma change_batch_size_dim0_witness :
  g_input (graph (change_batch_size passes scenario (batch_str "N")).2) !! 0%nat
  = Some (mkValueInfo "x" FLOAT
            (mkDim (dim_param "N") "" :: fixed_dims [1; 28; 28])).
Proof.
  apply (change_batch_size_dim0 passes scenario _ (batch_str "N") g_input 0
           (mkValueInfo "x" FLOAT (fixed_dims [10; 1; 28; 28]))
           (mkDim (dim_value 10) "") (fixed_dims [1; 28; 28])).
  - reflexivity.
  - right; left; reflexivity.
  - reflexivity.
  - intros (t & Ht & Hn). simpl in Ht.
    apply list_elem_of_singleton in Ht as ->. discriminate.
  - intros (n & Hn & Hop & _). simpl in Hn.
    apply list_elem_of_singleton in Hn as ->. discriminate.
  - reflexivity.
Defined.

(** C6. Whatever the outcome of the call, a ValueInfo record whose name is
    the name of an initializer or the first output of a Constant node is left
    as it was, in each of the three fields; hence a field whose records are
    all of that kind is left unchanged as a whole. *)
Theorem change_batch_size_keeps_constants
    (infer_shapes : ModelProto -> option string)
    (m : ModelProto) (bs : batch_size)
    (field : GraphProto -> list ValueInfoProto) :
  In field fields ->
  let m' := (change_batch_size infer_shapes m bs).2 in
  (forall i v, field (graph m) !! i = Some v -> is_constant m v ->
               field (graph m') !! i = Some v) /\
  ((forall v, v ∈ field (graph m) -> is_constant m v) ->
   field (graph m') = field (graph m)).
Proof.
  intros Hfield m'.
  destruct (change_batch_size_state infer_shapes m bs) as [o H]. fold m' in H.
  apply mutate_spec in H as (_ & _ & Hv & _).
  specialize (Hv field Hfield).
  assert (Hpoint : forall i v, field (graph m) !! i = Some v -> is_constant m v ->
                               field (graph m') !! i = Some v).
  { intros i v Hi Hc.
    destruct (Forall2_lookup_l _ _ _ _ _ Hv Hi) as (v' & Hv' & [-> | [Hn _]]).
    - exact Hv'.
    - contradiction. }
  split; [exact Hpoint |].
  intros Hall. apply list_eq. intros i.
  destruct (field (graph m) !! i) as [v|] eqn:Hi.
  - apply Hpoint; [exact Hi |]. apply Hall. by eapply list_elem_of_lookup_2.
  - apply lookup_ge_None. apply lookup_ge_None in Hi.
    by rewrite <- (Forall2_length _ _ _ Hv).
Qed.

Lemma change_batch_size_keeps_constants_witness :
  value_info (graph (change_batch_size passes all_constant (batch_str "N")).2)
  = value_info (graph all_constant).
Proof.
  apply (change_batch_size_keeps_constants passes all_constant (batch_str "N")
           value_info).
  - left; reflexivity.
  - intros v Hv. simpl in Hv. apply list_elem_of_singleton in Hv as ->.
    right. exists (mkNode "Constant" [] ["c"]).
    split; [left | split; reflexivity].
Defined.

Lemma extract_data_shape_length (t : TensorProto) (a : ndarray) :
  extract_data t = Ok (Array a) -> length (arr_shape a) = length (dims t).
Proof.
  intros H. apply extract_data_array in H as (ret & _ & _ & H).
  by apply np_reshape_ok in H as (_ & _ & _ & _ & H & _).
Qed.

(** An INT64 record decodes to Python ints only. *)
Lemma extract_seq_ints (t : TensorProto) (s : sequence) :
  data_type t = INT64 -> extract_seq t = Ok s ->
  Forall (fun v => exists z, v = VInt z) (seq_vals s).
Proof.
  unfold extract_seq. intros ->.
  change (INT64 =? FLOAT) with false. change (INT64 =? INT64) with true.
  cbn [andb]. destruct (nonempty (int64_data t)).
  - intros [= <-]. cbn [seq_vals]. apply Forall_forall. intros v Hv.
    apply list_elem_of_In, in_map_iff in Hv as (z & <- & _). eauto.
  - change (format_char INT64) with (Ok fmt_q). cbn [bind].
    unfold iter_unpack. case_match; [| discriminate].
    intros [= <-]. cbn [seq_vals]. apply Forall_forall. intros v Hv.
    apply list_elem_of_In, in_map_iff in Hv as (c & <- & _).
    unfold unpack. eauto.
Qed.

Lemma extract_data_ints (t : TensorProto) (a : ndarray) :
  data_type t = INT64 -> extract_data t = Ok (Array a) ->
  Forall (fun v => exists z, v = VInt z) (arr_data a).
Proof.
  intros Hdt H. apply extract_data_array in H as (ret & Hret & _ & H).
  apply np_reshape_ok in H as (-> & _). by eapply extract_seq_ints.
Qed.

Lemma to_int64_ints (l : list pyval) :
  Forall (fun v => exists z, v = VInt z) l -> map VInt (map to_int64 l) = l.
Proof.
  induction 1 as [|v l [z ->] _ IH]; simpl; [reflexivity | by rewrite IH].
Qed.

(** C1, as stated, fails: the elements after item 0 are not always kept. In
    [float_target] the target shape of the Reshape node holds the floats 10.0
    and 784.5; the call returns and leaves the INT64 record [0, 784] under
    its name, 784.5 having been converted to the integer 784. *)
Lemma patches_target_float_target :
  ~ (forall (infer_shapes : ModelProto -> option string)
       (m m' : ModelProto) (tok : string) (n : NodeProto)
       (data target : string) (t : TensorProto),
       change_batch_size infer_shapes m (batch_str tok) = (None, m') ->
       n ∈ node (graph m) ->
       op_type n = "Reshape" ->
       input n !! 0%nat = Some data ->
       find_initializer m data = None ->
       input n !! 1%nat = Some target ->
       find_initializer m target = Some t ->
       exists a zs,
         extract_data t = Ok (Array a) /\
         find_initializer m' target
         = Some (mkTensor (name t) INT64 (arr_shape a) [] zs []) /\
         (let slab := Z.to_nat (prod_dims (tail (arr_shape a))) in
          map VInt zs = replicate slab (VInt 0) ++ drop slab (arr_data a)) /\
         (length (dims t) = 1%nat ->
          arr_shape a = [Z.of_nat (length zs)] /\
          map VInt zs = <[0%nat := VInt 0]> (arr_data a))).
Proof.
  intros H.
  destruct (H passes float_target
              (change_batch_size passes float_target (batch_str "N")).2
              "N"%string (mkNode "Reshape" ["x"; "shape0"] ["y"])
              "x"%string "shape0"%string
              (mkTensor "shape0" FLOAT [2] [1092616192; 1145315328] [] []))
    as (a & zs & Ha & Hfound & Hkept & _);
    [reflexivity | left | reflexivity | reflexivity | reflexivity
    | reflexivity | reflexivity |].
  injection Ha as <-. injection Hfound as <-. discriminate Hkept.
Qed.

(** C1, amended. After a call with a symbolic batch size that returns, for
    every Reshape node whose first input is not an initializer and whose
    second input names an initializer [t]: with [a] the array decoded from
    [t], the initializer found under that name has the name of [t], data type
    INT64, the shape of [a] as dimensions and its values in the int64 field.
    The values are those of [a] with item 0 (along the first axis) filled
    with zero and the others converted to int64: kept as they are when [t] is
    an INT64 tensor, truncated toward zero when it is a FLOAT tensor. For a
    one-dimensional [t] this is element 0 overwritten by 0 and the dimensions
    are the length of the sequence. *)
Theorem change_batch_size_patches_target
    (infer_shapes : ModelProto -> option string)
    (m m' : ModelProto) (tok : string) (n : NodeProto)
    (data target : string) (t : TensorProto) :
  change_batch_size infer_shapes m (batch_str tok) = (None, m') ->
  n ∈ node (graph m) ->
  op_type n = "Reshape" ->
  input n !! 0%nat = Some data ->
  find_initializer m data = None ->
  input n !! 1%nat = Some target ->
  find_initializer m target = Some t ->
  exists a zs,
    extract_data t = Ok (Array a) /\
    find_initializer m' target
    = Some (mkTensor (name t) INT64 (arr_shape a) [] zs []) /\
    (let slab := Z.to_nat (prod_dims (tail (arr_shape a))) in
     zs = replicate slab 0 ++ map to_int64 (drop slab (arr_data a)) /\
     (data_type t = INT64 ->
      map VInt zs = replicate slab (VInt 0) ++ drop slab (arr_data a))) /\
    (length (dims t) = 1%nat ->
     arr_shape a = [Z.of_nat (length zs)] /\
     zs = <[0%nat := 0]> (map to_int64 (arr_data a)) /\
     (data_type t = INT64 -> map VInt zs = <[0%nat := VInt 0]> (arr_data a))).
Proof.
  intros H Hin Hop H0 Hd H1 Ht.
  apply change_batch_size_ok in H as [H _].
  apply mutate_spec in H as (_ & _ & _ & _ & _ & Hforced).
  assert (Hr : reshapes_into m n target).
  { split; [exact Hop |]. exists data. auto. }
  destruct (Hforced eq_refl tok eq_refl n target t Hin Hr Ht) as (t' & Hp & Ht').
  apply patched_inv in Hp as (a & zs & d0 & rest & Hp).
  destruct Hp as (Ha & Hs & Hd0 & Hu & _ & _ & Hlen & Hdlen & Hzs & ->).
  assert (Hints : data_type t = INT64 ->
            map VInt zs
            = replicate (Z.to_nat (prod_dims rest)) (VInt 0)
              ++ drop (Z.to_nat (prod_dims rest)) (arr_data a)).
  { intros Hdt. rewrite Hzs, map_app, map_replicate. f_equal.
    apply to_int64_ints, Forall_drop. by eapply extract_data_ints. }
  exists a, zs. rewrite Hs in Ht', Hlen |- *. cbn [tail].
  split; [assumption |]. split; [assumption |]. split; [auto |].
  intros Hone. apply extract_data_shape_length in Ha. rewrite Hs, Hone in Ha.
  destruct rest; [| discriminate].
  unfold prod_dims in Hlen. simpl in Hlen.
  change (Z.to_nat (prod_dims [])) with 1%nat in Hzs, Hints.
  split; [f_equal; lia |].
  destruct (arr_data a) as [|x l]; [simpl in Hdlen; lia |].
  split; [exact Hzs | exact Hints].
Qed.

Lemma change_batch_size_patches_target_witness :
  (exists a zs,
     extract_data (mkTensor "shape0" FLOAT [2] [1092616192; 1145315328] [] [])
     = Ok (Array a) /\
     find_initializer (change_batch_size passes float_target (batch_str "N")).2
       "shape0"
     = Some (mkTensor "shape0" INT64 (arr_shape a) [] zs []) /\
     (let slab := Z.to_nat (prod_dims (tail (arr_shape a))) in
      zs = replicate slab 0 ++ map to_int64 (drop slab (arr_data a)) /\
      (FLOAT = INT64 ->
       map VInt zs = replicate slab (VInt 0) ++ drop slab (arr_data a))) /\
     (length [2] = 1%nat ->
      arr_shape a = [Z.of_nat (length zs)] /\
      zs = <[0%nat := 0]> (map to_int64 (arr_data a)) /\
      (FLOAT = INT64 -> map VInt zs = <[0%nat := VInt 0]> (arr_data a)))) /\
  (exists a zs,
     extract_data (mkTensor "shape0" INT64 [2] [] [10; 784] []) = Ok (Array a) /\
     find_initializer (change_batch_size passes scenario (batch_str "N")).2
       "shape0"
     = Some (mkTensor "shape0" INT64 (arr_shape a) [] zs []) /\
     (let slab := Z.to_nat (prod_dims (tail (arr_shape a))) in
      zs = replicate slab 0 ++ map to_int64 (drop slab (arr_data a)) /\
      (INT64 = INT64 ->
       map VInt zs = replicate slab (VInt 0) ++ drop slab (arr_data a))) /\
     (length [2] = 1%nat ->
      arr_shape a = [Z.of_nat (length zs)] /\
      zs = <[0%nat := 0]> (map to_int64 (arr_data a)) /\
      (INT64 = INT64 -> map VInt zs = <[0%nat := VInt 0]> (arr_data a)))).
Proof.
  split.
  - apply (change_batch_size_patches_target passes float_target _ "N"
             (mkNode "Reshape" ["x"; "shape0"] ["y"]) "x" "shape0"
             (mkTensor "shape0" FLOAT [2] [1092616192; 1145315328] [] []));
      [reflexivity | left | reflexivity | reflexivity | reflexivity
      | reflexivity | reflexivity].
  - apply (change_batch_size_patches_target passes scenario _ "N"
             (mkNode "Reshape" ["x"; "shape0"] ["y"]) "x" "shape0"
             (mkTensor "shape0" INT64 [2] [] [10; 784] []));
      [reflexivity | left | reflexivity | reflexivity | reflexivity
      | reflexivity | reflexivity].
Defined.

Example float_target_after :
  change_batch_size passes float_target (batch_str "N")
  = (None,
     mkModel (mkGraph
       [mkNode "Reshape" ["x"; "shape0"] ["y"]]
       [mkTensor "shape0" INT64 [2] [] [0; 784] []]
       []
       [mkValueInfo "x" FLOAT
          (mkDim (dim_param "N") "" :: fixed_dims [1; 28; 28])]
       [mkValueInfo "y" FLOAT
          (mkDim (dim_param "N") "" :: fixed_dims [784])])).
Proof. reflexivity. Qed.

Example scenario_after :
  change_batch_size passes scenario (batch_str "N")
  = (None,
     mkModel (mkGraph
       [mkNode "Reshape" ["x"; "shape0"] ["y"]]
       [mkTensor "shape0" INT64 [2] [] [0; 784] []]
       []
       [mkValueInfo "x" FLOAT
          (mkDim (dim_param "N") "" :: fixed_dims [1; 28; 28])]
       [mkValueInfo "y" FLOAT
          (mkDim (dim_param "N") "" :: fixed_dims [784])])).
Proof. reflexivity. Qed.

(** C3, as stated, fails: in [shared_target] the first Reshape node reshapes
    the initializer "W", and its target shape "s" is rewritten all the same,
    on account of the second node. *)
Lemma reshape_exclusion_shared_target :
  ~ (forall (infer_shapes : ModelProto -> option string) (m : ModelProto)
       (tok : string) (n : NodeProto) (data target : string),
       n ∈ node (graph m) ->
       op_type n = "Reshape" ->
       input n !! 0%nat = Some data ->
       find_initializer m data <> None ->
       input n !! 1%nat = Some target ->
       find_initializer (change_batch_size infer_shapes m (batch_str tok)).2
         target
       = find_initializer m target).
Proof.
  intros H.
  specialize (H passes shared_target "N"%string
                (mkNode "Reshape" ["W"; "s"] ["w2"]) "W"%string "s"%string).
  assert (E : find_initializer
                (change_batch_size passes shared_target (batch_str "N")).2 "s"
              = Some (mkTensor "s" INT64 [2] [] [0; -1] [])) by reflexivity.
  rewrite H in E; [discriminate E | left | reflexivity | reflexivity
                  | discriminate | reflexivity].
Qed.

(** C3, amended. Whatever the outcome of the call, the target-shape
    initializer of a Reshape node whose first input is an initializer is left
    as it was, provided no Reshape node of the graph whose first input is not
    an initializer has the same name as its second input. *)
Theorem reshape_exclusion (infer_shapes : ModelProto -> option string)
    (m : ModelProto) (tok : string) (n : NodeProto) (data target : string) :
  n ∈ node (graph m) ->
  op_type n = "Reshape" ->
  input n !! 0%nat = Some data ->
  find_initializer m data <> None ->
  input n !! 1%nat = Some target ->
  (forall n', n' ∈ node (graph m) -> ~ reshapes_into m n' target) ->
  find_initializer (change_batch_size infer_shapes m (batch_str tok)).2 target
  = find_initializer m target.
Proof.
  intros _ _ _ _ _ Hnone.
  destruct (change_batch_size_state infer_shapes m (batch_str tok)) as [o H].
  apply mutate_spec in H as (_ & _ & _ & _ & Hp & _).
  destruct (Hp target) as [E | (t0 & t' & _ & _ & _ & n' & Hin & Hr)].
  - exact E.
  - destruct (Hnone n' Hin Hr).
Qed.

Lemma reshape_exclusion_witness :
  find_initializer (change_batch_size passes constant_data (batch_str "N")).2 "s"
  = Some (mkTensor "s" INT64 [2] [] [10; -1] []).
Proof.
  apply (reshape_exclusion passes constant_data "N"
           (mkNode "Reshape" ["W"; "s"] ["w2"]) "W" "s").
  - left.
  - reflexivity.
  - reflexivity.
  - discriminate.
  - reflexivity.
  - intros n' Hin (Hop & d & H0 & Hd & H1). simpl in Hin.
    apply elem_of_cons in Hin as [-> | Hin].
    + injection H0 as <-. discriminate Hd.
    + apply list_elem_of_singleton in Hin as ->. discriminate Hop.
Defined.

(** C4. The call raises the diagnostic of the shape-inference check exactly
    when both loops have run to their end and the check, applied to the graph
    as they left it, fails with that diagnostic; the graph is then left as the
    loops mutated it. When the check passes on that graph the call returns. *)
Theorem change_batch_size_check (infer_shapes : ModelProto -> option string)
    (m : ModelProto) (bs : batch_size) :
  (forall diagnostic m',
     change_batch_size infer_shapes m bs
     = (Some (InferenceError diagnostic), m')
     <-> mutate bs m = (None, m') /\ infer_shapes m' = Some diagnostic) /\
  (forall m',
     change_batch_size infer_shapes m bs = (None, m')
     <-> mutate bs m = (None, m') /\ infer_shapes m' = None).
Proof.
  split; intros; split.
  - intros H. apply change_batch_size_inv in H as (o1 & H & [[Hn <-] | [-> Ho]]).
    + apply mutate_raise in H. discriminate.
    + split; [exact H |]. destruct (infer_shapes m'); simpl in Ho; congruence.
  - intros [H Hi]. unfold change_batch_size. by rewrite H, Hi.
  - apply change_batch_size_ok.
  - intros [H Hi]. unfold change_batch_size. by rewrite H, Hi.
Qed.

Example check_failure_leaves_mutated :
  change_batch_size rejects scenario (batch_str "N")
  = (Some (InferenceError "inconsistent"),
     (change_batch_size passes scenario (batch_str "N")).2)
  /\ (change_batch_size passes scenario (batch_str "N")).2 <> scenario.
Proof. split; [reflexivity | discriminate]. Qed.

(** ** Running the rewrite again *)

Lemma set_dim_idem (bs : batch_size) (d d' : Dimension) :
  set_dim bs d = Ok d' -> set_dim bs d' = Ok d'.
Proof.
  destruct bs as [tok | k]; simpl.
  - by intros [= <-].
  - destruct (fits_int64 k); [by intros [= <-] | discriminate].
Qed.

Lemma rewrite_value_info_idem (I C : gset string) (bs : batch_size)
    (v v' : ValueInfoProto) :
  rewrite_value_info I C bs v = Ok v' -> rewrite_value_info I C bs v' = Ok v'.
Proof.
  unfold rewrite_value_info.
  destruct (bool_decide (vi_name v ∈ I) || bool_decide (vi_name v ∈ C)) eqn:E.
  - intros [= <-]. by rewrite E.
  - destruct (shape_dim v) as [|d rest] eqn:Hs.
    + intros [= <-]. by rewrite E, Hs.
    + intros H. apply bind_ok in H as (d' & Hd & [= <-]). simpl.
      rewrite E, (set_dim_idem _ _ _ Hd). reflexivity.
Qed.

Lemma for_each_again {A} (body : A -> result A) (l l' : list A) :
  (forall x x', body x = Ok x' -> body x' = Ok x') ->
  for_each body l = (None, l') -> for_each body l' = (None, l').
Proof.
  intros Hidem H. apply for_each_rel in H as [_ H]. specialize (H eq_refl).
  induction H as [|x x' l l' Hx _ IH]; simpl; [reflexivity |].
  by rewrite (Hidem _ _ Hx), IH.
Qed.

Lemma rewrite_shapes_again (bs : batch_size) (m m1 m' : ModelProto) :
  rewrite_shapes bs m = (None, m1) ->
  same_but_initializer m1 m' ->
  rewrite_shapes bs m' = (None, m').
Proof.
  intros H (Hn & Hvi & Hin & Hout & Hnames).
  pose proof (rewrite_shapes_rel _ _ _ _ H) as (Hn1 & Hi1 & _).
  unfold rewrite_shapes in *.
  rewrite Hn, Hn1, Hnames, Hi1.
  destruct (constant_outputs (node (graph m))) as [cs|e]; [| discriminate].
  destruct (for_each _ (value_info (graph m))) as [[e1|] vis] eqn:E1;
    [discriminate |].
  destruct (for_each _ (g_input (graph m))) as [[e2|] ins] eqn:E2;
    [discriminate |].
  destruct (for_each _ (g_output (graph m))) as [o3 outs] eqn:E3.
  injection H as -> <-. simpl in Hvi, Hin, Hout.
  apply for_each_again in E1, E2, E3;
    try (intros x x'; apply rewrite_value_info_idem).
  rewrite Hvi, E1, Hin, E2, Hout, E3.
  f_equal. destruct m' as [[]]. simpl in *. by subst.
Qed.

(** C10. With a symbolic batch size, a call that returns leaves a graph on
    which the same call returns again and changes nothing: every ValueInfo
    already carries the token, and every target shape already rewritten
    decodes and is re-encoded to the very same record. *)
Theorem change_batch_size_idempotent
    (infer_shapes : ModelProto -> option string)
    (m m' : ModelProto) (tok : string) :
  change_batch_size infer_shapes m (batch_str tok) = (None, m') ->
  change_batch_size infer_shapes m' (batch_str tok) = (None, m').
Proof.
  intros H. apply change_batch_size_ok in H as [H Hcheck].
  apply mutate_inv in H as (o1 & m1 & H1 & [(Ho1 & <- & _) | (-> & H2)]);
    [contradiction |].
  simpl in H2.
  pose proof (reshape_loop_rel _ _ _ _ H2) as [Hs _].
  pose proof (rewrite_shapes_again _ _ _ _ H1 Hs) as Hagain.
  unfold change_batch_size, mutate. rewrite Hagain. simpl.
  destruct Hs as (Hn & _).
  rewrite Hn, (reshape_loop_again (node (graph m1)) m'), Hcheck; [reflexivity |].
  exact (reshape_loop_fixed _ _ _ H2).
Qed.

Lemma change_batch_size_idempotent_witness :
  change_batch_size passes
    (change_batch_size passes scenario (batch_str "N")).2 (batch_str "N")
  = (None, (change_batch_size passes scenario (batch_str "N")).2).
Proof.
  apply (change_batch_size_idempotent passes scenario _ "N"). reflexivity.
Defined.

(** * Further properties of the lookups and of [extract_data] *)

Lemma first_tensor_Some (l : list TensorProto) (nm : string) (t : TensorProto) :
  first_tensor l nm = Some t <->
  exists before after,
    l = before ++ t :: after /\ name t = nm /\
    Forall (fun u => name u <> nm) before.
Proof.
  induction l as [|u l IH]; simpl.
  - split; [discriminate |]. intros (before & after & H & _).
    destruct before; discriminate.
  - destruct (String.eqb_spec (name u) nm) as [Heq | Hne].
    + split.
      * intros [= ->]. exists [], l. auto.
      * intros ([|w before] & after & H & Hv & Hall); simpl in H.
        -- congruence.
        -- injection H as <- _. inversion Hall. contradiction.
    + rewrite IH. split.
      * intros (before & after & -> & Hv & Hall).
        exists (u :: before), after. auto.
      * intros ([|w before] & after & H & Hv & Hall); simpl in H.
        -- congruence.
        -- injection H as <- ->. inversion Hall. eauto.
Qed.

Lemma first_tensor_Forall (l : list TensorProto) (nm : string) :
  first_tensor l nm = None <-> Forall (fun u => name u <> nm) l.
Proof.
  induction l as [|u l IH]; simpl.
  - split; auto.
  - destruct (String.eqb_spec (name u) nm) as [Heq | Hne].
    + split; [discriminate |]. inversion 1. contradiction.
    + rewrite IH. split; [auto |]. by inversion 1.
Qed.

(** X1. [find_initializer] returns the first initializer of the given name,
    in the order of the repeated field, and None exactly when no initializer
    has that name. *)
Theorem find_initializer_first (onnx_model : ModelProto) (nm : string) :
  (forall t, find_initializer onnx_model nm = Some t <->
     exists before after,
       initializer (graph onnx_model) = before ++ t :: after /\
       name t = nm /\ Forall (fun u => name u <> nm) before) /\
  (find_initializer onnx_model nm = None <->
     Forall (fun u => name u <> nm) (initializer (graph onnx_model))).
Proof.
  unfold find_initializer. split.
  - intros t. apply first_tensor_Some.
  - apply first_tensor_Forall.
Qed.

Lemma nonneg_dims (ds : list Z) :
  Forall (fun d => 0 <= d) ds <-> unknown_dims ds = O.
Proof.
  induction ds as [|d ds IH]; simpl; [split; auto |].
  destruct (Z.ltb_spec d 0) as [Hd | Hd].
  - split; [| discriminate]. inversion 1. lia.
  - rewrite <- IH. split; [by inversion 1 | auto].
Qed.



Lemma infer_agrees (q : Z) (ds : list Z) :
  Forall2 (fun d s => 0 <= d -> s = d) ds
    (map (fun d => if d <? 0 then q else d) ds).
Proof.
  induction ds as [|d ds IH]; simpl; constructor; [| exact IH].
  intros Hd. destruct (Z.ltb_spec d 0); [lia | reflexivity].
Qed.

(** X3. Every array that [extract_data] returns is well shaped: it holds the
    decoded elements, its shape has as many entries as [dims], none of them
    negative, their product is the number of elements, and every entry of
    [dims] that is not negative is kept (a negative one is inferred). *)
Theorem extract_data_well_shaped (params : TensorProto) (a : ndarray) :
  extract_data params = Ok (Array a) ->
  extract_ret params = Ok (arr_data a) /\
  Forall (fun s => 0 <= s) (arr_shape a) /\
  prod_dims (arr_shape a) = Z.of_nat (length (arr_data a)) /\
  Forall2 (fun d s => 0 <= d -> s = d) (dims params) (arr_shape a).
Proof.
  intros H. apply extract_data_array in H as (ret & Hret & _ & Hr).
  pose proof (np_reshape_ok _ _ _ Hr) as (Hdata & _ & Hu & Hk & _).
  rewrite Hdata. split; [apply extract_ret_Ok; eauto |].
  split; [by apply nonneg_dims |].
  split; [by rewrite (prod_dims_known _ Hu) |].
  unfold np_reshape in Hr.
  destruct (unknown_dims (dims params)) as [|[|k]]; repeat case_match;
    try discriminate; injection Hr as <-; simpl.
  - apply Forall2_same_length_lookup_2; [reflexivity |].
    intros i x y Hx Hy _. congruence.
  - apply infer_agrees.
Qed.

Lemma extract_data_well_shaped_witness :
  extract_ret (mkTensor "w" INT64 [-1; 3] [] [1; 2; 3; 4; 5; 6] [])
  = Ok [VInt 1; VInt 2; VInt 3; VInt 4; VInt 5; VInt 6] /\
  Forall (fun s => 0 <= s) [2; 3] /\
  prod_dims [2; 3] = 6 /\
  Forall2 (fun d s => 0 <= d -> s = d) [-1; 3] [2; 3].
Proof.
  apply (extract_data_well_shaped
           (mkTensor "w" INT64 [-1; 3] [] [1; 2; 3; 4; 5; 6] [])
           (mkArray int64 [2; 3]
              [VInt 1; VInt 2; VInt 3; VInt 4; VInt 5; VInt 6])).
  reflexivity.
Defined.

Lemma extract_seq_raw (params : TensorProto) :
  (data_type params = FLOAT /\ float_data params = []) \/
  (data_type params = INT64 /\ int64_data params = []) ->
  extract_seq params
  = let* l := iter_unpack (if data_type params =? FLOAT then fmt_f else fmt_q)
                (raw_data params) in
    Ok (pylist l).
Proof.
  unfold extract_seq. intros [[-> ->] | [-> ->]]; reflexivity.
Qed.

(** X4. When the repeated field of the data type is empty, so that the raw
    buffer is read, [extract_data] fails with struct.error exactly when the
    length of the buffer is not a multiple of the item size (4 bytes for
    FLOAT, 8 for INT64). *)
Theorem extract_data_raw_length (params : TensorProto) :
  (data_type params = FLOAT /\ float_data params = []) \/
  (data_type params = INT64 /\ int64_data params = []) ->
  extract_data params = Raise StructError <->
  (length (raw_data params) mod item_size (data_type params) <> 0)%nat.
Proof.
  intros Hraw. unfold extract_data. rewrite (extract_seq_raw _ Hraw).
  assert (Hsize : calcsize (if data_type params =? FLOAT then fmt_f else fmt_q)
                  = item_size (data_type params)).
  { unfold item_size. destruct (data_type params =? FLOAT); reflexivity. }
  unfold iter_unpack. rewrite Hsize.
  destruct (Nat.eqb_spec (length (raw_data params)
                          mod item_size (data_type params)) 0) as [E | E].
  - split; [| contradiction]. cbn [bind seq_vals]. intros H. exfalso.
    case_match.
    + repeat case_match; discriminate.
    + apply bind_raise in H as [H | (a & _ & H)]; [| discriminate].
      apply np_reshape_raise in H. discriminate.
  - split; [auto | reflexivity].
Qed.

Lemma extract_data_raw_length_witness :
  extract_data (mkTensor "w" INT64 [1] [] [] ["001"; "000"; "000"]%byte)
  = Raise StructError.
Proof.
  apply (extract_data_raw_length
           (mkTensor "w" INT64 [1] [] [] ["001"; "000"; "000"]%byte)).
  - right. split; reflexivity.
  - simpl. lia.
Defined.

(** X5. [extract_data] raises nothing but the KeyError of its format table,
    struct.error, the AssertionError of the scalar case and the ValueError of
    numpy's reshape. *)
Theorem extract_data_exceptions (params : TensorProto) (e : exn) :
  extract_data params = Raise e ->
  e = KeyError \/ e = StructError \/ e = AssertionError \/ e = ReshapeError.
Proof.
  unfold extract_data. intros H.
  apply bind_raise in H as [H | (ret & _ & H)].
  - apply extract_seq_raise in H as [[-> _] | ->]; auto.
  - case_match.
    + destruct (seq_vals ret) as [|x [|y l]]; try discriminate;
        injection H as <-; auto.
    + apply bind_raise in H as [H | (a & _ & H)]; [| discriminate].
      apply np_reshape_raise in H as ->. auto.
Qed.

Lemma extract_data_exceptions_witness :
  ReshapeError = KeyError \/ ReshapeError = StructError \/
  ReshapeError = AssertionError \/ ReshapeError = ReshapeError.
Proof.
  apply (extract_data_exceptions (mkTensor "w" INT64 [3] [] [1; 2] [])).
  reflexivity.
Defined.

(** * Further properties of [change_batch_size] *)

Lemma visited_frame (m : ModelProto) (bs : batch_size) (v v' : ValueInfoProto) :
  visited m bs v v' ->
  vi_name v' = vi_name v /\ elem_type v' = elem_type v /\
  tail (shape_dim v') = tail (shape_dim v) /\
  length (shape_dim v') = length (shape_dim v).
Proof.
  intros [-> | [_ ->]]; [auto |].
  unfold with_token. destruct (shape_dim v) eqn:E; simpl; rewrite ?E; auto.
Qed.

(** X6. Whatever its outcome, [change_batch_size] leaves the nodes as they
    are, keeps the names of the initializers in their order, and in each of
    value_info, input and output keeps the number of records and, record by
    record, the name, the element type, the number of dimensions and every
    dimension but the first. *)
Theorem change_batch_size_frame (infer_shapes : ModelProto -> option string)
    (m : ModelProto) (bs : batch_size) :
  let m' := (change_batch_size infer_shapes m bs).2 in
  node (graph m') = node (graph m) /\
  map name (initializer (graph m')) = map name (initializer (graph m)) /\
  forall field, In field fields ->
    Forall2 (fun v v' =>
               vi_name v' = vi_name v /\ elem_type v' = elem_type v /\
               tail (shape_dim v') = tail (shape_dim v) /\
               length (shape_dim v') = length (shape_dim v))
      (field (graph m)) (field (graph m')).
Proof.
  intros m'.
  destruct (change_batch_size_state infer_shapes m bs) as [o H]. fold m' in H.
  apply mutate_spec in H as (Hn & Hi & Hv & _).
  split; [exact Hn |]. split; [exact Hi |].
  intros field Hfield. eapply Forall2_impl; [exact (Hv field Hfield) |].
  intros v v'. apply visited_frame.
Qed.

(** X7. With an integer batch size the initializers are never touched,
    whatever the outcome of the call. *)
Theorem change_batch_size_int_initializers
    (infer_shapes : ModelProto -> option string) (m : ModelProto) (k : Z) :
  initializer (graph (change_batch_size infer_shapes m (batch_int k)).2)
  = initializer (graph m).
Proof.
  destruct (change_batch_size_state infer_shapes m (batch_int k)) as [o H].
  apply mutate_inv in H as (o1 & m1 & H1 & H).
  apply rewrite_shapes_rel in H1 as (_ & Hi & _).
  destruct H as [(_ & _ & ->) | (_ & H2)]; [exact Hi |].
  simpl in H2. injection H2 as _ <-. exact Hi.
Qed.

(** ** Exceptions *)

Lemma extract_data_raise_cases (t : TensorProto) (e : exn) :
  extract_data t = Raise e ->
  e ∈ [KeyError; StructError; AssertionError; ReshapeError].
Proof.
  unfold extract_data. intros H.
  apply bind_raise in H as [H | (ret & _ & H)].
  - apply extract_seq_raise in H as [[-> _] | ->]; set_solver.
  - case_match.
    + destruct (seq_vals ret) as [|x [|y l]]; try discriminate;
        injection H as <-; set_solver.
    + apply bind_raise in H as [H | (a & _ & H)]; [| discriminate].
      apply np_reshape_raise in H as ->. set_solver.
Qed.

Lemma patched_raise_cases (t : TensorProto) (e : exn) :
  patched t = Raise e ->
  e ∈ [KeyError; StructError; AssertionError; ReshapeError; TypeError;
       IndexError].
Proof.
  unfold patched. intros H.
  apply bind_raise in H as [H | (v & _ & H)].
  { apply extract_data_raise_cases in H. rewrite !elem_of_cons in *; tauto. }
  apply bind_raise in H as [H | (a & _ & H)].
  - destruct v as [x | a]; simpl in H; [injection H as <-; set_solver |].
    repeat case_match; try discriminate; injection H as <-; set_solver.
  - unfold make_tensor_INT64 in H.
    case_match; [discriminate | injection H as <-; set_solver].
Qed.

Lemma reshape_step_raise_cases (m : ModelProto) (n : NodeProto) (e : exn) :
  reshape_step m n = Raise e ->
  e ∈ [KeyError; StructError; AssertionError; ReshapeError; TypeError;
       IndexError].
Proof.
  unfold reshape_step. intros H.
  repeat case_match; try discriminate;
    try (injection H as <-; set_solver).
  apply bind_raise in H as [H | (? & _ & H)]; [| discriminate].
  by eapply patched_raise_cases.
Qed.

Lemma reshape_loop_raise_cases (ns : list NodeProto) (m m' : ModelProto)
    (e : exn) :
  reshape_loop ns m = (Some e, m') ->
  e ∈ [KeyError; StructError; AssertionError; ReshapeError; TypeError;
       IndexError].
Proof.
  revert m. induction ns as [|n ns IH]; intros m H; simpl in H; [discriminate |].
  destruct (reshape_step m n) as [m1|e1] eqn:E; [by eapply IH |].
  injection H as <- <-. by eapply reshape_step_raise_cases.
Qed.

Lemma set_dim_raise (bs : batch_size) (d : Dimension) (e : exn) :
  set_dim bs d = Raise e ->
  e = RangeError /\ exists k, bs = batch_int k /\ fits_int64 k = false.
Proof.
  destruct bs as [tok | k]; simpl; [discriminate |].
  destruct (fits_int64 k) eqn:E; [discriminate |].
  intros [= <-]. eauto.
Qed.

Lemma rewrite_value_info_raise_int I C bs v e :
  rewrite_value_info I C bs v = Raise e ->
  e = RangeError /\ exists k, bs = batch_int k /\ fits_int64 k = false.
Proof.
  unfold rewrite_value_info. intros H.
  repeat case_match; try discriminate.
  apply bind_raise in H as [H | (d' & _ & H)]; [| discriminate].
  by eapply set_dim_raise.
Qed.

Lemma rewrite_value_info_unfit I C k v v' :
  fits_int64 k = false ->
  rewrite_value_info I C (batch_int k) v = Ok v' -> v' = v.
Proof.
  intros Hk. unfold rewrite_value_info, set_dim. rewrite Hk.
  repeat case_match; simpl; congruence.
Qed.

Lemma for_each_unchanged {A} (body : A -> result A) (l l' : list A)
    (o : option exn) :
  (forall x x', body x = Ok x' -> x' = x) ->
  for_each body l = (o, l') -> l' = l.
Proof.
  intros Hid H. apply for_each_rel in H as [H _].
  induction H as [|x x' l l' Hx _ IH]; [reflexivity |].
  f_equal; [| exact IH]. destruct Hx as [-> | Hx]; [reflexivity | by apply Hid].
Qed.

Lemma with_value_infos_id (m : ModelProto) :
  with_value_infos m (value_info (graph m)) (g_input (graph m))
    (g_output (graph m)) = m.
Proof. destruct m as [[]]. reflexivity. Qed.

Lemma rewrite_shapes_unfit (k : Z) (m m1 : ModelProto) (o : option exn) :
  fits_int64 k = false -> rewrite_shapes (batch_int k) m = (o, m1) -> m1 = m.
Proof.
  intros Hk. unfold rewrite_shapes.
  destruct (constant_outputs (node (graph m))) as [cs|e]; [| by intros [= _ <-]].
  destruct (for_each _ (value_info (graph m))) as [o1 vis] eqn:E1.
  apply for_each_unchanged in E1;
    [| intros x x'; by apply rewrite_value_info_unfit].
  subst vis. destruct o1 as [e1|].
  { intros [= _ <-]. apply with_value_infos_id. }
  destruct (for_each _ (g_input (graph m))) as [o2 ins] eqn:E2.
  apply for_each_unchanged in E2;
    [| intros x x'; by apply rewrite_value_info_unfit].
  subst ins. destruct o2 as [e2|].
  { intros [= _ <-]. apply with_value_infos_id. }
  destruct (for_each _ (g_output (graph m))) as [o3 outs] eqn:E3.
  apply for_each_unchanged in E3;
    [| intros x x'; by apply rewrite_value_info_unfit].
  subst outs. intros [= _ <-]. apply with_value_infos_id.
Qed.

Lemma rewrite_shapes_raise_cases (bs : batch_size) (m m1 : ModelProto) (e : exn) :
  rewrite_shapes bs m = (Some e, m1) ->
  (e = IndexError /\ m1 = m) \/
  (e = RangeError /\ exists k, bs = batch_int k /\ fits_int64 k = false).
Proof.
  unfold rewrite_shapes.
  destruct (constant_outputs (node (graph m))) as [cs|e0] eqn:Hcs.
  2:{ intros [= <- <-]. apply constant_outputs_raise in Hcs as ->. by left. }
  destruct (for_each _ (value_info (graph m))) as [[e1|] vis] eqn:E1.
  { intros [= <- <-]. apply for_each_raise in E1 as [x Hx].
    right. by eapply rewrite_value_info_raise_int. }
  destruct (for_each _ (g_input (graph m))) as [[e2|] ins] eqn:E2.
  { intros [= <- <-]. apply for_each_raise in E2 as [x Hx].
    right. by eapply rewrite_value_info_raise_int. }
  destruct (for_each _ (g_output (graph m))) as [o3 outs] eqn:E3.
  intros [= -> <-]. apply for_each_raise in E3 as [x Hx].
  right. by eapply rewrite_value_info_raise_int.
Qed.

(** X8. The protobuf range error is raised only for an integer batch size
    that does not fit the int64 field, and the graph is then exactly as it
    was before the call: no record was rewritten before the failing one. *)
Theorem change_batch_size_range_error
    (infer_shapes : ModelProto -> option string)
    (m : ModelProto) (bs : batch_size) :
  (change_batch_size infer_shapes m bs).1 = Some RangeError ->
  (exists k, bs = batch_int k /\ fits_int64 k = false) /\
  (change_batch_size infer_shapes m bs).2 = m.
Proof.
  destruct (change_batch_size infer_shapes m bs) as [o m'] eqn:E. simpl.
  intros ->.
  apply change_batch_size_inv in E as (o1 & H & [[_ <-] | [_ Ho]]).
  2:{ destruct (infer_shapes m'); discriminate. }
  apply mutate_inv in H as (o1 & m1 & H1 & [(_ & <- & ->) | (-> & H2)]).
  - pose proof (rewrite_shapes_raise_cases _ _ _ _ H1)
      as [[? _] | (_ & k & -> & Hk)]; [discriminate |].
    split; [eauto |]. by eapply rewrite_shapes_unfit.
  - destruct bs as [tok | k]; simpl in H2; [| discriminate].
    apply reshape_loop_raise_cases in H2. repeat (apply elem_of_cons in H2 as [H2 | H2]; [discriminate |]).
    inversion H2.
Qed.

Lemma change_batch_size_range_error_witness :
  (exists k, batch_int (2 ^ 70) = batch_int k /\ fits_int64 k = false) /\
  (change_batch_size passes scenario (batch_int (2 ^ 70))).2 = scenario.
Proof.
  apply (change_batch_size_range_error passes scenario (batch_int (2 ^ 70))).
  reflexivity.
Defined.

(** X9. The exceptions that escape [change_batch_size] are: IndexError (a
    Constant node without output, a Reshape node short of inputs, a target
    shape whose first dimension is zero), the protobuf range error, the
    errors of decoding a target shape (KeyError, struct.error, AssertionError,
    numpy's ValueError), TypeError (a scalar target shape) and the diagnostic
    of the shape-inference check. It raises none of its own. *)
Theorem change_batch_size_exceptions
    (infer_shapes : ModelProto -> option string)
    (m m' : ModelProto) (bs : batch_size) (e : exn) :
  change_batch_size infer_shapes m bs = (Some e, m') ->
  e ∈ [IndexError; RangeError; KeyError; StructError; AssertionError;
       ReshapeError; TypeError] \/
  exists diagnostic, infer_shapes m' = Some diagnostic /\
                     e = InferenceError diagnostic.
Proof.
  intros E.
  apply change_batch_size_inv in E as (o1 & H & [[_ <-] | [_ Ho]]).
  2:{ right. destruct (infer_shapes m') as [d|]; [| discriminate].
      injection Ho as ->. eauto. }
  left.
  apply mutate_inv in H as (o1 & m1 & H1 & [(_ & <- & ->) | (-> & H2)]).
  - apply rewrite_shapes_raise_cases in H1 as [[-> _] | (-> & _)]; set_solver.
  - destruct bs as [tok | k]; simpl in H2; [| discriminate].
    apply reshape_loop_raise_cases in H2. rewrite !elem_of_cons in *; tauto.
Qed.

Lemma change_batch_size_exceptions_witness :
  TypeError ∈ [IndexError; RangeError; KeyError; StructError; AssertionError;
               ReshapeError; TypeError] \/
  exists diagnostic,
    passes (mkModel (mkGraph [mkNode "Reshape" ["x"; "c"] ["y"]]
                       [mkTensor "c" INT64 [] [] [7] []] [] [] []))
    = Some diagnostic /\ TypeError = InferenceError diagnostic.
Proof.
  apply (change_batch_size_exceptions passes
           (mkModel (mkGraph [mkNode "Reshape" ["x"; "c"] ["y"]]
                       [mkTensor "c" INT64 [] [] [7] []] [] [] []))
           _ (batch_str "N") TypeError).
  reflexivity.
Defined.

(** ** The first loop with a symbolic batch size *)

Lemma constant_outputs_total (nodes : list NodeProto) :
  Forall (fun n => op_type n = "Constant" -> output n <> []) nodes ->
  exists cs, constant_outputs nodes = Ok cs.
Proof.
  induction 1 as [|n nodes Hn _ [cs IH]]; simpl; [by eexists |].
  destruct (String.eqb_spec (op_type n) "Constant") as [Hop | Hop];
    [| by eexists].
  destruct (output n) as [|o os] eqn:Ho; [by destruct (Hn Hop) |].
  simpl. rewrite IH. by eexists.
Qed.

Lemma rewrite_shapes_str_total (tok : string) (m m1 : ModelProto)
    (o : option exn) (cs : list string) :
  constant_outputs (node (graph m)) = Ok cs ->
  rewrite_shapes (batch_str tok) m = (o, m1) -> o = None.
Proof.
  intros Hcs H. destruct o as [e|]; [| reflexivity]. exfalso.
  unfold rewrite_shapes in H. rewrite Hcs in H.
  destruct (for_each _ (value_info (graph m))) as [[e1|] vis] eqn:E1.
  { apply for_each_raise in E1 as [x Hx].
    apply rewrite_value_info_raise_int in Hx as (_ & k & ? & _). discriminate. }
  destruct (for_each _ (g_input (graph m))) as [[e2|] ins] eqn:E2.
  { apply for_each_raise in E2 as [x Hx].
    apply rewrite_value_info_raise_int in Hx as (_ & k & ? & _). discriminate. }
  destruct (for_each _ (g_output (graph m))) as [o3 outs] eqn:E3.
  injection H as -> _. apply for_each_raise in E3 as [x Hx].
  apply rewrite_value_info_raise_int in Hx as (_ & k & ? & _). discriminate.
Qed.

(** X10. With a symbolic batch size, and every Constant node having an
    output, the first loop always runs to its end and is never undone:
    whatever the outcome of the call (also when a target shape cannot be
    rewritten or the final check fails), every ValueInfo record named after
    an initializer or a Constant output is as before, and every other record
    has the token as its dimension 0 (if it has a dimension). *)
Theorem change_batch_size_str_value_infos
    (infer_shapes : ModelProto -> option string)
    (m : ModelProto) (tok : string)
    (field : GraphProto -> list ValueInfoProto) (i : nat) (v : ValueInfoProto) :
  Forall (fun n => op_type n = "Constant" -> output n <> []) (node (graph m)) ->
  In field fields ->
  field (graph m) !! i = Some v ->
  let m' := (change_batch_size infer_shapes m (batch_str tok)).2 in
  (is_constant m v -> field (graph m') !! i = Some v) /\
  (~ is_constant m v ->
   field (graph m') !! i = Some (with_token (batch_str tok) v)).
Proof.
  intros Hc Hfield Hv m'.
  destruct (constant_outputs_total _ Hc) as [cs Hcs].
  destruct (change_batch_size_state infer_shapes m (batch_str tok)) as [o H].
  fold m' in H.
  apply mutate_inv in H as (o1 & m1 & H1 & H).
  pose proof (rewrite_shapes_str_total _ _ _ _ _ Hcs H1) as ->.
  apply rewrite_shapes_rel in H1 as (_ & _ & _ & Hr).
  specialize (Hr eq_refl field Hfield).
  assert (Hf : field (graph m') = field (graph m1)).
  { destruct H as [(Hn & _) | (_ & H2)]; [contradiction |].
    apply patch_reshapes_rel in H2 as [(_ & Hvi & Hin & Hout & _) _].
    destruct Hfield as [<- | [<- | [<- | []]]]; assumption. }
  rewrite Hf.
  destruct (Forall2_lookup_l _ _ _ _ _ Hr Hv) as (v' & Hv' & Hkeep & Hrew).
  split; intros Hk; rewrite Hv'; f_equal; auto.
Qed.

Lemma change_batch_size_str_value_infos_witness :
  (change_batch_size passes scalar_target (batch_str "N")).1 = Some TypeError /\
  g_input (graph (change_batch_size passes scalar_target (batch_str "N")).2)
    !! 0%nat
  = Some (with_token (batch_str "N")
            (mkValueInfo "x" FLOAT (fixed_dims [10; 784]))).
Proof.
  split; [reflexivity |].
  apply (change_batch_size_str_value_infos passes scalar_target "N" g_input 0
           (mkValueInfo "x" FLOAT (fixed_dims [10; 784]))).
  - repeat constructor. discriminate.
  - right; left; reflexivity.
  - reflexivity.
  - intros [(t & Ht & Hn) | (n & Hn & Hop & _)]; simpl in *.
    + apply list_elem_of_singleton in Ht as ->. discriminate.
    + apply list_elem_of_singleton in Hn as ->. discriminate.
Defined.

Lemma np_reshape_agrees (ret : sequence) (ds : list Z) (a : ndarray) :
  np_reshape ret ds = Ok a ->
  Forall2 (fun d s => 0 <= d -> s = d) ds (arr_shape a).
Proof.
  unfold np_reshape. intros Hr.
  destruct (unknown_dims ds) as [|[|k]]; repeat case_match;
    try discriminate; injection Hr as <-; simpl.
  - apply Forall2_same_length_lookup_2; [reflexivity |].
    intros i x y Hx Hy _. congruence.
  - apply infer_agrees.
Qed.

(** X11. A symbolic call never returns normally when some Reshape node that
    it does not skip has a target-shape initializer that is a scalar (empty
    dims) or whose first dimension is 0: item 0 cannot be assigned, and the
    call raises. *)
Theorem change_batch_size_bad_target
    (infer_shapes : ModelProto -> option string)
    (m : ModelProto) (tok : string) (n : NodeProto)
    (data target : string) (t : TensorProto) :
  n ∈ node (graph m) ->
  op_type n = "Reshape" ->
  input n !! 0%nat = Some data ->
  find_initializer m data = None ->
  input n !! 1%nat = Some target ->
  find_initializer m target = Some t ->
  dims t = [] \/ head (dims t) = Some 0 ->
  (change_batch_size infer_shapes m (batch_str tok)).1 <> None.
Proof.
  intros Hin Hop H0 Hd H1 Ht Hbad Hnone.
  destruct (change_batch_size infer_shapes m (batch_str tok)) as [o m'] eqn:E.
  simpl in Hnone. subst o.
  apply change_batch_size_ok in E as [H _].
  apply mutate_spec in H as (_ & _ & _ & _ & _ & Hforced).
  assert (Hr : reshapes_into m n target).
  { split; [exact Hop |]. exists data. auto. }
  destruct (Hforced eq_refl tok eq_refl n target t Hin Hr Ht) as (t' & Hp & _).
  apply patched_inv in Hp as (a & zs & d0 & rest & Ha & Hs & Hd0 & _).
  apply extract_data_array in Ha as (ret & _ & Hne & Hre).
  destruct Hbad as [Hbad | Hbad]; [contradiction |].
  apply np_reshape_agrees in Hre. rewrite Hs in Hre.
  destruct (dims t) as [|d ds]; [discriminate |].
  injection Hbad as ->. inversion Hre; subst. lia.
Qed.

Lemma change_batch_size_bad_target_witness :
  (change_batch_size passes scalar_target (batch_str "N")).1 <> None.
Proof.
  apply (change_batch_size_bad_target passes scalar_target "N"
           (mkNode "Reshape" ["x"; "c"] ["y"]) "x" "c"
           (mkTensor "c" INT64 [] [] [7] [])).
  - left.
  - reflexivity.
  - reflexivity.
  - reflexivity.
  - reflexivity.
  - reflexivity.
  - left. reflexivity.
Defined.

(** X12. With an integer batch size too, a call that returns leaves a graph
    on which the same call returns again and changes nothing. *)
Theorem change_batch_size_int_idempotent
    (infer_shapes : ModelProto -> option string)
    (m m' : ModelProto) (k : Z) :
  change_batch_size infer_shapes m (batch_int k) = (None, m') ->
  change_batch_size infer_shapes m' (batch_int k) = (None, m').
Proof.
  intros H. apply change_batch_size_ok in H as [H Hcheck].
  apply mutate_inv in H as (o1 & m1 & H1 & [(Ho1 & <- & _) | (-> & H2)]);
    [contradiction |].
  simpl in H2. injection H2 as <-.
  pose proof (rewrite_shapes_again _ _ _ _ H1 (same_but_initializer_refl m1))
    as Hagain.
  unfold change_batch_size, mutate. rewrite Hagain. simpl.
  by rewrite Hcheck.
Qed.

Lemma change_batch_size_int_idempotent_witness :
  change_batch_size passes
    (change_batch_size passes scenario (batch_int 1)).2 (batch_int 1)
  = (None, (change_batch_size passes scenario (batch_int 1)).2).
Proof.
  apply (change_batch_size_int_idempotent passes scenario _ 1). reflexivity.
Defined.

(** ** One call after another *)

Lemma reshape_step_value_infos (m : ModelProto) (n : NodeProto)
    (vis ins outs : list ValueInfoProto) :
  reshape_step (with_value_infos m vis ins outs) n
  = match reshape_step m n with
    | Ok m' => Ok (with_value_infos m' vis ins outs)
    | Raise e => Raise e
    end.
Proof.
  unfold reshape_step, find_initializer. simpl.
  destruct (negb (String.eqb (op_type n) "Reshape")); [reflexivity |].
  destruct (input n !! 0%nat) as [data|]; [| reflexivity].
  destruct (first_tensor (initializer (graph m)) data); [reflexivity |].
  destruct (input n !! 1%nat) as [target|]; [| reflexivity].
  destruct (first_tensor (initializer (graph m)) target) as [t|];
    [| reflexivity].
  destruct (patched t); reflexivity.
Qed.

Lemma reshape_loop_value_infos (ns : list NodeProto) (m : ModelProto)
    (vis ins outs : list ValueInfoProto) :
  reshape_loop ns (with_value_infos m vis ins outs)
  = ((reshape_loop ns m).1,
     with_value_infos (reshape_loop ns m).2 vis ins outs).
Proof.
  revert m. induction ns as [|n ns IH]; intros m; simpl; [reflexivity |].
  rewrite reshape_step_value_infos.
  destruct (reshape_step m n) as [m'|e]; [apply IH | reflexivity].
Qed.

Lemma rewrite_shapes_ok_form (bs : batch_size) (m m1 : ModelProto) :
  rewrite_shapes bs m = (None, m1) ->
  exists cs vis ins outs,
    constant_outputs (node (graph m)) = Ok cs /\
    let body := rewrite_value_info
                  (list_to_set (map name (initializer (graph m))))
                  (list_to_set cs) bs in
    for_each body (value_info (graph m)) = (None, vis) /\
    for_each body (g_input (graph m)) = (None, ins) /\
    for_each body (g_output (graph m)) = (None, outs) /\
    m1 = with_value_infos m vis ins outs.
Proof.
  unfold rewrite_shapes.
  destruct (constant_outputs (node (graph m))) as [cs|e]; [| discriminate].
  destruct (for_each _ (value_info (graph m))) as [[e1|] vis] eqn:E1;
    [discriminate |].
  destruct (for_each _ (g_input (graph m))) as [[e2|] ins] eqn:E2;
    [discriminate |].
  destruct (for_each _ (g_output (graph m))) as [o3 outs] eqn:E3.
  intros [= -> <-]. exists cs, vis, ins, outs. auto.
Qed.

Lemma rewrite_shapes_intro (bs : batch_size) (m : ModelProto)
    (cs : list string) (vis ins outs : list ValueInfoProto) :
  constant_outputs (node (graph m)) = Ok cs ->
  let body := rewrite_value_info
                (list_to_set (map name (initializer (graph m))))
                (list_to_set cs) bs in
  for_each body (value_info (graph m)) = (None, vis) ->
  for_each body (g_input (graph m)) = (None, ins) ->
  for_each body (g_output (graph m)) = (None, outs) ->
  rewrite_shapes bs m = (None, with_value_infos m vis ins outs).
Proof.
  intros Hcs body H1 H2 H3. unfold rewrite_shapes. rewrite Hcs.
  fold body. by rewrite H1, H2, H3.
Qed.

Lemma rewrite_value_info_str_total (I C : gset string) (tok : string)
    (v : ValueInfoProto) :
  exists v', rewrite_value_info I C (batch_str tok) v = Ok v'.
Proof.
  unfold rewrite_value_info. repeat case_match; by eexists.
Qed.

Lemma for_each_total {A} (body : A -> result A) (l : list A) :
  (forall x, exists x', body x = Ok x') ->
  exists l', for_each body l = (None, l').
Proof.
  intros Htot. induction l as [|x l [l' IH]]; simpl; [by eexists |].
  destruct (Htot x) as [x' ->]. rewrite IH. by eexists.
Qed.

Lemma rewrite_value_info_overwrite (I C : gset string) (a b : string)
    (x xa xb : ValueInfoProto) :
  rewrite_value_info I C (batch_str a) x = Ok xa ->
  rewrite_value_info I C (batch_str b) x = Ok xb ->
  rewrite_value_info I C (batch_str b) xa = Ok xb.
Proof.
  unfold rewrite_value_info.
  destruct (bool_decide (vi_name x ∈ I) || bool_decide (vi_name x ∈ C)) eqn:E.
  - intros [= <-] [= <-]. by rewrite E.
  - destruct (shape_dim x) as [|d rest] eqn:Hs.
    + intros [= <-] [= <-]. by rewrite E, Hs.
    + simpl. intros [= <-] [= <-]. simpl. by rewrite E.
Qed.

Lemma for_each_overwrite {A} (fa fb : A -> result A) (l la lb : list A) :
  (forall x xa xb, fa x = Ok xa -> fb x = Ok xb -> fb xa = Ok xb) ->
  for_each fa l = (None, la) -> for_each fb l = (None, lb) ->
  for_each fb la = (None, lb).
Proof.
  intros Hov. revert la lb. induction l as [|x l IH]; intros la lb Ha Hb;
    simpl in *.
  - injection Ha as <-. injection Hb as <-. reflexivity.
  - destruct (fa x) as [xa|] eqn:Ea; [| discriminate].
    destruct (fb x) as [xb|] eqn:Eb; [| discriminate].
    destruct (for_each fa l) as [oa ra] eqn:Ra.
    destruct (for_each fb l) as [ob rb] eqn:Rb.
    injection Ha as -> <-. injection Hb as -> <-. simpl.
    rewrite (Hov _ _ _ Ea Eb), (IH ra rb eq_refl eq_refl). reflexivity.
Qed.

Lemma mutate_str_again (a b : string) (m m1 : ModelProto) :
  mutate (batch_str a) m = (None, m1) ->
  mutate (batch_str b) m1 = mutate (batch_str b) m.
Proof.
  intros H.
  apply mutate_inv in H as (o1 & mA & HA & [(Ho1 & <- & _) | (-> & H2)]);
    [contradiction |].
  simpl in H2.
  apply rewrite_shapes_ok_form in HA
    as (cs & visA & insA & outsA & Hcs & Ev & Ei & Eo & ->).
  simpl in H2. rewrite reshape_loop_value_infos in H2.
  destruct (reshape_loop (node (graph m)) m) as [o0 m0] eqn:L0.
  simpl in H2. injection H2 as -> <-.
  pose proof (reshape_loop_rel _ _ _ _ L0) as [(Hn & _ & _ & _ & Hnames) _].
  set (I := list_to_set (map name (initializer (graph m))) : gset string) in *.
  set (C := list_to_set cs : gset string) in *.
  destruct (for_each_total (rewrite_value_info I C (batch_str b))
              (value_info (graph m))) as [visB Bv];
    [apply rewrite_value_info_str_total |].
  destruct (for_each_total (rewrite_value_info I C (batch_str b))
              (g_input (graph m))) as [insB Bi];
    [apply rewrite_value_info_str_total |].
  destruct (for_each_total (rewrite_value_info I C (batch_str b))
              (g_output (graph m))) as [outsB Bo];
    [apply rewrite_value_info_str_total |].
  (* the direct call *)
  assert (Hm : mutate (batch_str b) m
               = (None, with_value_infos m0 visB insB outsB)).
  { unfold mutate.
    rewrite (rewrite_shapes_intro (batch_str b) m cs visB insB outsB Hcs Bv Bi Bo).
    simpl. rewrite reshape_loop_value_infos, L0. reflexivity. }
  rewrite Hm.
  (* the call on the rewritten graph *)
  unfold mutate.
  rewrite (rewrite_shapes_intro (batch_str b)
             (with_value_infos m0 visA insA outsA) cs visB insB outsB).
  - change (with_value_infos (with_value_infos m0 visA insA outsA)
              visB insB outsB)
      with (with_value_infos m0 visB insB outsB).
    cbn [patch_reshapes].
    change (node (graph (with_value_infos m0 visB insB outsB)))
      with (node (graph m0)).
    rewrite Hn, reshape_loop_value_infos.
    rewrite (reshape_loop_again (node (graph m)) m0);
      [reflexivity | exact (reshape_loop_fixed _ _ _ L0)].
  - simpl. by rewrite Hn.
  - simpl. rewrite Hnames. fold I C.
    eapply for_each_overwrite; [| exact Ev | exact Bv].
    intros x xa xb. apply rewrite_value_info_overwrite.
  - simpl. rewrite Hnames. fold I C.
    eapply for_each_overwrite; [| exact Ei | exact Bi].
    intros x xa xb. apply rewrite_value_info_overwrite.
  - simpl. rewrite Hnames. fold I C.
    eapply for_each_overwrite; [| exact Eo | exact Bo].
    intros x xa xb. apply rewrite_value_info_overwrite.
Qed.

(** X13. The last token wins: after a symbolic call that returns, a second
    symbolic call with another token has the same outcome and leaves the
    same graph as that second call made on the original graph. *)
Theorem change_batch_size_last_token
    (infer_shapes : ModelProto -> option string)
    (m m1 : ModelProto) (a b : string) :
  change_batch_size infer_shapes m (batch_str a) = (None, m1) ->
  change_batch_size infer_shapes m1 (batch_str b)
  = change_batch_size infer_shapes m (batch_str b).
Proof.
  intros H. apply change_batch_size_ok in H as [H _].
  unfold change_batch_size. by rewrite (mutate_str_again a b m m1 H).
Qed.

Lemma change_batch_size_last_token_witness :
  change_batch_size passes
    (change_batch_size passes scenario (batch_str "N")).2 (batch_str "M")
  = change_batch_size passes scenario (batch_str "M").
Proof.
  apply (change_batch_size_last_token passes scenario _ "N" "M"). reflexivity.
Defined.

(** ** Lookups after a rewrite *)

Lemma first_value_info_rel (R : ValueInfoProto -> ValueInfoProto -> Prop)
    (l l' : list ValueInfoProto) (nm : string) :
  (forall v v', R v v' -> vi_name v' = vi_name v) ->
  Forall2 R l l' ->
  match first_value_info l nm, first_value_info l' nm with
  | Some v, Some v' => R v v'
  | None, None => True
  | _, _ => False
  end.
Proof.
  intros Hname H. induction H as [|v v' l l' Hv _ IH]; simpl; [exact I |].
  rewrite (Hname _ _ Hv).
  destruct (String.eqb (vi_name v) nm); [exact Hv | exact IH].
Qed.

(** X14. [change_batch_size] never changes which names
    [find_tensor_value_info] resolves: whatever the outcome of the call, a
    lookup that failed still fails with the same error, and a lookup that
    succeeded returns the record at the same place, either as it was or with
    the token as its dimension 0. *)
Theorem find_tensor_value_info_after
    (infer_shapes : ModelProto -> option string)
    (m : ModelProto) (bs : batch_size) (nm : string) :
  let m' := (change_batch_size infer_shapes m bs).2 in
  match find_tensor_value_info m nm, find_tensor_value_info m' nm with
  | Ok v, Ok v' => v' = v \/ v' = with_token bs v
  | Raise e, Raise e' => e' = e
  | _, _ => False
  end.
Proof.
  intros m'.
  destruct (change_batch_size_state infer_shapes m bs) as [o H]. fold m' in H.
  apply mutate_spec in H as (_ & _ & Hv & _).
  assert (Hc : Forall2 (visited m bs) (chain (graph m)) (chain (graph m'))).
  { unfold chain. repeat apply Forall2_app; apply Hv; simpl; auto. }
  unfold find_tensor_value_info.
  set (target := if endswith nm before_merge
                 then drop_last (String.length before_merge) nm else nm).
  pose proof (first_value_info_rel (visited m bs) _ _ target
                (fun v v' Hvv => proj1 (visited_frame m bs v v' Hvv)) Hc) as Hrel.
  destruct (first_value_info (chain (graph m)) target),
           (first_value_info (chain (graph m')) target); try contradiction.
  - destruct Hrel as [-> | [_ ->]]; auto.
  - reflexivity.
Qed.

(** X15. For a name that does not itself end with "_before_merge", the
    lookup of its pre-merge variant is the lookup of the name: the same
    record, or the same error. *)
Theorem find_tensor_value_info_before_merge (onnx_model : ModelProto)
    (nm : string) :
  (forall p, nm <> p +:+ "_before_merge") ->
  find_tensor_value_info onnx_model (nm +:+ "_before_merge")
  = find_tensor_value_info onnx_model nm.
Proof.
  intros Hno. unfold find_tensor_value_info, before_merge.
  replace (endswith (nm +:+ "_before_merge") "_before_merge") with true
    by (symmetry; apply endswith_iff; eauto).
  rewrite (drop_last_app nm "_before_merge").
  destruct (endswith nm "_before_merge") eqn:E; [| reflexivity].
  apply endswith_iff in E as [p Hp]. destruct (Hno p Hp).
Qed.

Lemma find_tensor_value_info_before_merge_witness :
  find_tensor_value_info scenario ("x" +:+ "_before_merge")
  = find_tensor_value_info scenario "x".
Proof.
  apply (find_tensor_value_info_before_merge scenario "x").
  intros p Hp. apply (f_equal String.length) in Hp.
  rewrite string_length_app in Hp. simpl in Hp. lia.
Defined.

(** * The graph surgery of [prepare_model_and_data] *)

Lemma delete_loop_scan (keys : list string) (fuel : nat)
    (pre l : list ValueInfoProto) :
  (length l <= fuel)%nat ->
  delete_loop fuel (length pre) keys (pre ++ l) = pre ++ scan_mapped keys l.
Proof.
  revert pre l. induction fuel as [|fuel IH]; intros pre l Hfuel.
  - destruct l; [reflexivity | simpl in Hfuel; lia].
  - cbn [delete_loop]. rewrite lookup_app_r by lia.
    rewrite Nat.sub_diag.
    destruct l as [|x rest]; [reflexivity |]. cbn [lookup list_lookup].
    simpl in Hfuel. cbn [scan_mapped].
    destruct (in_strings (vi_name x) keys).
    + replace (delete (length pre) (pre ++ x :: rest)) with (pre ++ rest).
      2:{ rewrite delete_middle. reflexivity. }
      destruct rest as [|y rest'].
      * rewrite app_nil_r. destruct fuel; cbn [delete_loop]; [reflexivity |].
        by rewrite lookup_ge_None_2 by lia.
      * replace (S (length pre)) with (length (pre ++ [y]))
          by (rewrite length_app; simpl; lia).
        replace (pre ++ y :: rest') with ((pre ++ [y]) ++ rest')
          by (by rewrite <- app_assoc).
        rewrite IH by (simpl in Hfuel; lia).
        by rewrite <- app_assoc.
    + replace (S (length pre)) with (length (pre ++ [x]))
        by (rewrite length_app; simpl; lia).
      replace (pre ++ x :: rest) with ((pre ++ [x]) ++ rest)
        by (by rewrite <- app_assoc).
      rewrite IH by lia. by rewrite <- app_assoc.
Qed.

Lemma delete_mapped_scan (keys : list string) (l : list ValueInfoProto) :
  delete_mapped keys l = scan_mapped keys l.
Proof.
  unfold delete_mapped. apply (delete_loop_scan keys (length l) [] l). lia.
Qed.

(** X16. The loop that deletes the mapped graph inputs while it iterates
    over them: a record that is not named by a key is kept and the loop goes
    on; a record named by a key is deleted, and the record right after it is
    kept without being looked at. *)
Theorem delete_mapped_skips (keys : list string) (x y : ValueInfoProto)
    (rest : list ValueInfoProto) :
  (in_strings (vi_name x) keys = false ->
   delete_mapped keys (x :: rest) = x :: delete_mapped keys rest) /\
  (in_strings (vi_name x) keys = true ->
   delete_mapped keys (x :: y :: rest) = y :: delete_mapped keys rest) /\
  (in_strings (vi_name x) keys = true -> delete_mapped keys [x] = []).
Proof.
  rewrite !delete_mapped_scan. cbn [scan_mapped].
  repeat split; intros ->; reflexivity.
Qed.

Lemma scan_mapped_filter (keys : list string) (n : nat) :
  forall l, (length l <= n)%nat -> no_mapped_neighbours keys l ->
  scan_mapped keys l
  = List.filter (fun v => negb (in_strings (vi_name v) keys)) l.
Proof.
  induction n as [|n IH]; intros l Hlen Hno.
  - destruct l; [reflexivity | simpl in Hlen; lia].
  - destruct l as [|x rest]; [reflexivity |]. simpl in Hlen.
    assert (Hrest : no_mapped_neighbours keys rest).
    { intros i a c Ha Hc. exact (Hno (S i) a c Ha Hc). }
    cbn [scan_mapped List.filter].
    destruct (in_strings (vi_name x) keys) eqn:Ex; cbn [negb].
    + destruct rest as [|y rest']; [reflexivity |].
      pose proof (Hno 0%nat x y eq_refl eq_refl Ex) as Ey.
      cbn [List.filter]. rewrite Ey. cbn [negb]. f_equal.
      apply IH; [simpl in Hlen; lia |].
      intros i a c Ha Hc. exact (Hrest (S i) a c Ha Hc).
    + f_equal. apply IH; [lia | exact Hrest].
Qed.

(** X17. When no two neighbouring graph inputs are both named by a key, the
    deletion loop removes exactly the inputs named by a key. *)
Theorem delete_mapped_filter (keys : list string) (l : list ValueInfoProto) :
  no_mapped_neighbours keys l ->
  delete_mapped keys l
  = List.filter (fun v => negb (in_strings (vi_name v) keys)) l.
Proof.
  intros Hno. rewrite delete_mapped_scan.
  by apply (scan_mapped_filter keys (length l)).
Qed.

Lemma delete_mapped_filter_witness :
  delete_mapped ["a"; "b"]
    [mkValueInfo "a" FLOAT []; mkValueInfo "x" FLOAT [];
     mkValueInfo "b" FLOAT []]
  = [mkValueInfo "x" FLOAT []].
Proof.
  apply (delete_mapped_filter ["a"; "b"]
           [mkValueInfo "a" FLOAT []; mkValueInfo "x" FLOAT [];
            mkValueInfo "b" FLOAT []]).
  intros [|[|[|i]]] x y Hx Hy Hk; simpl in Hx, Hy;
    try discriminate; injection Hx as <-; injection Hy as <-;
    first [reflexivity | discriminate Hk].
Defined.

Lemma scan_mapped_no_keys (l : list ValueInfoProto) : scan_mapped [] l = l.
Proof.
  induction l as [|x l IH]; [reflexivity |].
  cbn [scan_mapped]. unfold in_strings.
  rewrite bool_decide_eq_false_2 by apply not_elem_of_nil. by rewrite IH.
Qed.

Lemma rewire_no_mapping (n : NodeProto) : rewire [] [] n = n.
Proof.
  destruct n as [op ins outs]. unfold rewire.
  cbn [op_type input output dict_get]. f_equal.
  - apply map_id.
  - rewrite <- (map_id outs) at 2. apply map_ext. intros o.
    unfold in_strings. by rewrite bool_decide_eq_false_2 by apply not_elem_of_nil.
Qed.

(** X18. With an empty input mapping (the default of ModelData, which the
    MNIST and CIFAR-10 loaders return) the surgery changes nothing and
    cannot fail. *)
Theorem remap_inputs_no_mapping (model : ModelProto) :
  remap_inputs [] model = Ok model.
Proof.
  unfold remap_inputs. cbn [map append_new_inputs bind].
  rewrite delete_mapped_scan, scan_mapped_no_keys.
  destruct model as [[ns inits vis ins outs]].
  unfold with_nodes, with_value_infos. simpl.
  replace (map (rewire [] []) ns) with ns; [reflexivity |].
  rewrite <- (map_id ns) at 1. apply map_ext. intros n.
  by rewrite rewire_no_mapping.
Qed.

Lemma first_value_info_app (l1 l2 : list ValueInfoProto) (nm : string) :
  first_value_info (l1 ++ l2) nm
  = match first_value_info l1 nm with
    | Some v => Some v
    | None => first_value_info l2 nm
    end.
Proof.
  induction l1 as [|x l1 IH]; simpl; [reflexivity |].
  destruct (String.eqb (vi_name x) nm); [reflexivity | exact IH].
Qed.

Lemma first_value_info_name (l : list ValueInfoProto) (nm : string) v :
  first_value_info l nm = Some v -> vi_name v = nm.
Proof.
  induction l as [|x l IH]; simpl; [discriminate |].
  destruct (String.eqb_spec (vi_name x) nm); [by intros [= <-] | exact IH].
Qed.

(** Appending a copy of a record that a lookup returned changes no lookup. *)
Lemma first_value_info_append (g : GraphProto) (v : ValueInfoProto)
    (nm0 nm : string) :
  first_value_info (chain g) nm0 = Some v ->
  first_value_info (value_info g ++ (g_input g ++ [v]) ++ g_output g) nm
  = first_value_info (chain g) nm.
Proof.
  intros Hv. pose proof (first_value_info_name _ _ _ Hv) as Hn.
  unfold chain in *. rewrite !first_value_info_app in Hv.
  rewrite !first_value_info_app. simpl.
  destruct (first_value_info (value_info g) nm) eqn:E1; [reflexivity |].
  destruct (first_value_info (g_input g) nm) eqn:E2; [reflexivity |].
  destruct (String.eqb_spec (vi_name v) nm) as [E | E]; [| reflexivity].
  assert (Heq : nm0 = nm) by congruence.
  rewrite Heq, E1, E2 in Hv. by rewrite Hv.
Qed.

Lemma find_tensor_value_info_append (m : ModelProto) (v : ValueInfoProto)
    (nm0 nm : string) :
  find_tensor_value_info m nm0 = Ok v ->
  find_tensor_value_info (append_input m v) nm = find_tensor_value_info m nm.
Proof.
  unfold find_tensor_value_info. intros H.
  destruct (first_value_info (chain (graph m)) _) as [v0|] eqn:E;
    [| discriminate].
  injection H as ->. unfold append_input, with_value_infos, chain at 1. simpl.
  by rewrite (first_value_info_append _ _ _ _ E).
Qed.

Lemma append_new_inputs_raise (new_inputs : list string) (m : ModelProto)
    (e : exn) :
  append_new_inputs new_inputs m = Raise e <->
  exists before nm after,
    new_inputs = before ++ nm :: after /\
    Forall (fun x => exists v, find_tensor_value_info m x = Ok v) before /\
    find_tensor_value_info m nm = Raise e.
Proof.
  revert m. induction new_inputs as [|x rest IH]; intros m; simpl.
  - split; [discriminate |]. intros (before & nm & after & H & _).
    destruct before; discriminate.
  - destruct (find_tensor_value_info m x) as [v|e0] eqn:Ex; simpl.
    + rewrite IH. split.
      * intros (before & nm & after & -> & Hall & Hnm).
        exists (x :: before), nm, after. split; [reflexivity |]. split.
        -- constructor; [eauto |].
           eapply Forall_impl; [exact Hall |]. intros y [w Hw].
           rewrite (find_tensor_value_info_append m v x y Ex) in Hw. eauto.
        -- by rewrite (find_tensor_value_info_append m v x nm Ex) in Hnm.
      * intros ([|y before] & nm & after & H & Hall & Hnm); simpl in H.
        -- injection H as -> _. congruence.
        -- injection H as <- ->. inversion Hall; subst.
           exists before, nm, after. split; [reflexivity |]. split.
           ++ eapply Forall_impl; [eassumption |]. intros z [w Hw].
              rewrite (find_tensor_value_info_append m v _ z Ex). eauto.
           ++ by rewrite (find_tensor_value_info_append m v _ nm Ex).
    + split.
      * intros [= <-]. exists [], x, rest. auto.
      * intros ([|y before] & nm & after & H & Hall & Hnm); simpl in H.
        -- injection H as -> _. congruence.
        -- injection H as <- ->. inversion Hall as [|? ? [w Hw] ?]; subst.
           congruence.
Qed.

(** X19. The surgery fails exactly when some value of the input mapping does
    not resolve to a ValueInfo of the graph as it was loaded (the records it
    appends on the way make no difference), and the error is the not-found
    error of the first such value. *)
Theorem remap_inputs_raise (mapping : list (string * string))
    (model : ModelProto) (e : exn) :
  remap_inputs mapping model = Raise e <->
  exists before nm after,
    map snd mapping = before ++ nm :: after /\
    Forall (fun x => exists v, find_tensor_value_info model x = Ok v) before /\
    find_tensor_value_info model nm = Raise e.
Proof.
  rewrite <- append_new_inputs_raise. unfold remap_inputs.
  destruct (append_new_inputs (map snd mapping) model); simpl;
    split; congruence.
Qed.

Lemma dict_get_cases (d : list (string * string)) (k : string) :
  (dict_get d k k = k /\ k ∉ map fst d) \/ dict_get d k k ∈ map snd d.
Proof.
  induction d as [|[k0 v0] d IH]; simpl.
  - left. split; [reflexivity | apply not_elem_of_nil].
  - destruct (String.eqb_spec k0 k) as [-> | Hne].
    + right. left.
    + destruct IH as [[H1 H2] | H].
      * left. split; [exact H1 |]. rewrite not_elem_of_cons. auto.
      * right. by right.
Qed.

Lemma remap_inputs_nodes (mapping : list (string * string))
    (model m' : ModelProto) :
  remap_inputs mapping model = Ok m' ->
  node (graph m')
  = map (rewire mapping (map snd mapping)) (node (graph model)).
Proof.
  unfold remap_inputs. intros H. apply bind_ok in H as (m & Hm & [= <-]).
  simpl. f_equal.
  clear -Hm. revert model Hm.
  induction (map snd mapping) as [|x rest IH]; intros model Hm; simpl in Hm.
  - by injection Hm as ->.
  - apply bind_ok in Hm as (v & _ & Hm). by rewrite (IH _ Hm).
Qed.

(** X20. After a surgery that succeeds no node reads an input named by a key
    of the mapping any more, provided no value of the mapping is itself a
    key: every such input has been replaced by the value mapped to it. *)
Theorem remap_inputs_rewires (mapping : list (string * string))
    (model m' : ModelProto) (n : NodeProto) (inp : string) :
  (forall v, v ∈ map snd mapping -> v ∉ map fst mapping) ->
  remap_inputs mapping model = Ok m' ->
  n ∈ node (graph m') -> inp ∈ input n ->
  inp ∉ map fst mapping.
Proof.
  intros Hdisj H Hn Hinp.
  rewrite (remap_inputs_nodes _ _ _ H) in Hn.
  apply list_elem_of_In, in_map_iff in Hn as (n0 & <- & _).
  simpl in Hinp. apply list_elem_of_In, in_map_iff in Hinp as (k & <- & _).
  destruct (dict_get_cases mapping k) as [[-> Hk] | Hv]; auto.
Qed.

Lemma remap_inputs_rewires_witness :
  "Mfcc:0"%string ∉ map fst speech_mapping.
Proof.
  apply (remap_inputs_rewires speech_mapping speech_graph
           (mkModel (mkGraph
              [mkNode "MatMul" ["Mfcc:0"; "W"] ["h"]]
              [mkTensor "W" FLOAT [2] [0; 0] [] []]
              [mkValueInfo "Mfcc:0" FLOAT (fixed_dims [1; 490])]
              [mkValueInfo "Mfcc:0" FLOAT (fixed_dims [1; 490])]
              [mkValueInfo "h" FLOAT (fixed_dims [1; 2])]))
           (mkNode "MatMul" ["Mfcc:0"; "W"] ["h"]) "Mfcc:0").
  - intros v Hv Hk. simpl in Hv, Hk.
    apply list_elem_of_singleton in Hv as ->.
    apply list_elem_of_singleton in Hk. discriminate.
  - reflexivity.
  - left.
  - left.
Defined.

Lemma is_initializer_name_names (m : ModelProto) (nm : string) :
  is_initializer_name m nm <-> nm ∈ map name (initializer (graph m)).
Proof.
  rewrite list_elem_of_In, in_map_iff. unfold is_initializer_name.
  split; intros (t & H1 & H2); exists t; rewrite list_elem_of_In in *; auto.
Qed.

Lemma is_constant_same (m m' : ModelProto) (v v' : ValueInfoProto) :
  node (graph m') = node (graph m) ->
  map name (initializer (graph m')) = map name (initializer (graph m)) ->
  vi_name v' = vi_name v ->
  is_constant m' v' <-> is_constant m v.
Proof.
  intros Hn Hi Hv. unfold is_constant, is_constant_name.
  rewrite !is_initializer_name_names, Hn, Hi, Hv. reflexivity.
Qed.

Lemma is_constant_decidable (m : ModelProto) (v : ValueInfoProto) :
  is_constant m v \/ ~ is_constant m v.
Proof.
  unfold is_constant, is_constant_name.
  rewrite is_initializer_name_names.
  destruct (decide (vi_name v ∈ map name (initializer (graph m))));
    [tauto |].
  destruct (decide (Exists (fun n => op_type n = "Constant" /\
                                     output n !! 0%nat = Some (vi_name v))
                      (node (graph m)))) as [He | He].
  - left; right. apply Exists_exists in He. exact He.
  - right. intros [? | Hex]; [contradiction |].
    apply He, Exists_exists. exact Hex.
Qed.

(** X21. The model that prepare_model_and_data returns has passed the
    checker and the shape inference, carries the symbolic batch size "N" as
    dimension 0 of every ValueInfo that has a dimension and is not named
    after an initializer or a Constant output, and a further
    change_batch_size(model, 'N') would leave it as it is; the data are
    returned as they were loaded. *)
Theorem prepare_model_and_data_batched {array : Type}
    (optimize : ModelProto -> string + ModelProto)
    (infer_shapes check_model : ModelProto -> option string)
    (model m' : ModelProto) (model_data data' : ModelData array) :
  prepare_model_and_data optimize infer_shapes check_model model model_data
  = inr (m', data') ->
  data' = model_data /\
  check_model m' = None /\ infer_shapes m' = None /\
  change_batch_size infer_shapes m' (batch_str "N") = (None, m') /\
  forall field v' d rest,
    In field fields -> v' ∈ field (graph m') -> ~ is_constant m' v' ->
    shape_dim v' = d :: rest -> value d = dim_param "N".
Proof.
  unfold prepare_model_and_data. intros H.
  destruct (remap_inputs _ model) as [m1|]; [| discriminate].
  destruct (optimize m1) as [|m2]; [discriminate |].
  destruct (change_batch_size infer_shapes m2 (batch_str "N"))
    as [[e|] m3] eqn:E; [discriminate |].
  destruct (check_model m3) eqn:Hcheck; [discriminate |].
  injection H as <- <-.
  apply change_batch_size_ok in E as [Hm Hinfer].
  split; [reflexivity |]. split; [exact Hcheck |]. split; [exact Hinfer |].
  split.
  - unfold change_batch_size.
    rewrite (mutate_str_again "N" "N" m2 m3 Hm), Hm, Hinfer. reflexivity.
  - intros field v' d rest Hfield Hv' Hnc Hs.
    apply mutate_spec in Hm as (Hn & Hi & _ & Hr & _).
    specialize (Hr eq_refl field Hfield).
    apply list_elem_of_lookup in Hv' as [i Hi'].
    destruct (Forall2_lookup_r _ _ _ _ _ Hr Hi') as (v & _ & Hkeep & Hrew).
    destruct (is_constant_decidable m2 v) as [Hc | Hc].
    + exfalso. apply Hnc. rewrite (Hkeep Hc).
      apply (is_constant_same m2 m3 v v Hn Hi eq_refl). exact Hc.
    + rewrite (Hrew Hc) in Hs. unfold with_token in Hs.
      destruct (shape_dim v) as [|d0 rest0] eqn:E0.
      * rewrite E0 in Hs. discriminate.
      * simpl in Hs. by injection Hs as <- _.
Qed.

Lemma prepare_model_and_data_batched_witness :
  speech_data = speech_data /\
  passes prepared_speech = None /\ passes prepared_speech = None /\
  change_batch_size passes prepared_speech (batch_str "N")
  = (None, prepared_speech) /\
  forall field v' d rest,
    In field fields -> v' ∈ field (graph prepared_speech) ->
    ~ is_constant prepared_speech v' ->
    shape_dim v' = d :: rest -> value d = dim_param "N".
Proof.
  apply (prepare_model_and_data_batched keeps passes passes speech_graph
           prepared_speech speech_data speech_data).
  reflexivity.
Defined.

(** * The data loaders *)

Lemma mnist_loop_window {array : Type} (parse_line : string -> option (Z * array))
    (lines : list string) :
  forall start counter limit,
  mnist_loop parse_line lines start limit counter
  = collect (fun line => match parse_line line with
                         | Some item => inr item
                         | None => inl ValueError
                         end)
      (let rest := drop (Z.to_nat start) lines in
       match limit with
       | Some lim => take (Z.to_nat (Z.max (lim - counter) 1)) rest
       | None => rest
       end).
Proof.
  induction lines as [|line rest IH]; intros start counter limit.
  - cbn [mnist_loop]. rewrite drop_nil. destruct limit; [rewrite take_nil |];
      reflexivity.
  - cbn [mnist_loop]. destruct (Z.ltb_spec 0 start) as [Hs | Hs].
    + rewrite IH. replace (Z.to_nat start) with (S (Z.to_nat (start - 1)))
        by lia.
      reflexivity.
    + replace (Z.to_nat start) with O by lia. rewrite drop_0.
      destruct limit as [lim|].
      * replace (Z.to_nat (Z.max (lim - counter) 1))
          with (S (Z.to_nat (Z.max (lim - counter) 1) - 1)) by lia.
        cbn [take collect].
        destruct (parse_line line) as [item|]; [| reflexivity].
        destruct (Z.leb_spec lim (counter + 1)) as [Hl | Hl].
        -- replace (Z.to_nat (Z.max (lim - counter) 1) - 1)%nat with O by lia.
           rewrite take_0. reflexivity.
        -- rewrite IH. replace (Z.to_nat start) with O by lia. rewrite drop_0.
           replace (Z.to_nat (Z.max (lim - (counter + 1)) 1))
             with (Z.to_nat (Z.max (lim - counter) 1) - 1)%nat by lia.
           reflexivity.
      * cbn [collect]. destruct (parse_line line) as [item|]; [| reflexivity].
        rewrite IH. replace (Z.to_nat start) with O by lia. rewrite drop_0.
        reflexivity.
Qed.

(** X22. load_data_mnist skips [start] lines without parsing them, then
    parses the following lines: all of them without a limit, and otherwise as
    many as the limit says but never fewer than one. It fails with
    ValueError exactly when one of the lines it parses is malformed. *)
Theorem load_data_mnist_window {array : Type}
    (parse_line : string -> option (Z * array))
    (lines : list string) (start : Z) (limit : option Z) :
  load_data_mnist parse_line lines start limit
  = match collect (fun line => match parse_line line with
                               | Some item => inr item
                               | None => inl ValueError
                               end)
            (mnist_window start limit lines) with
    | inl e => inl e
    | inr items => inr (mkModelData (map fst items) (map snd items) [])
    end.
Proof.
  unfold load_data_mnist, mnist_window. rewrite mnist_loop_window.
  destruct limit as [lim|]; [rewrite Z.sub_0_r |]; reflexivity.
Qed.

(** X23. With a limit of 1 or less (0 and negative limits included)
    load_data_mnist returns exactly one sample, the one parsed from the first
    line after the skipped ones. *)
Theorem load_data_mnist_small_limit {array : Type}
    (parse_line : string -> option (Z * array))
    (lines : list string) (start lim : Z) (line : string) (item : Z * array) :
  lim <= 1 ->
  lines !! Z.to_nat start = Some line ->
  parse_line line = Some item ->
  load_data_mnist parse_line lines start (Some lim)
  = inr (mkModelData [item.1] [item.2] []).
Proof.
  intros Hlim Hline Hparse. unfold load_data_mnist.
  rewrite mnist_loop_window. cbn zeta.
  replace (Z.to_nat (Z.max (lim - 0) 1)) with 1%nat by lia.
  rewrite (drop_S _ _ _ Hline). cbn [take collect]. rewrite Hparse.
  rewrite take_0. reflexivity.
Qed.

Lemma load_data_mnist_small_limit_witness :
  load_data_mnist (fun line => if String.eqb line "bad" then None
                               else Some (7, line))
    ["bad"; "a"; "b"; "c"] 1 (Some 0)
  = inr (mkModelData [7] ["a"%string] []).
Proof.
  apply (load_data_mnist_small_limit
           (fun line => if String.eqb line "bad" then None else Some (7, line))
           ["bad"; "a"; "b"; "c"] 1 0 "a" (7, "a"%string)).
  - lia.
  - reflexivity.
  - reflexivity.
Defined.

Lemma py_slice_nonneg {A} (l : list A) (lo n : Z) :
  0 <= lo -> 0 <= n ->
  py_slice l lo (lo + n) = take (Z.to_nat n) (drop (Z.to_nat lo) l).
Proof.
  intros Hlo Hn. unfold py_slice.
  destruct (Z.ltb_spec lo 0); [lia |].
  destruct (Z.ltb_spec (lo + n) 0); [lia |].
  destruct (Z_lt_le_dec (Z.of_nat (length l)) lo) as [Hbig | Hsmall].
  - rewrite !drop_ge by lia. by rewrite !take_nil.
  - replace (Z.min lo (Z.of_nat (length l))) with lo by lia.
    destruct (Z_lt_le_dec (Z.of_nat (length l)) (lo + n)) as [Hhi | Hhi].
    + rewrite !take_ge; [reflexivity | |]; rewrite length_drop; lia.
    + replace (Z.min (lo + n) (Z.of_nat (length l)) - lo) with n by lia.
      reflexivity.
Qed.

Lemma py_slice_length {A B} (l : list A) (k : list B) (lo hi : Z) :
  length l = length k -> length (py_slice l lo hi) = length (py_slice k lo hi).
Proof.
  intros H. unfold py_slice. rewrite !length_take, !length_drop, H. reflexivity.
Qed.

Lemma collect_length {A B} (body : A -> loader_exn + B) (l : list A)
    (ys : list B) :
  collect body l = inr ys -> length ys = length l.
Proof.
  revert ys. induction l as [|x l IH]; intros ys; simpl.
  - by intros [= <-].
  - destruct (body x); [discriminate |].
    destruct (collect body l); [discriminate |].
    intros [= <-]. simpl. f_equal. by apply IH.
Qed.

(** X24. load_data_cifar10 returns as many images as labels whenever the
    batch file has as many rows as labels, whatever the start and the limit
    (negative ones included): labels and images stay aligned. *)
Theorem load_data_cifar10_aligned {array row : Type}
    (row_image : row -> option array)
    (test_labels : list Z) (test_data : list row)
    (start : Z) (limit : option Z) (md : ModelData array) :
  length test_labels = length test_data ->
  load_data_cifar10 row_image test_labels test_data start limit = inr md ->
  length (labels md) = length (images md).
Proof.
  intros Hlen. unfold load_data_cifar10.
  destruct (collect _ _) as [|ims] eqn:E; [discriminate |].
  intros [= <-]. simpl. apply collect_length in E. rewrite E.
  by apply py_slice_length.
Qed.

Lemma load_data_cifar10_aligned_witness :
  length [8; 9] = length ["r3"%string; "r4"%string].
Proof.
  apply (load_data_cifar10_aligned (fun r : string => Some r)
           [1; 2; 3; 8; 9] ["r0"; "r1"; "r2"; "r3"; "r4"]%string 3 None
           (mkModelData [8; 9] ["r3"; "r4"]%string [])).
  - reflexivity.
  - reflexivity.
Defined.

(** X25. For a start and a limit that are not negative, load_data_cifar10
    returns the labels at the positions start, ..., start+limit-1 that exist,
    and the images made of the rows at those positions. *)
Theorem load_data_cifar10_window {array row : Type}
    (row_image : row -> option array)
    (test_labels : list Z) (test_data : list row)
    (start lim : Z) (md : ModelData array) :
  0 <= start -> 0 <= lim ->
  load_data_cifar10 row_image test_labels test_data start (Some lim) = inr md ->
  labels md = take (Z.to_nat lim) (drop (Z.to_nat start) test_labels) /\
  Forall2 (fun r im => row_image r = Some im)
    (take (Z.to_nat lim) (drop (Z.to_nat start) test_data)) (images md).
Proof.
  intros Hs Hl. unfold load_data_cifar10.
  rewrite !py_slice_nonneg by assumption.
  destruct (collect _ _) as [|ims] eqn:E; [discriminate |].
  intros [= <-]. simpl. split; [reflexivity |].
  revert ims E.
  induction (take (Z.to_nat lim) (drop (Z.to_nat start) test_data))
    as [|r rows IH]; intros ims E; simpl in E.
  - injection E as <-. constructor.
  - destruct (row_image r) as [im|] eqn:Er; [| discriminate].
    destruct (collect _ rows) as [|ims'] eqn:E'; [discriminate |].
    injection E as <-. constructor; [exact Er | by apply IH].
Qed.

Lemma load_data_cifar10_window_witness :
  [2; 3] = take (Z.to_nat 2) (drop (Z.to_nat 1) [1; 2; 3; 8; 9]) /\
  Forall2 (fun (r im : string) => Some r = Some im)
    (take (Z.to_nat 2) (drop (Z.to_nat 1) ["r0"; "r1"; "r2"; "r3"; "r4"]%string))
    ["r1"; "r2"]%string.
Proof.
  apply (load_data_cifar10_window (fun r : string => Some r)
           [1; 2; 3; 8; 9] ["r0"; "r1"; "r2"; "r3"; "r4"]%string 1 2
           (mkModelData [2; 3] ["r1"; "r2"]%string [])).
  - lia.
  - lia.
  - reflexivity.
Defined.

Lemma speech_loop_window {array wave : Type} (decode_wav : wave -> array)
    (start : Z) (limit : option Z) (items : list (sample wave)) :
  forall idx, 0 <= idx ->
  speech_loop decode_wav start limit idx items
  = collect (speech_item decode_wav)
      (let rest := drop (Z.to_nat (start - idx)) items in
       match limit with
       | Some lim =>
           if Z.max start idx <? lim
           then take (Z.to_nat (lim - Z.max start idx)) rest
           else rest
       | None => rest
       end).
Proof.
  induction items as [|data rest IH]; intros idx Hidx.
  - cbn [speech_loop]. rewrite drop_nil.
    destruct limit; [destruct (_ <? _); rewrite ?take_nil |]; reflexivity.
  - cbn [speech_loop]. destruct (Z.ltb_spec idx start) as [Hs | Hs].
    + rewrite IH by lia.
      replace (Z.to_nat (start - idx)) with (S (Z.to_nat (start - (idx + 1))))
        by lia.
      replace (Z.max start (idx + 1)) with (Z.max start idx) by lia.
      reflexivity.
    + replace (Z.to_nat (start - idx)) with O by lia. rewrite drop_0.
      replace (Z.max start idx) with idx by lia.
      destruct limit as [lim|].
      * destruct (Z.ltb_spec idx lim) as [Hl | Hl].
        -- replace (Z.to_nat (lim - idx)) with (S (Z.to_nat (lim - idx) - 1))
             by lia.
           cbn [take collect].
           destruct (speech_item decode_wav data) as [e|item]; [reflexivity |].
           destruct (Z.eqb_spec lim 0) as [|_]; [lia |]. cbn [negb andb].
           destruct (Z.eqb_spec idx (lim - 1)) as [He | He].
           ++ replace (Z.to_nat (lim - idx) - 1)%nat with O by lia.
              rewrite take_0. reflexivity.
           ++ rewrite IH by lia.
              replace (Z.to_nat (start - (idx + 1))) with O by lia.
              rewrite drop_0.
              replace (Z.max start (idx + 1)) with (idx + 1) by lia.
              destruct (Z.ltb_spec (idx + 1) lim); [| lia].
              replace (Z.to_nat (lim - (idx + 1)))
                with (Z.to_nat (lim - idx) - 1)%nat by lia.
              reflexivity.
        -- cbn [collect].
           destruct (speech_item decode_wav data) as [e|item]; [reflexivity |].
           replace (negb (lim =? 0) && (idx =? lim - 1)) with false.
           2:{ symmetry. apply andb_false_iff. right. apply Z.eqb_neq. lia. }
           rewrite IH by lia.
           replace (Z.to_nat (start - (idx + 1))) with O by lia.
           rewrite drop_0.
           replace (Z.max start (idx + 1)) with (idx + 1) by lia.
           destruct (Z.ltb_spec (idx + 1) lim); [lia |]. reflexivity.
      * cbn [collect].
        destruct (speech_item decode_wav data) as [e|item]; [reflexivity |].
        rewrite IH by lia.
        replace (Z.to_nat (start - (idx + 1))) with O by lia.
        rewrite drop_0. reflexivity.
Qed.

Lemma speech_loop_0 {array wave : Type} (decode_wav : wave -> array)
    (start : Z) (limit : option Z) (items : list (sample wave)) :
  speech_loop decode_wav start limit 0 items
  = collect (speech_item decode_wav) (speech_window start limit items).
Proof.
  rewrite speech_loop_window by lia. unfold speech_window.
  rewrite Z.sub_0_r. reflexivity.
Qed.

(** X26. load_data_google_speech reads the dataset from its last item
    backwards and skips [start] items unchecked. With a limit larger than the
    start it reads the items at the positions start, ..., limit-1 of that
    order (limit-start of them, not limit); with no limit, a limit of 0 or a
    limit that is not larger than the start it reads every item from the
    start on. It fails when an item it reads has another sample rate
    (assertion) or an unknown label (ValueError). *)
Theorem load_data_google_speech_window {array wave : Type}
    (decode_wav : wave -> array) (mfcc : array -> array)
    (dataset : list (sample wave)) (start : Z) (limit : option Z) :
  load_data_google_speech decode_wav mfcc dataset start limit false
  = match collect (speech_item decode_wav)
            (speech_window start limit (rev dataset)) with
    | inl e => inl e
    | inr items => inr (mkModelData (map fst items) (map snd items) [])
    end.
Proof.
  unfold load_data_google_speech. by rewrite speech_loop_0.
Qed.

(** X27. A limit that is not larger than the start is ignored:
    load_data_google_speech then returns what it returns without a limit,
    every item from the start on. *)
Theorem load_data_google_speech_limit_ignored {array wave : Type}
    (decode_wav : wave -> array) (mfcc : array -> array)
    (dataset : list (sample wave)) (start lim : Z) (for_onnx : bool) :
  lim <= start ->
  load_data_google_speech decode_wav mfcc dataset start (Some lim) for_onnx
  = load_data_google_speech decode_wav mfcc dataset start None for_onnx.
Proof.
  intros Hlim. unfold load_data_google_speech. rewrite !speech_loop_0.
  unfold speech_window. destruct (Z.ltb_spec (Z.max start 0) lim); [lia |].
  reflexivity.
Qed.

Lemma load_data_google_speech_limit_ignored_witness :
  load_data_google_speech (fun w : string => w) (fun a => a)
    [mkSample "w0" 16000 "yes"; mkSample "w1" 16000 "no";
     mkSample "w2" 16000 "go"; mkSample "w3" 16000 "up"]%string
    2 (Some 1) false
  = load_data_google_speech (fun w : string => w) (fun a => a)
    [mkSample "w0" 16000 "yes"; mkSample "w1" 16000 "no";
     mkSample "w2" 16000 "go"; mkSample "w3" 16000 "up"]%string
    2 None false.
Proof.
  apply (load_data_google_speech_limit_ignored (fun w : string => w)
           (fun a => a)
           [mkSample "w0" 16000 "yes"; mkSample "w1" 16000 "no";
            mkSample "w2" 16000 "go"; mkSample "w3" 16000 "up"]%string
           2 1 false).
  lia.
Defined.

Lemma index_of_bound (x : string) (l : list string) (i : nat) :
  index_of x l = Some i -> l !! i = Some x.
Proof.
  revert i. induction l as [|y l IH]; intros i; simpl; [discriminate |].
  destruct (String.eqb_spec y x) as [-> | Hne].
  - by intros [= <-].
  - destruct (index_of x l) as [j|]; [| discriminate].
    intros [= <-]. simpl. by apply IH.
Qed.

Lemma collect_Forall2 {A B} (body : A -> loader_exn + B) (l : list A)
    (ys : list B) :
  collect body l = inr ys -> Forall2 (fun x y => body x = inr y) l ys.
Proof.
  revert ys. induction l as [|x l IH]; intros ys; simpl.
  - intros [= <-]. constructor.
  - destruct (body x) as [|y] eqn:E; [discriminate |].
    destruct (collect body l); [discriminate |].
    intros [= <-]. constructor; [exact E | by apply IH].
Qed.

(** X28. Every label that load_data_google_speech returns is the position,
    in the list of the twelve keywords, of the keyword of the item it was
    read from: the items read are those of the window of X26, in that order,
    each has the expected sample rate, the label returned for an item is a
    number from 0 to 11 and the keyword at that position is the item's own.
    The image returned for an item is its decoded waveform, passed through
    the MFCC when [for_onnx] is set; so labels and images are aligned. *)
Theorem load_data_google_speech_labels {array wave : Type}
    (decode_wav : wave -> array) (mfcc : array -> array)
    (dataset : list (sample wave)) (start : Z) (limit : option Z)
    (for_onnx : bool) (md : ModelData array) :
  load_data_google_speech decode_wav mfcc dataset start limit for_onnx = inr md ->
  Forall2 (fun d l => 0 <= l < 12 /\
                      new_labels !! Z.to_nat l = Some (label d) /\
                      sample_rate d = GOOGLE_SPEECH_SAMPLE_RATE)
    (speech_window start limit (rev dataset)) (labels md) /\
  images md
  = map (fun d => if for_onnx then mfcc (decode_wav (waveform d))
                  else decode_wav (waveform d))
      (speech_window start limit (rev dataset)) /\
  Forall (fun l => 0 <= l < 12 /\ is_Some (new_labels !! Z.to_nat l)) (labels md)
  /\ length (labels md) = length (images md).
Proof.
  unfold load_data_google_speech. rewrite speech_loop_0.
  destruct (collect _ _) as [|items] eqn:E; [discriminate |].
  apply collect_Forall2 in E.
  assert (Hl : Forall2 (fun d l => 0 <= l < 12 /\
                          new_labels !! Z.to_nat l = Some (label d) /\
                          sample_rate d = GOOGLE_SPEECH_SAMPLE_RATE)
                 (speech_window start limit (rev dataset)) (map fst items) /\
               map snd items
               = map (fun d => decode_wav (waveform d))
                   (speech_window start limit (rev dataset))).
  { clear -E. induction E as [|d it ds its Hd _ [IH1 IH2]]; simpl;
      [split; constructor |].
    unfold speech_item in Hd.
    destruct (Z.eqb_spec (sample_rate d) GOOGLE_SPEECH_SAMPLE_RATE) as [Hr|];
      [| discriminate].
    cbn [negb] in Hd.
    destruct (index_of (label d) new_labels) as [i|] eqn:Ei; [| discriminate].
    injection Hd as <-. cbn [fst snd]. apply index_of_bound in Ei.
    split; [| by rewrite IH2].
    constructor; [| exact IH1]. rewrite Nat2Z.id.
    split; [| by split].
    apply lookup_lt_Some in Ei. simpl in Ei. lia. }
  destruct Hl as [Hl Him].
  assert (Hr : Forall (fun l => 0 <= l < 12
                                /\ is_Some (new_labels !! Z.to_nat l))
                 (map fst items)).
  { clear -Hl. induction Hl as [|d l ds ls (Hb & Hk & _) _ IH];
      constructor; [| exact IH].
    split; [exact Hb | eauto]. }
  destruct for_onnx; intros [= <-]; cbn [labels images];
    (split; [exact Hl |]); (split; [| split; [exact Hr |]]).
  - rewrite Him, map_map. reflexivity.
  - by rewrite !length_map.
  - exact Him.
  - by rewrite !length_map.
Qed.

Lemma load_data_google_speech_labels_witness :
  Forall2 (fun (d : sample string) l =>
             0 <= l < 12 /\
             new_labels !! Z.to_nat l = Some (label d) /\
             sample_rate d = GOOGLE_SPEECH_SAMPLE_RATE)
    [mkSample "w2" 16000 "go"; mkSample "w1" 16000 "no"]%string [11; 3] /\
  ["w2"; "w1"]%string
  = map (fun d : sample string => waveform d)
      [mkSample "w2" 16000 "go"; mkSample "w1" 16000 "no"]%string /\
  Forall (fun l => 0 <= l < 12 /\ is_Some (new_labels !! Z.to_nat l)) [11; 3]
  /\ length [11; 3] = length ["w2"; "w1"]%string.
Proof.
  apply (load_data_google_speech_labels (fun w : string => w) (fun a => a)
           [mkSample "w0" 16000 "yes"; mkSample "w1" 16000 "no";
            mkSample "w2" 16000 "go"; mkSample "w3" 16000 "up"]%string
           1 (Some 3) false
           (mkModelData [11; 3] ["w2"; "w1"]%string [])).
  reflexivity.
Defined.
